(** * ARAP / ADMM fixed-vertex solver (demo/admmfixedsolver.cc)

    A shallow embedding of [arap::demo::AdmmFixedSolver] and the properties
    its specification states about it.

    Modelling conventions.
    - [double] is modelled by the real numbers [R]: the theorems below are
      about the algorithm in exact arithmetic.  The only non-finite value
      the source manipulates explicitly, [numeric_limits<double>::infinity()],
      appears as energy value and is modelled by the constructor
      [PosInfinity] of [xdouble].  The assembly of the system matrix is given
      a second time over IEEE 754 binary64 ([Precompute_M1_64],
      [Precompute_M2_64]), to measure what rounding does to the agreement
      of the two methods.
    - [int] indices and sizes are natural numbers (no index computed by the
      source is negative on well-formed input; overflow of [int] is not
      modelled).
    - Eigen dense matrices with three columns are lists of rows, Eigen sparse
      matrices are given by their dimensions and their coefficient function
      ([coeff]); reads outside a dense matrix yield the zero row and writes
      outside are dropped (Eigen leaves both undefined).
    - [exit(EXIT_FAILURE)] is the outcome [Exits], which records the text
      printed and the solver state at the point of termination.
    - The sparse Cholesky solver and [igl::polar_svd3x3] are external: they
      are section variables, and what a theorem needs of them is a
      hypothesis of that theorem. *)

From Stdlib Require Import PrimFloat SpecFloat FloatOps.
From Stdlib Require Import String Reals Lra Lia Arith Bool List.
Import ListNotations.

Set Implicit Arguments.
Open Scope R_scope.

(* ================================================================= *)
(** ** Eigen::Vector3d and Eigen::Matrix3d *)

Record Vector3d : Type := mkV3 { vx : R; vy : R; vz : R }.

Record Matrix3d : Type := mkM3 { mr0 : Vector3d; mr1 : Vector3d; mr2 : Vector3d }.

Module Eigen.

Definition vzero : Vector3d := mkV3 0 0 0.

(** [v(i)] *)
Definition vget (v : Vector3d) (i : nat) : R :=
  match i with
  | O => vx v
  | S O => vy v
  | _ => vz v
  end.

Definition vadd (a b : Vector3d) : Vector3d :=
  mkV3 (vx a + vx b) (vy a + vy b) (vz a + vz b).

Definition vsub (a b : Vector3d) : Vector3d :=
  mkV3 (vx a - vx b) (vy a - vy b) (vz a - vz b).

Definition vscale (k : R) (a : Vector3d) : Vector3d :=
  mkV3 (k * vx a) (k * vy a) (k * vz a).

Definition dot (a b : Vector3d) : R :=
  vx a * vx b + vy a * vy b + vz a * vz b.

Definition cross (a b : Vector3d) : Vector3d :=
  mkV3 (vy a * vz b - vz a * vy b)
       (vz a * vx b - vx a * vz b)
       (vx a * vy b - vy a * vx b).

Definition squaredNorm (a : Vector3d) : R := dot a a.

Definition norm (a : Vector3d) : R := sqrt (squaredNorm a).

(** [m.row(i)] and [m(i, j)] of a 3x3 matrix *)
Definition mrow (m : Matrix3d) (i : nat) : Vector3d :=
  match i with
  | O => mr0 m
  | S O => mr1 m
  | _ => mr2 m
  end.

Definition mget (m : Matrix3d) (i j : nat) : R := vget (mrow m i) j.

Definition mcol (m : Matrix3d) (j : nat) : Vector3d :=
  mkV3 (mget m 0 j) (mget m 1 j) (mget m 2 j).

Definition Identity : Matrix3d :=
  mkM3 (mkV3 1 0 0) (mkV3 0 1 0) (mkV3 0 0 1).

Definition Zero : Matrix3d := mkM3 vzero vzero vzero.

Definition madd (a b : Matrix3d) : Matrix3d :=
  mkM3 (vadd (mr0 a) (mr0 b)) (vadd (mr1 a) (mr1 b)) (vadd (mr2 a) (mr2 b)).

Definition msub (a b : Matrix3d) : Matrix3d :=
  mkM3 (vsub (mr0 a) (mr0 b)) (vsub (mr1 a) (mr1 b)) (vsub (mr2 a) (mr2 b)).

Definition mscale (k : R) (a : Matrix3d) : Matrix3d :=
  mkM3 (vscale k (mr0 a)) (vscale k (mr1 a)) (vscale k (mr2 a)).

Definition transpose (m : Matrix3d) : Matrix3d :=
  mkM3 (mcol m 0) (mcol m 1) (mcol m 2).

(** [a * b] for two 3x3 matrices *)
Definition mmul (a b : Matrix3d) : Matrix3d :=
  let r i := mkV3 (dot (mrow a i) (mcol b 0)) (dot (mrow a i) (mcol b 1))
                  (dot (mrow a i) (mcol b 2)) in
  mkM3 (r 0%nat) (r 1%nat) (r 2%nat).

(** [m * v] for a column vector [v] *)
Definition mvmul (m : Matrix3d) (v : Vector3d) : Vector3d :=
  mkV3 (dot (mr0 m) v) (dot (mr1 m) v) (dot (mr2 m) v).

(** [v * b.transpose()], the outer product *)
Definition outer (v b : Vector3d) : Matrix3d :=
  mkM3 (vscale (vx v) b) (vscale (vy v) b) (vscale (vz v) b).

Definition msquaredNorm (m : Matrix3d) : R :=
  squaredNorm (mr0 m) + squaredNorm (mr1 m) + squaredNorm (mr2 m).

Definition determinant (m : Matrix3d) : R :=
  dot (mr0 m) (cross (mr1 m) (mr2 m)).

End Eigen.
Import Eigen.

(* ================================================================= *)
(** ** Eigen::MatrixXd with three columns, Eigen::MatrixXi faces *)

Definition MatrixXd : Type := list Vector3d.

Definition rows (m : MatrixXd) : nat := length m.

(** [m.row(i)] as an rvalue *)
Definition row (m : MatrixXd) (i : nat) : Vector3d := nth i m vzero.

(** [m.row(i) = v] *)
Fixpoint set_row (m : MatrixXd) (i : nat) (v : Vector3d) : MatrixXd :=
  match m, i with
  | [], _ => []
  | _ :: t, O => v :: t
  | h :: t, S k => h :: set_row t k v
  end.

(** [m.row(i) += v] *)
Definition add_row (m : MatrixXd) (i : nat) (v : Vector3d) : MatrixXd :=
  set_row m i (vadd (row m i) v).

(** [MatrixXd::Zero(n, 3)] *)
Definition dense_zero (n : nat) : MatrixXd := repeat vzero n.

(** [m.block<3,3>(r, 0) = b]: rows [r], [r+1], [r+2] *)
Definition set_block (m : MatrixXd) (r : nat) (b : Matrix3d) : MatrixXd :=
  set_row (set_row (set_row m r (mr0 b)) (r + 1) (mr1 b)) (r + 2) (mr2 b).

(** [m.block<3,3>(r, 0) += b] *)
Definition add_block (m : MatrixXd) (r : nat) (b : Matrix3d) : MatrixXd :=
  add_row (add_row (add_row m r (mr0 b)) (r + 1) (mr1 b)) (r + 2) (mr2 b).

(** [m.block<3,3>(r, 0)] as an rvalue *)
Definition block (m : MatrixXd) (r : nat) : Matrix3d :=
  mkM3 (row m r) (row m (r + 1)) (row m (r + 2)).

(** [m.squaredNorm()] *)
Definition dense_squaredNorm (m : MatrixXd) : R :=
  fold_right (fun v acc => squaredNorm v + acc) 0 m.

(** One row of [faces_]: the three vertex indices of a triangle. *)
Record Face : Type := mkFace { fa : nat; fb : nat; fc : nat }.

Definition MatrixXi : Type := list Face.

(** [faces(f, k)] *)
Definition fidx (t : Face) (k : nat) : nat :=
  match k with
  | O => fa t
  | S O => fb t
  | _ => fc t
  end.

Definition face_at (faces : MatrixXi) (f : nat) : Face :=
  nth f faces (mkFace 0 0 0).

(* ================================================================= *)
(** ** Eigen::SparseMatrix<double> *)

Record SparseMatrix : Type := mkSparse {
  sp_rows : nat;
  sp_cols : nat;
  coeff : nat -> nat -> R            (* [m.coeff(i, j)] *)
}.

(** [m.resize(r, c)]: an empty (all-zero) matrix *)
Definition sp_resize (r c : nat) : SparseMatrix := mkSparse r c (fun _ _ => 0).

Definition at_entry (i j a b : nat) : bool := (a =? i)%nat && (b =? j)%nat.

(** [m.coeffRef(i, j) += x] *)
Definition coeffRef_add (m : SparseMatrix) (i j : nat) (x : R) : SparseMatrix :=
  mkSparse (sp_rows m) (sp_cols m)
    (fun a b => if at_entry i j a b then coeff m a b + x else coeff m a b).

(** [m.coeffRef(i, j) -= x] *)
Definition coeffRef_sub (m : SparseMatrix) (i j : nat) (x : R) : SparseMatrix :=
  mkSparse (sp_rows m) (sp_cols m)
    (fun a b => if at_entry i j a b then coeff m a b - x else coeff m a b).

(** [m.coeffRef(i, j) = x] *)
Definition coeffRef_set (m : SparseMatrix) (i j : nat) (x : R) : SparseMatrix :=
  mkSparse (sp_rows m) (sp_cols m)
    (fun a b => if at_entry i j a b then x else coeff m a b).

(** Finite sums of reals. *)
Definition Rsum (l : list R) : R := fold_right Rplus 0 l.

Definition sum_n (n : nat) (f : nat -> R) : R := Rsum (map f (seq 0 n)).

(** [a + b], [k * a], [a.transpose()] and [a * b] on sparse matrices *)
Definition sp_add (a b : SparseMatrix) : SparseMatrix :=
  mkSparse (sp_rows a) (sp_cols a) (fun i j => coeff a i j + coeff b i j).

Definition sp_scale (k : R) (a : SparseMatrix) : SparseMatrix :=
  mkSparse (sp_rows a) (sp_cols a) (fun i j => k * coeff a i j).

Definition sp_transpose (a : SparseMatrix) : SparseMatrix :=
  mkSparse (sp_cols a) (sp_rows a) (fun i j => coeff a j i).

Definition sp_mul (a b : SparseMatrix) : SparseMatrix :=
  mkSparse (sp_rows a) (sp_cols b)
    (fun i j => sum_n (sp_cols a) (fun k => coeff a i k * coeff b k j)).

(** [m * x] for a sparse [m] and a dense three-column [x] *)
Definition sp_mul_dense (m : SparseMatrix) (x : MatrixXd) : MatrixXd :=
  map (fun i =>
         fold_right (fun k acc => vadd (vscale (coeff m i k) (row x k)) acc)
                    vzero (seq 0 (sp_cols m)))
      (seq 0 (sp_rows m)).

(** [a - b] on dense matrices of the same shape *)
Fixpoint dense_sub (a b : MatrixXd) : MatrixXd :=
  match a, b with
  | x :: a', y :: b' => vsub x y :: dense_sub a' b'
  | _, _ => []
  end.

(* ================================================================= *)
(** ** Solver state *)

(** Modelled from the spec: [VertexType] and the entries of [vertex_info_] are
    declared in the header of the base class, which is not part of the
    sources at hand.  A vertex carries a tag, Free or Fixed, and a position:
    for a Free vertex its index in the compact free-variable ordering
    ([free_]), for a Fixed vertex its index in the list of targets. *)
Inductive VertexType : Type := Free | Fixed.

Record VertexInfo : Type := mkInfo { type : VertexType; pos : nat }.

Definition is_free (t : VertexType) : bool :=
  match t with Free => true | Fixed => false end.

Definition is_fixed (t : VertexType) : bool :=
  match t with Free => false | Fixed => true end.

(** The fields of [AdmmFixedSolver] and of its base class [Solver], with the
    names and the types the member functions use them at.
    [solver_] stands for the Cholesky factorization object: it remembers the
    matrix it was asked to factorize. *)
Record Solver : Type := mkSolver {
  vertices_ : MatrixXd;
  faces_ : MatrixXi;
  fixed_ : list nat;
  free_ : list nat;
  vertex_info_ : list VertexInfo;
  max_iteration_ : nat;
  rho_ : R;
  weight_ : SparseMatrix;
  M_ : SparseMatrix;
  solver_ : SparseMatrix;
  fixed_vertices_ : MatrixXd;
  vertices_updated_ : MatrixXd;
  rotations_ : list Matrix3d;
  S_ : list Matrix3d;
  T_ : list Matrix3d
}.

Definition info_at (st : Solver) (v : nat) : VertexInfo :=
  nth v (vertex_info_ st) (mkInfo Fixed 0).

Definition mat_at (l : list Matrix3d) (v : nat) : Matrix3d := nth v l Zero.

(** Modelled from the spec: [GetMatrixVariablePos] is declared in the header of
    the base class, which is not part of the sources at hand.  The layout
    comment of [Precompute] fixes it: columns
    [free_num + 3 * i .. free_num + 3 * i + 2] hold the first to third
    columns of [R_i]. *)
Definition GetMatrixVariablePos (st : Solver) (vertex_id col : nat) : nat :=
  (length (free_ st) + 3 * vertex_id + col)%nat.

Definition kMatrixDiffThreshold : R := 1e-6.
Definition kEnergyTolerance : R := 0.02.

(* ================================================================= *)
(** ** ComputeCotangent *)

Definition ComputeCotangent (st : Solver) (face_id : nat) : Vector3d :=
  let A := row (vertices_ st) (fidx (face_at (faces_ st) face_id) 0) in
  let B := row (vertices_ st) (fidx (face_at (faces_ st) face_id) 1) in
  let C := row (vertices_ st) (fidx (face_at (faces_ st) face_id) 2) in
  let a_squared := squaredNorm (vsub B C) in
  let b_squared := squaredNorm (vsub C A) in
  let c_squared := squaredNorm (vsub A B) in
  let area := norm (cross (vsub B A) (vsub C A)) / 2 in
  let four_area := 4 * area in
  mkV3 ((b_squared + c_squared - a_squared) / four_area)
       ((c_squared + a_squared - b_squared) / four_area)
       ((a_squared + b_squared - c_squared) / four_area).

(* ================================================================= *)
(** ** Field updates and outcomes *)

Definition with_weight (st : Solver) (w : SparseMatrix) : Solver :=
  mkSolver (vertices_ st) (faces_ st) (fixed_ st) (free_ st) (vertex_info_ st)
    (max_iteration_ st) (rho_ st) w (M_ st) (solver_ st)
    (fixed_vertices_ st) (vertices_updated_ st) (rotations_ st) (S_ st) (T_ st).

Definition with_M (st : Solver) (m : SparseMatrix) : Solver :=
  mkSolver (vertices_ st) (faces_ st) (fixed_ st) (free_ st) (vertex_info_ st)
    (max_iteration_ st) (rho_ st) (weight_ st) m (solver_ st)
    (fixed_vertices_ st) (vertices_updated_ st) (rotations_ st) (S_ st) (T_ st).

Definition with_solver (st : Solver) (m : SparseMatrix) : Solver :=
  mkSolver (vertices_ st) (faces_ st) (fixed_ st) (free_ st) (vertex_info_ st)
    (max_iteration_ st) (rho_ st) (weight_ st) (M_ st) m
    (fixed_vertices_ st) (vertices_updated_ st) (rotations_ st) (S_ st) (T_ st).

Definition with_fixed_vertices (st : Solver) (x : MatrixXd) : Solver :=
  mkSolver (vertices_ st) (faces_ st) (fixed_ st) (free_ st) (vertex_info_ st)
    (max_iteration_ st) (rho_ st) (weight_ st) (M_ st) (solver_ st)
    x (vertices_updated_ st) (rotations_ st) (S_ st) (T_ st).

Definition with_vertices_updated (st : Solver) (x : MatrixXd) : Solver :=
  mkSolver (vertices_ st) (faces_ st) (fixed_ st) (free_ st) (vertex_info_ st)
    (max_iteration_ st) (rho_ st) (weight_ st) (M_ st) (solver_ st)
    (fixed_vertices_ st) x (rotations_ st) (S_ st) (T_ st).

Definition with_rotations (st : Solver) (x : list Matrix3d) : Solver :=
  mkSolver (vertices_ st) (faces_ st) (fixed_ st) (free_ st) (vertex_info_ st)
    (max_iteration_ st) (rho_ st) (weight_ st) (M_ st) (solver_ st)
    (fixed_vertices_ st) (vertices_updated_ st) x (S_ st) (T_ st).

Definition with_S (st : Solver) (x : list Matrix3d) : Solver :=
  mkSolver (vertices_ st) (faces_ st) (fixed_ st) (free_ st) (vertex_info_ st)
    (max_iteration_ st) (rho_ st) (weight_ st) (M_ st) (solver_ st)
    (fixed_vertices_ st) (vertices_updated_ st) (rotations_ st) x (T_ st).

Definition with_T (st : Solver) (x : list Matrix3d) : Solver :=
  mkSolver (vertices_ st) (faces_ st) (fixed_ st) (free_ st) (vertex_info_ st)
    (max_iteration_ st) (rho_ st) (weight_ st) (M_ st) (solver_ st)
    (fixed_vertices_ st) (vertices_updated_ st) (rotations_ st) (S_ st) x.

(** A call either returns, or prints a line and calls [exit(EXIT_FAILURE)]. *)
Inductive outcome : Type :=
  | Returns (st : Solver)
  | Exits (printed : string) (st : Solver).

(** [l[i] = x] on a [std::vector] *)
Fixpoint vec_set (l : list Matrix3d) (i : nat) (x : Matrix3d) : list Matrix3d :=
  match l, i with
  | [], _ => []
  | _ :: t, O => x :: t
  | h :: t, S k => h :: vec_set t k x
  end.

(* ================================================================= *)
(** ** Precompute: the Weight Matrix *)

Definition index_map (i : nat) : nat * nat :=
  match i with
  | O => (1, 2)
  | S O => (2, 0)
  | _ => (0, 1)
  end%nat.

(** Body of the loop over the three vertices [i] of face [f]. *)
Definition weight_vertex_step (st : Solver) (f : nat) (cotangent : Vector3d)
    (w : SparseMatrix) (i : nat) : SparseMatrix :=
  let first := fidx (face_at (faces_ st) f) (fst (index_map i)) in
  let second := fidx (face_at (faces_ st) f) (snd (index_map i)) in
  let half_cot := vget cotangent i / 2 in
  let w := coeffRef_add w first second half_cot in
  let w := coeffRef_add w second first half_cot in
  let w := coeffRef_sub w first first half_cot in
  coeffRef_sub w second second half_cot.

Definition weight_face_step (st : Solver) (w : SparseMatrix) (f : nat)
    : SparseMatrix :=
  let cotangent := ComputeCotangent st f in
  fold_left (weight_vertex_step st f cotangent) (seq 0 3) w.

Definition Precompute_weight (st : Solver) : SparseMatrix :=
  let vertex_num := rows (vertices_ st) in
  let face_num := length (faces_ st) in
  fold_left (weight_face_step st) (seq 0 face_num)
            (sp_resize vertex_num vertex_num).

(** Code side, used in the proofs only: the off-diagonal entries the loop
    body writes for corner [i] of face [f] are (first, second) and
    (second, first), with first and second read off [index_map] as the body
    reads them. *)
Definition index_map_routes (st : Solver) (f k i j : nat) : bool :=
  let first := fidx (face_at (faces_ st) f) (fst (index_map k)) in
  let second := fidx (face_at (faces_ st) f) (snd (index_map k)) in
  at_entry first second i j || at_entry second first i j.

(* ================================================================= *)
(** ** Precompute: the System Matrix, first method (USE_LINEAR_SOLVE_1) *)

Definition edge_map (e : nat) : nat * nat :=
  match e with
  | O => (1, 2)
  | S O => (2, 0)
  | _ => (0, 1)
  end%nat.

(** Body of the loop over the three edges [e] of face [f]. *)
Definition M1_edge_step (st : Solver) (f : nat) (M : SparseMatrix) (e : nat)
    : SparseMatrix :=
  let free_num := length (free_ st) in
  let first := fidx (face_at (faces_ st) f) (fst (edge_map e)) in
  let second := fidx (face_at (faces_ st) f) (snd (edge_map e)) in
  let first_type := type (info_at st first) in
  let second_type := type (info_at st second) in
  let first_pos := pos (info_at st first) in
  let second_pos := pos (info_at st second) in
  let weight := coeff (weight_ st) first second in
  let v := vsub (row (vertices_ st) first) (row (vertices_ st) second) in
  let M :=
    if is_free first_type then
      let M := coeffRef_add M first_pos first_pos (2 * weight) in
      let M := if is_free second_type
               then coeffRef_sub M first_pos second_pos (2 * weight) else M in
      fold_left (fun M i =>
                   coeffRef_sub M first_pos (GetMatrixVariablePos st first i)
                                (2 * weight * vget v i))
                (seq 0 3) M
    else M in
  let M :=
    if is_free second_type then
      let M := coeffRef_add M second_pos second_pos (2 * weight) in
      let M := if is_free first_type
               then coeffRef_sub M second_pos first_pos (2 * weight) else M in
      fold_left (fun M i =>
                   coeffRef_add M second_pos (GetMatrixVariablePos st first i)
                                (2 * weight * vget v i))
                (seq 0 3) M
    else M in
  (* m = v * v.transpose() * weight * 2 *)
  let m i j := vget v i * vget v j * weight * 2 in
  let M :=
    fold_left (fun M i =>
                 fold_left (fun M j =>
                              coeffRef_add M (free_num + 3 * first + i)
                                           (free_num + 3 * first + j) (m i j))
                           (seq 0 3) M)
              (seq 0 3) M in
  let M :=
    if is_free first_type then
      fold_left (fun M i =>
                   let val := weight * 2 * vget v i in
                   coeffRef_sub M (GetMatrixVariablePos st first i) first_pos val)
                (seq 0 3) M
    else M in
  if is_free second_type then
    fold_left (fun M i =>
                 let val := weight * 2 * vget v i in
                 coeffRef_add M (GetMatrixVariablePos st first i) second_pos val)
              (seq 0 3) M
  else M.

Definition Precompute_M1 (st : Solver) : SparseMatrix :=
  let vertex_num := rows (vertices_ st) in
  let face_num := length (faces_ st) in
  let free_num := length (free_ st) in
  let M := sp_resize (free_num + 3 * vertex_num) (free_num + 3 * vertex_num) in
  let M := fold_left (fun M i => coeffRef_add M i i (rho_ st))
                     (seq free_num (3 * vertex_num)) M in
  fold_left (fun M f => fold_left (M1_edge_step st f) (seq 0 3) M)
            (seq 0 face_num) M.

(* ================================================================= *)
(** ** Precompute: the System Matrix, second method (USE_LINEAR_SOLVE_2) *)

(** The one-line sparse row vector [A] of an edge constraint. *)
Definition edge_row (st : Solver) (f e : nat) : SparseMatrix :=
  let vertex_num := rows (vertices_ st) in
  let free_num := length (free_ st) in
  let first := fidx (face_at (faces_ st) f) (fst (edge_map e)) in
  let second := fidx (face_at (faces_ st) f) (snd (edge_map e)) in
  let first_type := type (info_at st first) in
  let second_type := type (info_at st second) in
  let v := vsub (row (vertices_ st) first) (row (vertices_ st) second) in
  let A := sp_resize 1 (free_num + 3 * vertex_num) in
  let A := if is_free first_type
           then coeffRef_set A 0 (pos (info_at st first)) 1 else A in
  let A := if is_free second_type
           then coeffRef_set A 0 (pos (info_at st second)) (-1) else A in
  let A := coeffRef_set A 0 (GetMatrixVariablePos st first 0) (- vget v 0) in
  let A := coeffRef_set A 0 (GetMatrixVariablePos st first 1) (- vget v 1) in
  coeffRef_set A 0 (GetMatrixVariablePos st first 2) (- vget v 2).

Definition M2_edge_step (st : Solver) (f : nat) (M : SparseMatrix) (e : nat)
    : SparseMatrix :=
  let first := fidx (face_at (faces_ st) f) (fst (edge_map e)) in
  let second := fidx (face_at (faces_ st) f) (snd (edge_map e)) in
  let weight := coeff (weight_ st) first second in
  let A := edge_row st f e in
  (* M_ = M_ + 2 * weight * A.transpose() * A *)
  sp_add M (sp_mul (sp_scale (2 * weight) (sp_transpose A)) A).

(** The three-line sparse matrix [A] of the rotation constraint of [v]. *)
Definition rotation_rows (st : Solver) (v : nat) : SparseMatrix :=
  let vertex_num := rows (vertices_ st) in
  let free_num := length (free_ st) in
  let A := sp_resize 3 (free_num + 3 * vertex_num) in
  let A := coeffRef_set A 0 (GetMatrixVariablePos st v 0) 1 in
  let A := coeffRef_set A 1 (GetMatrixVariablePos st v 1) 1 in
  coeffRef_set A 2 (GetMatrixVariablePos st v 2) 1.

Definition M2_rotation_step (st : Solver) (M : SparseMatrix) (v : nat)
    : SparseMatrix :=
  let A := rotation_rows st v in
  (* M_ = M_ + rho_ * A.transpose() * A *)
  sp_add M (sp_mul (sp_scale (rho_ st) (sp_transpose A)) A).

Definition Precompute_M2 (st : Solver) : SparseMatrix :=
  let vertex_num := rows (vertices_ st) in
  let face_num := length (faces_ st) in
  let free_num := length (free_ st) in
  let M := sp_resize (free_num + 3 * vertex_num) (free_num + 3 * vertex_num) in
  let M := fold_left (fun M f => fold_left (M2_edge_step st f) (seq 0 3) M)
                     (seq 0 face_num) M in
  fold_left (M2_rotation_step st) (seq 0 vertex_num) M.

(* ================================================================= *)
(** ** IsSO3 and the energies *)

(** Values an energy can take: a finite [double], or the infinity the source
    returns when the indicator function fails. *)
Inductive xdouble : Type :=
  | Finite (x : R)
  | PosInfinity.

(** Modelled from the spec: the class [Energy] is declared outside the sources
    at hand; the specification describes it as a named mapping from term label
    to scalar value, filled by [AddEnergyType]. *)
Definition Energy : Type := list (string * xdouble).

Definition AddEnergyType (e : Energy) (name : string) (value : xdouble) : Energy :=
  (name, value) :: e.

Fixpoint energy_of (e : Energy) (name : string) : option xdouble :=
  match e with
  | [] => None
  | (k, x) :: e' => if String.eqb k name then Some x else energy_of e' name
  end.

(** [abs] is read as the absolute value of a [double]. *)
Definition IsSO3 (S : Matrix3d) : bool :=
  let det := determinant S in
  if Rgt_dec (msquaredNorm (msub (mmul S (transpose S)) Identity))
             kMatrixDiffThreshold
  then false
  else if Rgt_dec (Rabs (det - 1)) kMatrixDiffThreshold then false
  else true.

(** Energy of one directed edge, as both energies compute it. *)
Definition edge_energy (st : Solver) (vertices : MatrixXd)
    (rotations : list Matrix3d) (f e : nat) : R :=
  let first := fidx (face_at (faces_ st) f) (fst (edge_map e)) in
  let second := fidx (face_at (faces_ st) f) (snd (edge_map e)) in
  let weight := coeff (weight_ st) first second in
  let vec := vsub (vsub (row vertices first) (row vertices second))
                  (mvmul (mat_at rotations first)
                         (vsub (row (vertices_ st) first)
                               (row (vertices_ st) second))) in
  weight * squaredNorm vec.

Definition ComputeEnergy (st : Solver) : Energy :=
  let energy : Energy := [] in
  let vertex_num := rows (vertices_ st) in
  if existsb (fun i => negb (IsSO3 (mat_at (S_ st) i))) (seq 0 vertex_num)
  then AddEnergyType energy "Total" PosInfinity
  else
    let face_num := length (faces_ st) in
    let total :=
      fold_left (fun total f =>
                   fold_left (fun total e =>
                                total + edge_energy st (vertices_updated_ st)
                                                    (rotations_ st) f e)
                             (seq 0 3) total)
                (seq 0 face_num) 0 in
    let energy := AddEnergyType energy "ARAP" (Finite total) in
    let half_rho := rho_ st / 2 in
    let rotation_aug_energy :=
      fold_left (fun acc i =>
                   acc + msquaredNorm (msub (mat_at (rotations_ st) i)
                                            (mat_at (S_ st) i)))
                (seq 0 vertex_num) 0 in
    let rotation_aug_energy := rotation_aug_energy * half_rho in
    let total := total + rotation_aug_energy in
    let energy := AddEnergyType energy "Rotation" (Finite rotation_aug_energy) in
    AddEnergyType energy "Total" (Finite total).

Definition ComputeSVDSolveEnergy (st : Solver) : xdouble :=
  let vertex_num := rows (vertices_ st) in
  if existsb (fun v => negb (IsSO3 (mat_at (S_ st) v))) (seq 0 vertex_num)
  then PosInfinity
  else
    let energy :=
      fold_left (fun energy v =>
                   energy + msquaredNorm
                              (madd (msub (mat_at (rotations_ st) v)
                                          (mat_at (S_ st) v))
                                    (mat_at (T_ st) v)))
                (seq 0 vertex_num) 0 in
    Finite (energy * (rho_ st / 2)).

(* ================================================================= *)
(** ** SolvePreprocess *)

Definition SolvePreprocess (st : Solver) (fixed_vertices : MatrixXd) : outcome :=
  (* Cache fixed_vertices. *)
  let st := with_fixed_vertices st fixed_vertices in
  let fixed_num := length (fixed_ st) in
  if negb (fixed_num =? rows (fixed_vertices_ st))%nat then
    Exits "Wrong dimension in fixed number." st
  else
    let st := with_vertices_updated st (vertices_ st) in
    let st :=
      fold_left (fun st i =>
                   let pos := nth i (fixed_ st) 0%nat in
                   with_vertices_updated st
                     (set_row (vertices_updated_ st) pos
                              (row (fixed_vertices_ st) i)))
                (seq 0 fixed_num) st in
    let vertex_num := rows (vertices_ st) in
    let st := with_rotations st (repeat Identity vertex_num) in
    let st := with_S st (repeat Identity vertex_num) in
    let st := with_T st (repeat Zero vertex_num) in
    Returns st.

(* ================================================================= *)
(** ** Precompute and SolveOneIteration, over the external kernels *)

Inductive ComputationInfo : Type := Success | NumericalIssue.

Definition is_success (i : ComputationInfo) : bool :=
  match i with Success => true | NumericalIssue => false end.

Section Externals.

(** [solver_.compute(M)] followed by [solver_.info()] *)
Variable cholesky_compute : SparseMatrix -> ComputationInfo.

(** [solver_.solve(rhs)] followed by [solver_.info()], for the factorization
    of the matrix given first *)
Variable cholesky_solve : SparseMatrix -> MatrixXd -> MatrixXd * ComputationInfo.

(** [igl::polar_svd3x3(A, R)]: the rotation written to [R] *)
Variable polar_svd3x3 : Matrix3d -> Matrix3d.

Definition Precompute (st : Solver) : outcome :=
  let st := with_weight st (Precompute_weight st) in
  let st := with_M st (Precompute_M1 st) in
  (* makeCompressed changes the storage, not the coefficients *)
  let st := with_solver st (M_ st) in
  if negb (is_success (cholesky_compute (M_ st))) then
    Exits "Fail to do Cholesky factorization." st
  else Returns st.

(** Right-hand side, first method: the rotation blocks. *)
Definition rhs_rotation_step (st : Solver) (rhs : MatrixXd) (v : nat) : MatrixXd :=
  let free_num := length (free_ st) in
  set_block rhs (free_num + 3 * v)
    (mscale (rho_ st) (transpose (msub (mat_at (S_ st) v) (mat_at (T_ st) v)))).

(** Right-hand side, first method: body of the loop over the edges. *)
Definition rhs_edge_step (st : Solver) (f : nat) (rhs : MatrixXd) (e : nat)
    : MatrixXd :=
  let first := fidx (face_at (faces_ st) f) (fst (edge_map e)) in
  let second := fidx (face_at (faces_ st) f) (snd (edge_map e)) in
  let first_type := type (info_at st first) in
  let second_type := type (info_at st second) in
  let first_pos := pos (info_at st first) in
  let second_pos := pos (info_at st second) in
  let weight := coeff (weight_ st) first second in
  let v := vsub (row (vertices_ st) first) (row (vertices_ st) second) in
  if is_free first_type && is_free second_type then rhs (* continue *)
  else
    let rhs :=
      if is_free first_type
      then add_row rhs first_pos
                   (vscale (2 * weight) (row (vertices_updated_ st) second))
      else rhs in
    let rhs :=
      if is_free second_type
      then add_row rhs second_pos
                   (vscale (2 * weight) (row (vertices_updated_ st) first))
      else rhs in
    let b := vzero in
    let b := if is_fixed first_type
             then vadd b (row (vertices_updated_ st) first) else b in
    let b := if is_fixed second_type
             then vsub b (row (vertices_updated_ st) second) else b in
    (* m = v * b.transpose() * 2 * weight *)
    let m := mscale weight (mscale 2 (outer v b)) in
    add_block rhs (GetMatrixVariablePos st first 0) m.

Definition build_rhs (st : Solver) : MatrixXd :=
  let free_num := length (free_ st) in
  let vertex_num := rows (vertices_ st) in
  let face_num := length (faces_ st) in
  let rhs := dense_zero (free_num + 3 * vertex_num) in
  let rhs := fold_left (rhs_rotation_step st) (seq 0 vertex_num) rhs in
  fold_left (fun rhs f => fold_left (rhs_edge_step st f) (seq 0 3) rhs)
            (seq 0 face_num) rhs.

(** [(M_ * solution - rhs).squaredNorm()] *)
Definition residual (st : Solver) (solution rhs : MatrixXd) : R :=
  dense_squaredNorm (dense_sub (sp_mul_dense (M_ st) solution) rhs).

(** Writing the solution back into [vertices_updated_] and [rotations_]. *)
Definition write_back (st : Solver) (solution : MatrixXd) : Solver :=
  let free_num := length (free_ st) in
  let vertex_num := rows (vertices_ st) in
  let st :=
    fold_left (fun st i =>
                 with_vertices_updated st
                   (set_row (vertices_updated_ st) (nth i (free_ st) 0%nat)
                            (row solution i)))
              (seq 0 free_num) st in
  fold_left (fun st v =>
               with_rotations st
                 (vec_set (rotations_ st) v
                          (transpose (block solution (free_num + 3 * v)))))
            (seq 0 vertex_num) st.

(** Step 1: linear solve, sanity checks, write back. *)
Definition LinearSolve (st : Solver) : outcome :=
  let free_num := length (free_ st) in
  let vertex_num := rows (vertices_ st) in
  let rhs := build_rhs st in
  let solution := fst (cholesky_solve (solver_ st) rhs) in
  if negb (is_success (snd (cholesky_solve (solver_ st) rhs))) then
    Exits "Fail to solve the sparse linear system." st
  else if negb (rows solution =? free_num + 3 * vertex_num)%nat then
    Exits "Fail to write back solution: dimension mismatch." st
  else if Rgt_dec (residual st solution rhs) kMatrixDiffThreshold then
    Exits "Sparse linear solver is wrong!" st
  else Returns (write_back st solution).

(** Step 2: SVD solve. *)
Definition SVDSolve (st : Solver) : Solver :=
  let vertex_num := rows (vertices_ st) in
  fold_left (fun st i =>
               let res := madd (mat_at (rotations_ st) i) (mat_at (T_ st) i) in
               with_S st (vec_set (S_ st) i (polar_svd3x3 res)))
            (seq 0 vertex_num) st.

(** Step 3: update T. *)
Definition UpdateT (st : Solver) : Solver :=
  let vertex_num := rows (vertices_ st) in
  fold_left (fun st i =>
               with_T st
                 (vec_set (T_ st) i
                          (madd (mat_at (T_ st) i)
                                (msub (mat_at (rotations_ st) i)
                                      (mat_at (S_ st) i)))))
            (seq 0 vertex_num) st.

(** USE_TEST_FUNCTIONS is not defined: the optional checks are compiled out. *)
Definition SolveOneIteration (st : Solver) : outcome :=
  match LinearSolve st with
  | Exits msg st' => Exits msg st'
  | Returns st1 => Returns (UpdateT (SVDSolve st1))
  end.

End Externals.

(* ================================================================= *)
(** ** SolveOneIteration: the right-hand side, second method
       (USE_LINEAR_SOLVE_2) *)

(** [a += b] on dense matrices of the same shape *)
Fixpoint dense_add (a b : MatrixXd) : MatrixXd :=
  match a, b with
  | x :: a', y :: b' => vadd x y :: dense_add a' b'
  | _, _ => []
  end.

(** The rows of a 3x3 matrix as a dense matrix. *)
Definition dense_of (B : Matrix3d) : MatrixXd := [mr0 B; mr1 B; mr2 B].

(** Body of the loop over the edges: [rhs += 2 * weight * A^T * b^T]. *)
Definition rhs2_edge_step (st : Solver) (f : nat) (rhs : MatrixXd) (e : nat)
    : MatrixXd :=
  let first := fidx (face_at (faces_ st) f) (fst (edge_map e)) in
  let second := fidx (face_at (faces_ st) f) (snd (edge_map e)) in
  let first_type := type (info_at st first) in
  let second_type := type (info_at st second) in
  let weight := coeff (weight_ st) first second in
  let A := edge_row st f e in
  let b := vzero in
  let b := if is_fixed first_type
           then vsub b (row (vertices_updated_ st) first) else b in
  let b := if is_fixed second_type
           then vadd b (row (vertices_updated_ st) second) else b in
  dense_add rhs (sp_mul_dense (sp_scale (2 * weight) (sp_transpose A)) [b]).

(** Body of the loop over the rotation constraints: [rhs += rho * A^T * B]. *)
Definition rhs2_rotation_step (st : Solver) (rhs : MatrixXd) (v : nat) : MatrixXd :=
  let A := rotation_rows st v in
  let B := transpose (msub (mat_at (S_ st) v) (mat_at (T_ st) v)) in
  dense_add rhs (sp_mul_dense (sp_scale (rho_ st) (sp_transpose A)) (dense_of B)).

Definition build_rhs2 (st : Solver) : MatrixXd :=
  let free_num := length (free_ st) in
  let vertex_num := rows (vertices_ st) in
  let face_num := length (faces_ st) in
  let rhs := dense_zero (free_num + 3 * vertex_num) in
  let rhs := fold_left (fun rhs f => fold_left (rhs2_edge_step st f) (seq 0 3) rhs)
                       (seq 0 face_num) rhs in
  fold_left (rhs2_rotation_step st) (seq 0 vertex_num) rhs.

(* ================================================================= *)
(** ** ComputeLinearSolveEnergy *)

Definition ComputeLinearSolveEnergy (st : Solver) (vertices : MatrixXd)
    (rotations : list Matrix3d) : R :=
  let face_num := length (faces_ st) in
  let vertex_num := rows (vertices_ st) in
  let energy :=
    fold_left (fun energy f =>
                 fold_left (fun energy e =>
                              energy + edge_energy st vertices rotations f e)
                           (seq 0 3) energy)
              (seq 0 face_num) 0 in
  let weight := rho_ st / 2 in
  fold_left (fun energy v =>
               energy + weight * msquaredNorm
                                   (madd (msub (mat_at rotations v) (mat_at (S_ st) v))
                                         (mat_at (T_ st) v)))
            (seq 0 vertex_num) energy.

(* ================================================================= *)
(** ** Specification-side definitions *)

(** Squared length of the edge between two points. *)
Definition sqdist (P Q : Vector3d) : R := squaredNorm (vsub P Q).

(** Area of a triangle: half the norm of the cross product of two sides. *)
Definition triangle_area (A B C : Vector3d) : R :=
  norm (cross (vsub B A) (vsub C A)) / 2.

(** (sum of the two adjacent squared edges - opposite squared edge) / (4 area),
    for the vertex [P] of the triangle [P Q1 Q2] of area [area]. *)
Definition cotangent_formula (P Q1 Q2 : Vector3d) (area : R) : R :=
  (sqdist P Q1 + sqdist P Q2 - sqdist Q1 Q2) / (4 * area).

(** Cotangent of the angle at [P] between the sides [P Q1] and [P Q2]:
    cosine over sine, both scaled by the product of the side lengths. *)
Definition cotangent_angle (P Q1 Q2 : Vector3d) : R :=
  dot (vsub Q1 P) (vsub Q2 P) / norm (cross (vsub Q1 P) (vsub Q2 P)).

(** The three corners of a face in rest pose. *)
Definition corner (st : Solver) (f k : nat) : Vector3d :=
  row (vertices_ st) (fidx (face_at (faces_ st) f) k).

(** Every vertex index of every face is a row of [vertices_]. *)
Definition faces_in_range (st : Solver) : Prop :=
  Forall (fun t => (fa t < rows (vertices_ st) /\ fb t < rows (vertices_ st)
                    /\ fc t < rows (vertices_ st))%nat)
         (faces_ st).

(** The corners of a triangle other than corner [k]. *)
Definition other_corners (k : nat) : list nat :=
  filter (fun c => negb (c =? k)%nat) [0; 1; 2]%nat.

(** The edge of the triangle [t] opposite to its corner [k] is the side
    between the two other corners; it joins [i] and [j] when these are the
    vertices at those corners, in either order. *)
Definition opposite_edge_joins (t : Face) (k i j : nat) : bool :=
  match map (fidx t) (other_corners k) with
  | [a; b] => ((i =? a) && (j =? b) || (i =? b) && (j =? a))%nat
  | _ => false
  end.

(** The face [t] names the vertex [v] at one of its corners. *)
Definition face_names (t : Face) (v : nat) : Prop :=
  fa t = v \/ fb t = v \/ fc t = v.

(** The fixed-vertex indices are distinct rows of [vertices_]. *)
Definition fixed_wf (st : Solver) : Prop :=
  NoDup (fixed_ st) /\
  Forall (fun v => (v < rows (vertices_ st))%nat) (fixed_ st).

(** The loop that enforces the fixed vertices, on the matrix alone. *)
Definition enforce_fixed (fixed : list nat) (targets m : MatrixXd) (k : nat)
    : MatrixXd :=
  fold_left (fun m i => set_row m (nth i fixed 0%nat) (row targets i))
            (seq 0 k) m.

(** The directed edges of the mesh: three per face, in the order of the
    loops of the source. *)
Definition directed_edges (st : Solver) : list (nat * nat) :=
  flat_map (fun t => [(fb t, fc t); (fc t, fa t); (fa t, fb t)]) (faces_ st).

(** weight * || (p_i - p_j) - R_i (rest_i - rest_j) ||^2 *)
Definition arap_edge_term (st : Solver) (ij : nat * nat) : R :=
  let (i, j) := ij in
  coeff (weight_ st) i j *
  squaredNorm
    (vsub (vsub (row (vertices_updated_ st) i) (row (vertices_updated_ st) j))
          (mvmul (mat_at (rotations_ st) i)
                 (vsub (row (vertices_ st) i) (row (vertices_ st) j)))).

Definition arap_term (st : Solver) : R :=
  Rsum (map (arap_edge_term st) (directed_edges st)).

(** (rho / 2) * sum over the vertices of || R_v - S_v ||^2 *)
Definition rotation_term (st : Solver) : R :=
  rho_ st / 2 *
  Rsum (map (fun v => msquaredNorm (msub (mat_at (rotations_ st) v)
                                         (mat_at (S_ st) v)))
            (seq 0 (rows (vertices_ st)))).

(** The SO(3) invariant with its tolerances: squared Frobenius deviation of
    S^T S from the identity at most 1e-6, determinant within 1e-6 of 1. *)
Definition SO3_invariant (S : Matrix3d) : Prop :=
  msquaredNorm (msub (mmul (transpose S) S) Identity) <= 1e-6 /\
  Rabs (determinant S - 1) <= 1e-6.

(** The free/fixed partition as the base class sets it up: a free vertex
    holds its index in [free_]. *)
Definition partition_wf (st : Solver) : Prop :=
  NoDup (free_ st) /\
  Forall (fun v => (v < rows (vertices_ st))%nat) (free_ st) /\
  forall v, (v < rows (vertices_ st))%nat -> type (info_at st v) = Free ->
            (pos (info_at st v) < length (free_ st))%nat /\
            nth (pos (info_at st v)) (free_ st) 0%nat = v.

(** The per-vertex state has one entry per vertex. *)
Definition state_wf (st : Solver) : Prop :=
  rows (vertices_updated_ st) = rows (vertices_ st) /\
  length (rotations_ st) = rows (vertices_ st) /\
  length (S_ st) = rows (vertices_ st) /\
  length (T_ st) = rows (vertices_ st).

Definition Vsum (l : list Vector3d) : Vector3d := fold_right vadd vzero l.

(** A directed edge has at least one Fixed endpoint. *)
Definition has_fixed_endpoint (st : Solver) (ij : nat * nat) : bool :=
  is_fixed (type (info_at st (fst ij))) || is_fixed (type (info_at st (snd ij))).

(** Row [r] of the term a directed edge (i, j) with a Fixed endpoint adds to
    the right-hand side. *)
Definition rhs_edge_term (st : Solver) (ij : nat * nat) (r : nat) : Vector3d :=
  let (i, j) := ij in
  let weight := coeff (weight_ st) i j in
  let v := vsub (row (vertices_ st) i) (row (vertices_ st) j) in
  let b := vsub (if is_fixed (type (info_at st i))
                 then row (vertices_updated_ st) i else vzero)
                (if is_fixed (type (info_at st j))
                 then row (vertices_updated_ st) j else vzero) in
  let m := mscale (2 * weight) (outer v b) in
  vadd (vadd (if is_free (type (info_at st i)) && (r =? pos (info_at st i))%nat
              then vscale (2 * weight) (row (vertices_updated_ st) j) else vzero)
             (if is_free (type (info_at st j)) && (r =? pos (info_at st j))%nat
              then vscale (2 * weight) (row (vertices_updated_ st) i) else vzero))
       (if (r =? GetMatrixVariablePos st i 0)%nat then mr0 m
        else if (r =? GetMatrixVariablePos st i 1)%nat then mr1 m
        else if (r =? GetMatrixVariablePos st i 2)%nat then mr2 m
        else vzero).

(** The right-hand side after the loop over the rotation blocks. *)
Definition rhs_rotation (st : Solver) : MatrixXd :=
  fold_left (rhs_rotation_step st) (seq 0 (rows (vertices_ st)))
            (dense_zero (length (free_ st) + 3 * rows (vertices_ st))).

(** A proper rotation: orthogonal, determinant one. *)
Definition exact_rotation (Q : Matrix3d) : Prop :=
  mmul Q (transpose Q) = Identity /\ determinant Q = 1.

(** [Q] is at least as close to [M] as any proper rotation. *)
Definition closest_to (Q M : Matrix3d) : Prop :=
  forall Q', exact_rotation Q' ->
    msquaredNorm (msub Q M) <= msquaredNorm (msub Q' M).

(** The test of the energies around the SVD step (USE_TEST_FUNCTIONS):
    [true] when the source reports an svd solve error. *)
Definition svd_solve_error (energy_before_svd energy_after_svd : xdouble) : bool :=
  match energy_before_svd, energy_after_svd with
  | Finite before, Finite after =>
      if Rlt_dec before (after - kEnergyTolerance) then true else false
  | _, _ => true
  end.

(** States the solver goes through: after a SolvePreprocess that returned,
    and after every SolveOneIteration that returned. *)
Inductive reachable
    (cholesky_solve : SparseMatrix -> MatrixXd -> MatrixXd * ComputationInfo)
    (polar_svd3x3 : Matrix3d -> Matrix3d) : Solver -> Prop :=
  | reach_preprocess st fixed_vertices st' :
      SolvePreprocess st fixed_vertices = Returns st' ->
      reachable cholesky_solve polar_svd3x3 st'
  | reach_iteration st st' :
      reachable cholesky_solve polar_svd3x3 st ->
      SolveOneIteration cholesky_solve polar_svd3x3 st = Returns st' ->
      reachable cholesky_solve polar_svd3x3 st'.

(** No face names a vertex twice. *)
Definition faces_nondegenerate (st : Solver) : Prop :=
  Forall (fun t => fa t <> fb t /\ fb t <> fc t /\ fc t <> fa t) (faces_ st).

(** Indicator of a test. *)
Definition ind (b : bool) : R := if b then 1 else 0.

(** Coefficient [x] of the row vector of the edge constraint (first, second):
    +1 at a free [first], -1 at a free [second], [-v] at the three
    rotation unknowns of [first]. *)
Definition edge_row_form (st : Solver) (first second x : nat) : R :=
  let v := vsub (row (vertices_ st) first) (row (vertices_ st) second) in
  ind (is_free (type (info_at st first)) && (x =? pos (info_at st first))%nat)
  - ind (is_free (type (info_at st second)) && (x =? pos (info_at st second))%nat)
  - ind (x =? GetMatrixVariablePos st first 0)%nat * vget v 0
  - ind (x =? GetMatrixVariablePos st first 1)%nat * vget v 1
  - ind (x =? GetMatrixVariablePos st first 2)%nat * vget v 2.

(** What one directed edge adds to entry (a, b) of the System Matrix. *)
Definition edge_delta (st : Solver) (f e a b : nat) : R :=
  let first := fidx (face_at (faces_ st) f) (fst (edge_map e)) in
  let second := fidx (face_at (faces_ st) f) (snd (edge_map e)) in
  2 * coeff (weight_ st) first second
  * edge_row_form st first second a * edge_row_form st first second b.

(** What the rotation constraint of vertex [v] adds to entry (a, b). *)
Definition rotation_delta (st : Solver) (v a b : nat) : R :=
  rho_ st * (ind (a =? GetMatrixVariablePos st v 0)%nat * ind (b =? GetMatrixVariablePos st v 0)%nat
             + ind (a =? GetMatrixVariablePos st v 1)%nat * ind (b =? GetMatrixVariablePos st v 1)%nat
             + ind (a =? GetMatrixVariablePos st v 2)%nat * ind (b =? GetMatrixVariablePos st v 2)%nat).

(** What all the directed edges add to entry (a, b). *)
Definition edges_sum (st : Solver) (a b : nat) : R :=
  Rsum (map (fun f => Rsum (map (fun e => edge_delta st f e a b) (seq 0 3)))
            (seq 0 (length (faces_ st)))).

(* ================================================================= *)
(** ** A small mesh used to exercise the theorems

    One right triangle with legs of length one; vertex 0 is fixed, vertices
    1 and 2 are free.  The weights are an arbitrary Laplacian-shaped matrix,
    the system matrix is the identity on the eleven unknowns, so that the
    identity map is an exact solver for it. *)

Definition demo_vertices : MatrixXd := [mkV3 0 0 0; mkV3 1 0 0; mkV3 0 1 0].

Definition demo_identity (n : nat) : SparseMatrix :=
  mkSparse n n (fun i j => if (i =? j)%nat then 1 else 0).

Definition demo_weight : SparseMatrix :=
  mkSparse 3 3 (fun i j => if (i =? j)%nat then -1 else 1 / 2).

Definition demo_solver : Solver :=
  mkSolver demo_vertices [mkFace 0 1 2] [0%nat] [1%nat; 2%nat]
    [mkInfo Fixed 0; mkInfo Free 0; mkInfo Free 1]
    50 1 demo_weight (demo_identity 11) (demo_identity 11)
    [] [] [] [] [].

(** The state of a call, whether it returned or exited. *)
Definition state_of (o : outcome) : Solver :=
  match o with
  | Returns st => st
  | Exits _ st => st
  end.

(** The demo solver after SolvePreprocess with the fixed vertex at rest. *)
Definition demo_ready : Solver :=
  state_of (SolvePreprocess demo_solver [mkV3 0 0 0]).

(** The demo solver after SolvePreprocess with the fixed vertex moved. *)
Definition demo_moved : Solver :=
  state_of (SolvePreprocess demo_solver [mkV3 (1 / 10) 0 0]).

(** An exact solver for the identity matrix, and a kernel that answers the
    identity rotation. *)
Definition demo_cholesky_solve (M : SparseMatrix) (rhs : MatrixXd)
    : MatrixXd * ComputationInfo := (rhs, Success).

Definition demo_polar (M : Matrix3d) : Matrix3d := Identity.

(** A unit equilateral triangle. *)
Definition equilateral_solver : Solver :=
  mkSolver [mkV3 0 0 0; mkV3 1 0 0; mkV3 (1 / 2) (sqrt 3 / 2) 0]
    [mkFace 0 1 2] [0%nat] [1%nat; 2%nat]
    [mkInfo Fixed 0; mkInfo Free 0; mkInfo Free 1]
    50 1 (sp_resize 3 3) (sp_resize 11 11) (sp_resize 11 11)
    [] [] [] [] [].

(** A scalene triangle, with corners (0,0,0), (4,0,0), (1,3,0): its three
    cotangents are 1/3, 1 and 1/2. *)
Definition scalene_solver : Solver :=
  mkSolver [mkV3 0 0 0; mkV3 4 0 0; mkV3 1 3 0]
    [mkFace 0 1 2] [0%nat] [1%nat; 2%nat]
    [mkInfo Fixed 0; mkInfo Free 0; mkInfo Free 1]
    50 1 (sp_resize 3 3) (sp_resize 11 11) (sp_resize 11 11)
    [] [] [] [] [].

(** A unit square cut along the diagonal from vertex 1 to vertex 2: the
    vertices 0 and 3 lie across the diagonal and share no face. *)
Definition demo_quad : Solver :=
  mkSolver [mkV3 0 0 0; mkV3 1 0 0; mkV3 0 1 0; mkV3 1 1 0]
    [mkFace 0 1 2; mkFace 1 3 2] [0%nat] [1%nat; 2%nat; 3%nat]
    [mkInfo Fixed 0; mkInfo Free 0; mkInfo Free 1; mkInfo Free 2]
    50 1 (sp_resize 4 4) (sp_resize 15 15) (sp_resize 15 15)
    [] [] [] [] [].


Definition demo_moved_rhs : MatrixXd :=
  [mkV3 (1 / 10) 0 0; mkV3 (1 / 10) 0 0;
   mkV3 (9 / 10) 0 0; mkV3 0 1 0; mkV3 0 0 1;
   mkV3 1 0 0; mkV3 0 1 0; mkV3 0 0 1;
   mkV3 1 0 0; mkV3 (- 1 / 10) 1 0; mkV3 0 0 1].

(** The demo solver with an S_0 that is no rotation. *)
Definition demo_broken : Solver :=
  with_S demo_ready [mscale 2 Identity; Identity; Identity].

(** A solver that answers a matrix without rows. *)
Definition demo_bad_solve (M : SparseMatrix) (rhs : MatrixXd)
    : MatrixXd * ComputationInfo := ([], Success).

(** The diagonal reflection through the xy-plane. *)
Definition demo_reflection : Matrix3d :=
  mkM3 (mkV3 1 0 0) (mkV3 0 1 0) (mkV3 0 0 (-1)).

(** The quadratic form x^T M x over the first [n] unknowns. *)
Definition quadratic_form (M : SparseMatrix) (n : nat) (x : nat -> R) : R :=
  sum_n n (fun a => sum_n n (fun b => x a * coeff M a b * x b)).

(** The row vector of the edge constraint [e] of face [f] applied to [x]. *)
Definition edge_row_apply (st : Solver) (n f e : nat) (x : nat -> R) : R :=
  let first := fidx (face_at (faces_ st) f) (fst (edge_map e)) in
  let second := fidx (face_at (faces_ st) f) (snd (edge_map e)) in
  sum_n n (fun a => edge_row_form st first second a * x a).

(** Every weight the loops over the edges read is non-negative. *)
Definition edge_weights_nonneg (st : Solver) : Prop :=
  forall f e, (f < length (faces_ st))%nat -> (e < 3)%nat ->
    0 <= coeff (weight_ st)
           (fidx (face_at (faces_ st) f) (fst (edge_map e)))
           (fidx (face_at (faces_ st) f) (snd (edge_map e))).

(** Two states with the same mesh, partition, parameters, weights, system
    matrix and factorization: everything but the per-frame fields. *)
Definition same_setup (a b : Solver) : Prop :=
  vertices_ a = vertices_ b /\ faces_ a = faces_ b /\ fixed_ a = fixed_ b /\
  free_ a = free_ b /\ vertex_info_ a = vertex_info_ b /\
  max_iteration_ a = max_iteration_ b /\ rho_ a = rho_ b /\
  weight_ a = weight_ b /\ M_ a = M_ b /\ solver_ a = solver_ b.

(** The states of a session that starts with Precompute on [st0] and goes on
    with calls of SolvePreprocess and SolveOneIteration that return. *)
Inductive session
    (cholesky_compute : SparseMatrix -> ComputationInfo)
    (cholesky_solve : SparseMatrix -> MatrixXd -> MatrixXd * ComputationInfo)
    (polar_svd3x3 : Matrix3d -> Matrix3d) (st0 : Solver) : Solver -> Prop :=
  | session_precompute st1 :
      Precompute cholesky_compute st0 = Returns st1 ->
      session cholesky_compute cholesky_solve polar_svd3x3 st0 st1
  | session_preprocess st fixed_vertices st' :
      session cholesky_compute cholesky_solve polar_svd3x3 st0 st ->
      SolvePreprocess st fixed_vertices = Returns st' ->
      session cholesky_compute cholesky_solve polar_svd3x3 st0 st'
  | session_iteration st st' :
      session cholesky_compute cholesky_solve polar_svd3x3 st0 st ->
      SolveOneIteration cholesky_solve polar_svd3x3 st = Returns st' ->
      session cholesky_compute cholesky_solve polar_svd3x3 st0 st'.

(** No vertex is both fixed and free. *)
Definition fixed_free_disjoint (st : Solver) : Prop :=
  forall v, In v (fixed_ st) -> ~ In v (free_ st).

(** A factorization that always succeeds. *)
Definition demo_cholesky_compute (M : SparseMatrix) : ComputationInfo := Success.

(** The demo solver after Precompute, and after a SolvePreprocess following
    it. *)
Definition demo_precomputed : Solver :=
  state_of (Precompute demo_cholesky_compute demo_solver).

Definition demo_session_ready : Solver :=
  state_of (SolvePreprocess demo_precomputed [mkV3 (1 / 10) 0 0]).

(** An orthogonal matrix of determinant one, with both products spelled
    out. *)
Definition proper_orthogonal (Q : Matrix3d) : Prop :=
  mmul Q (transpose Q) = Identity /\ mmul (transpose Q) Q = Identity /\
  determinant Q = 1.

(** The state after the rigid motion p -> Q p + t of the deformed mesh: the
    updated positions are moved, R_v and S_v are turned by Q. *)
Definition rigid_motion (st : Solver) (Q : Matrix3d) (t : Vector3d) : Solver :=
  with_S
    (with_rotations
       (with_vertices_updated st
          (map (fun p => vadd (mvmul Q p) t) (vertices_updated_ st)))
       (map (mmul Q) (rotations_ st)))
    (map (mmul Q) (S_ st)).

(** sum over the columns c of X of c^T G c *)
Definition gram_columns (G X : Matrix3d) : R :=
  dot (mcol X 0) (mvmul G (mcol X 0)) + dot (mcol X 1) (mvmul G (mcol X 1))
  + dot (mcol X 2) (mvmul G (mcol X 2)).

(** sum over the rows r of X of r^T G r *)
Definition gram_rows (G X : Matrix3d) : R :=
  dot (mr0 X) (mvmul G (mr0 X)) + dot (mr1 X) (mvmul G (mr1 X))
  + dot (mr2 X) (mvmul G (mr2 X)).

(** A quarter turn about the z axis. *)
Definition demo_quarter_turn : Matrix3d :=
  mkM3 (mkV3 0 (-1) 0) (mkV3 1 0 0) (mkV3 0 0 1).

(** Row [r] of what the rotation constraint of vertex [v] adds to the
    right-hand side: the rows of rho (S_v - T_v)^T at the three rotation
    unknowns of [v]. *)
Definition rhs_rotation_term (st : Solver) (v r : nat) : Vector3d :=
  let m := mscale (rho_ st)
             (transpose (msub (mat_at (S_ st) v) (mat_at (T_ st) v))) in
  if (r =? GetMatrixVariablePos st v 0)%nat then mr0 m
  else if (r =? GetMatrixVariablePos st v 1)%nat then mr1 m
  else if (r =? GetMatrixVariablePos st v 2)%nat then mr2 m
  else vzero.

(** ** The linear solve as a weighted least-squares problem

    The comment of the second method reads the linear system as the normal
    equations of f(x) = sum of w ||A x - b||^2.  A constraint is one term of
    that sum: a weight, a row vector over the unknowns and a target. *)
Record Constraint : Type := mkConstraint {
  c_weight : R;
  c_row : nat -> R;
  c_target : Vector3d
}.

(** [A x] for a row vector [A] over [n] unknowns, each unknown being a row of
    three coordinates. *)
Definition apply_row (n : nat) (u : nat -> R) (x : nat -> Vector3d) : Vector3d :=
  Vsum (map (fun a => vscale (u a) (x a)) (seq 0 n)).

(** [A x - b] *)
Definition c_residual (n : nat) (x : nat -> Vector3d) (k : Constraint) : Vector3d :=
  vsub (apply_row n (c_row k) x) (c_target k).

(** sum of (w / 2) ||A x - b||^2 *)
Definition ls_energy (n : nat) (cs : list Constraint) (x : nat -> Vector3d) : R :=
  Rsum (map (fun k => c_weight k / 2 * squaredNorm (c_residual n x k)) cs).

(** Row [a] of the gradient: sum of w A(a) (A x - b) *)
Definition ls_gradient (n : nat) (cs : list Constraint) (x : nat -> Vector3d)
    (a : nat) : Vector3d :=
  Vsum (map (fun k => vscale (c_weight k * c_row k a) (c_residual n x k)) cs).

(** Entry (a, b) of sum of w A^T A, and row [a] of sum of w A^T b. *)
Definition ls_matrix (cs : list Constraint) (a b : nat) : R :=
  Rsum (map (fun k => c_weight k * c_row k a * c_row k b) cs).

Definition ls_rhs (cs : list Constraint) (a : nat) : Vector3d :=
  Vsum (map (fun k => vscale (c_weight k * c_row k a) (c_target k)) cs).

(** The target [b] of the edge constraint (first, second): what the Fixed
    endpoints contribute, as the second method computes it. *)
Definition edge_target (st : Solver) (first second : nat) : Vector3d :=
  let b := vzero in
  let b := if is_fixed (type (info_at st first))
           then vsub b (row (vertices_updated_ st) first) else b in
  if is_fixed (type (info_at st second))
  then vadd b (row (vertices_updated_ st) second) else b.

Definition edge_constraint (st : Solver) (f e : nat) : Constraint :=
  let first := fidx (face_at (faces_ st) f) (fst (edge_map e)) in
  let second := fidx (face_at (faces_ st) f) (snd (edge_map e)) in
  mkConstraint (2 * coeff (weight_ st) first second)
               (edge_row_form st first second)
               (edge_target st first second).

(** Column [c] of R_v is tied to column [c] of S_v - T_v. *)
Definition rotation_constraint (st : Solver) (v c : nat) : Constraint :=
  mkConstraint (rho_ st)
               (fun a => ind (a =? GetMatrixVariablePos st v c)%nat)
               (mcol (msub (mat_at (S_ st) v) (mat_at (T_ st) v)) c).

Definition solver_constraints (st : Solver) : list Constraint :=
  flat_map (fun f => map (edge_constraint st f) (seq 0 3))
           (seq 0 (length (faces_ st)))
  ++ flat_map (fun v => map (rotation_constraint st v) (seq 0 3))
              (seq 0 (rows (vertices_ st))).

(** The unknowns of the linear solve read off positions and rotations: the
    rows of the free vertices in the order of [free_], then the columns of
    every R_v. *)
Definition unknowns (st : Solver) (V : MatrixXd) (Rs : list Matrix3d) (a : nat)
    : Vector3d :=
  let free_num := length (free_ st) in
  if (a <? free_num)%nat then row V (nth a (free_ st) 0%nat)
  else mcol (mat_at Rs ((a - free_num) / 3)) ((a - free_num) mod 3).

(** Every vertex listed in [free_] is tagged Free. *)
Definition free_typed (st : Solver) : Prop :=
  Forall (fun v => type (info_at st v) = Free) (free_ st).

(** The demo solver, fixed vertex moved, with the System Matrix of its
    weights; and the translated rest pose. *)
Definition demo_assembled : Solver :=
  with_M demo_moved (Precompute_M1 demo_moved).

Definition demo_translated : MatrixXd :=
  [mkV3 (11 / 10) 0 0; mkV3 (1 / 10) 1 0;
   mkV3 1 0 0; mkV3 0 1 0; mkV3 0 0 1;
   mkV3 1 0 0; mkV3 0 1 0; mkV3 0 0 1;
   mkV3 1 0 0; mkV3 0 1 0; mkV3 0 0 1].

(** ** CheckLinearSolve *)

(** [v(j) = x] *)
Definition vset_at (v : Vector3d) (j : nat) (x : R) : Vector3d :=
  match j with
  | O => mkV3 x (vy v) (vz v)
  | S O => mkV3 (vx v) x (vz v)
  | _ => mkV3 (vx v) (vy v) x
  end.

(** [m(i, j)] as an rvalue, [m(i, j) = x], [m(i, j) += x] and [m(i, j) -= x]
    on a dense matrix *)
Definition entry (m : MatrixXd) (i j : nat) : R := vget (row m i) j.

Definition entry_set (m : MatrixXd) (i j : nat) (x : R) : MatrixXd :=
  set_row m i (vset_at (row m i) j x).

Definition entry_add (m : MatrixXd) (i j : nat) (x : R) : MatrixXd :=
  entry_set m i j (entry m i j + x).

Definition entry_sub (m : MatrixXd) (i j : nat) (x : R) : MatrixXd :=
  entry_set m i j (entry m i j - x).

(** [m(i, j) = x] on a 3x3 matrix *)
Definition mset_at (m : Matrix3d) (i j : nat) (x : R) : Matrix3d :=
  match i with
  | O => mkM3 (vset_at (mr0 m) j x) (mr1 m) (mr2 m)
  | S O => mkM3 (mr0 m) (vset_at (mr1 m) j x) (mr2 m)
  | _ => mkM3 (mr0 m) (mr1 m) (vset_at (mr2 m) j x)
  end.

(** [R[v](i, j)] as an rvalue, [R[v](i, j) = x], [+= x] and [-= x] *)
Definition rot_entry (Rs : list Matrix3d) (v i j : nat) : R :=
  mget (mat_at Rs v) i j.

Definition rot_entry_set (Rs : list Matrix3d) (v i j : nat) (x : R)
    : list Matrix3d :=
  vec_set Rs v (mset_at (mat_at Rs v) i j x).

Definition rot_entry_add (Rs : list Matrix3d) (v i j : nat) (x : R)
    : list Matrix3d :=
  rot_entry_set Rs v i j (rot_entry Rs v i j + x).

Definition rot_entry_sub (Rs : list Matrix3d) (v i j : nat) (x : R)
    : list Matrix3d :=
  rot_entry_set Rs v i j (rot_entry Rs v i j - x).

(** Body of the loop that perturbs the free vertices: [None] stands for
    [return false], [Some vertices] for the local copy at the end of the
    body. *)
Definition check_vertex_entry (st : Solver) (optimal_energy delta : R)
    (Rs : list Matrix3d) (vertices : MatrixXd) (i j : nat) : option MatrixXd :=
  let pos := nth i (free_ st) 0%nat in
  let vertices := entry_add vertices pos j delta in
  let perturbed_enrgy := ComputeLinearSolveEnergy st vertices Rs in
  let product := perturbed_enrgy - optimal_energy in
  (* Reset value. *)
  let vertices := entry_set vertices pos j (entry (vertices_updated_ st) pos j) in
  (* Perturb in another direction. *)
  let vertices := entry_sub vertices pos j delta in
  let perturbed_enrgy := ComputeLinearSolveEnergy st vertices Rs in
  let product := product * (perturbed_enrgy - optimal_energy) in
  if Rlt_dec product 0 then None
  else Some (entry_set vertices pos j (entry (vertices_updated_ st) pos j)).

(** Body of the loop that perturbs the rotations. *)
Definition check_rotation_entry (st : Solver) (optimal_energy delta : R)
    (vertices : MatrixXd) (Rs : list Matrix3d) (v i j : nat)
    : option (list Matrix3d) :=
  let Rs := rot_entry_add Rs v i j delta in
  let perturbed_enrgy := ComputeLinearSolveEnergy st vertices Rs in
  let product := perturbed_enrgy - optimal_energy in
  let Rs := rot_entry_set Rs v i j (rot_entry (rotations_ st) v i j) in
  let Rs := rot_entry_sub Rs v i j delta in
  let perturbed_enrgy := ComputeLinearSolveEnergy st vertices Rs in
  let product := product * (perturbed_enrgy - optimal_energy) in
  if Rlt_dec product 0 then None
  else Some (rot_entry_set Rs v i j (rot_entry (rotations_ st) v i j)).

(** A loop body that is skipped once the function has returned. *)
Definition unless_returned {A X} (body : A -> X -> option A)
    (acc : option A) (x : X) : option A :=
  match acc with
  | Some a => body a x
  | None => None
  end.

(** The value CheckLinearSolve returns; what it prints is left out. *)
Definition CheckLinearSolve (st : Solver) : bool :=
  (* Don't pollute the solution! Play with a copy instead. *)
  let vertices := vertices_updated_ st in
  let Rs := rotations_ st in
  let optimal_energy := ComputeLinearSolveEnergy st vertices Rs in
  let free_num := length (free_ st) in
  let cols := 3%nat in
  let delta := 0.001 in
  match
    fold_left (fun acc i =>
                 fold_left (unless_returned
                              (fun vertices j =>
                                 check_vertex_entry st optimal_energy delta Rs
                                                    vertices i j))
                           (seq 0 cols) acc)
              (seq 0 free_num) (Some vertices)
  with
  | None => false
  | Some vertices =>
      (* Perturb the rotations. *)
      let vertex_num := rows (vertices_ st) in
      match
        fold_left (fun acc v =>
                     fold_left (fun acc i =>
                                  fold_left (unless_returned
                                               (fun Rs j =>
                                                  check_rotation_entry st
                                                    optimal_energy delta
                                                    vertices Rs v i j))
                                            (seq 0 3) acc)
                               (seq 0 3) acc)
                  (seq 0 vertex_num) (Some Rs)
      with
      | None => false
      | Some _ => true
      end
  end.

(** A face without obtuse angle and of non-zero area: at each corner the two
    sides make a non-negative dot product. *)
Definition face_non_obtuse (st : Solver) (f : nat) : Prop :=
  let A := corner st f 0 in
  let B := corner st f 1 in
  let C := corner st f 2 in
  triangle_area A B C <> 0 /\
  0 <= dot (vsub B A) (vsub C A) /\
  0 <= dot (vsub C B) (vsub A B) /\
  0 <= dot (vsub A C) (vsub B C).

Definition mesh_non_obtuse (st : Solver) : Prop :=
  forall f, (f < length (faces_ st))%nat -> face_non_obtuse st f.

(** SolveOneIteration with USE_TEST_FUNCTIONS defined: the linear solve is
    followed by CheckLinearSolve, the SVD solve is framed by two calls of
    ComputeSVDSolveEnergy and the test of their values.  Of what the tests
    print only the message before the exit is recorded. *)
Definition SolveOneIteration_tested
    (cholesky_solve : SparseMatrix -> MatrixXd -> MatrixXd * ComputationInfo)
    (polar_svd3x3 : Matrix3d -> Matrix3d) (st : Solver) : outcome :=
  match LinearSolve cholesky_solve st with
  | Exits msg st' => Exits msg st'
  | Returns st =>
      if negb (CheckLinearSolve st) then
        Exits "Iteration terminated due to the linear solve error." st
      else
        let energy_before_svd := ComputeSVDSolveEnergy st in
        let st := SVDSolve polar_svd3x3 st in
        let energy_after_svd := ComputeSVDSolveEnergy st in
        if svd_solve_error energy_before_svd energy_after_svd then
          Exits "Iteration terminated due to the svd solve error." st
        else Returns (UpdateT st)
  end.

(** A solver that answers the translated rest pose. *)
Definition demo_exact_solve (M : SparseMatrix) (rhs : MatrixXd)
    : MatrixXd * ComputationInfo := (demo_translated, Success).

(** ** The residual of the linear system, written out

    ||M x - rhs||^2: the sum, over the rows r of the right-hand side and the
    three coordinates c, of the square of sum_k M(r, k) x(k, c) - rhs(r, c). *)
Definition squared_residual (M : SparseMatrix) (x rhs : MatrixXd) : R :=
  sum_n (rows rhs) (fun r =>
    sum_n 3 (fun c =>
      (sum_n (sp_cols M) (fun k => coeff M r k * vget (row x k) c)
       - vget (row rhs r) c) ^ 2)).

(** A solver that answers the translated rest pose with the first
    coordinate of the first unknown off by [err]. *)
Definition demo_nudged_solve (err : R) (M : SparseMatrix) (rhs : MatrixXd)
    : MatrixXd * ComputationInfo :=
  (add_row demo_translated 0 (mkV3 err 0 0), Success).

(** ** The contract of the closest-rotation kernel, with a tolerance *)













(* ================================================================= *)
(** ** Precompute in binary64

    The same code over the doubles of the machine: every [+], [-], [*], [/]
    and [sqrt] rounds to nearest, as IEEE 754 binary64 does.  Only what
    [Precompute] reads is kept in the state.  A sparse matrix records which
    entries have been written, as Eigen does; [coeff] of an entry never
    written is 0. *)

Record Vector3f : Type := mkV3f { fx : float; fy : float; fz : float }.

Definition MatrixXf : Type := list Vector3f.

Definition row64 (m : MatrixXf) (i : nat) : Vector3f :=
  nth i m (mkV3f 0 0 0).

Definition vget64 (v : Vector3f) (i : nat) : float :=
  match i with
  | O => fx v
  | S O => fy v
  | _ => fz v
  end.

Definition vsub64 (a b : Vector3f) : Vector3f :=
  mkV3f (fx a - fx b) (fy a - fy b) (fz a - fz b).

Definition dot64 (a b : Vector3f) : float :=
  (fx a * fx b + fy a * fy b + fz a * fz b)%float.

Definition cross64 (a b : Vector3f) : Vector3f :=
  mkV3f (fy a * fz b - fz a * fy b)
        (fz a * fx b - fx a * fz b)
        (fx a * fy b - fy a * fx b).

Definition squaredNorm64 (a : Vector3f) : float := dot64 a a.

Definition norm64 (a : Vector3f) : float := PrimFloat.sqrt (squaredNorm64 a).

Record SparseMatrix64 : Type := mkSparse64 {
  sp_rows64 : nat;
  sp_cols64 : nat;
  entry64 : nat -> nat -> option float    (* [None]: never written *)
}.

(** [m.coeff(i, j)] *)
Definition coeff64 (m : SparseMatrix64) (i j : nat) : float :=
  match entry64 m i j with
  | Some x => x
  | None => 0%float
  end.

Definition sp_resize64 (r c : nat) : SparseMatrix64 :=
  mkSparse64 r c (fun _ _ => None).

(** [m.coeffRef(i, j) += x]: the entry is inserted as 0 when it is missing. *)
Definition coeffRef_add64 (m : SparseMatrix64) (i j : nat) (x : float)
    : SparseMatrix64 :=
  mkSparse64 (sp_rows64 m) (sp_cols64 m)
    (fun a b => if at_entry i j a b then Some (coeff64 m a b + x)%float
                else entry64 m a b).

(** [m.coeffRef(i, j) -= x] *)
Definition coeffRef_sub64 (m : SparseMatrix64) (i j : nat) (x : float)
    : SparseMatrix64 :=
  mkSparse64 (sp_rows64 m) (sp_cols64 m)
    (fun a b => if at_entry i j a b then Some (coeff64 m a b - x)%float
                else entry64 m a b).

(** [m.coeffRef(i, j) = x] *)
Definition coeffRef_set64 (m : SparseMatrix64) (i j : nat) (x : float)
    : SparseMatrix64 :=
  mkSparse64 (sp_rows64 m) (sp_cols64 m)
    (fun a b => if at_entry i j a b then Some x else entry64 m a b).

(** [a + b]: an entry present on one side only is added to 0. *)
Definition sp_add64 (a b : SparseMatrix64) : SparseMatrix64 :=
  mkSparse64 (sp_rows64 a) (sp_cols64 a)
    (fun i j =>
       match entry64 a i j, entry64 b i j with
       | Some x, Some y => Some (x + y)%float
       | Some x, None => Some (x + 0)%float
       | None, Some y => Some (0 + y)%float
       | None, None => None
       end).

(** [k * a] *)
Definition sp_scale64 (k : float) (a : SparseMatrix64) : SparseMatrix64 :=
  mkSparse64 (sp_rows64 a) (sp_cols64 a)
    (fun i j => option_map (fun x => (k * x)%float) (entry64 a i j)).

(** [a.transpose()] *)
Definition sp_transpose64 (a : SparseMatrix64) : SparseMatrix64 :=
  mkSparse64 (sp_cols64 a) (sp_rows64 a) (fun i j => entry64 a j i).

(** [a * b]: the products of the entries present on both sides, summed in
    the order of the inner index; the first product is stored, the later
    ones are added to it. *)
Definition sp_mul64 (a b : SparseMatrix64) : SparseMatrix64 :=
  mkSparse64 (sp_rows64 a) (sp_cols64 b)
    (fun i j =>
       fold_left (fun acc k =>
                    match entry64 a i k, entry64 b k j with
                    | Some x, Some y =>
                        match acc with
                        | Some s => Some (s + x * y)%float
                        | None => Some (x * y)%float
                        end
                    | _, _ => acc
                    end)
                 (seq 0 (sp_cols64 a)) None).

Record Solver64 : Type := mkSolver64 {
  vertices64 : MatrixXf;
  faces64 : MatrixXi;
  free64 : list nat;
  vertex_info64 : list VertexInfo;
  rho64 : float;
  weight64 : SparseMatrix64
}.

Definition info_at64 (st : Solver64) (v : nat) : VertexInfo :=
  nth v (vertex_info64 st) (mkInfo Fixed 0).

(** As [GetMatrixVariablePos]. *)
Definition GetMatrixVariablePos64 (st : Solver64) (vertex_id col : nat) : nat :=
  (length (free64 st) + 3 * vertex_id + col)%nat.

Definition with_weight64 (st : Solver64) (w : SparseMatrix64) : Solver64 :=
  mkSolver64 (vertices64 st) (faces64 st) (free64 st) (vertex_info64 st)
    (rho64 st) w.

Definition ComputeCotangent64 (st : Solver64) (face_id : nat) : Vector3f :=
  let A := row64 (vertices64 st) (fidx (face_at (faces64 st) face_id) 0) in
  let B := row64 (vertices64 st) (fidx (face_at (faces64 st) face_id) 1) in
  let C := row64 (vertices64 st) (fidx (face_at (faces64 st) face_id) 2) in
  let a_squared := squaredNorm64 (vsub64 B C) in
  let b_squared := squaredNorm64 (vsub64 C A) in
  let c_squared := squaredNorm64 (vsub64 A B) in
  let area := (norm64 (cross64 (vsub64 B A) (vsub64 C A)) / 2)%float in
  let four_area := (4 * area)%float in
  mkV3f ((b_squared + c_squared - a_squared) / four_area)
        ((c_squared + a_squared - b_squared) / four_area)
        ((a_squared + b_squared - c_squared) / four_area).

Definition weight_vertex_step64 (st : Solver64) (f : nat) (cotangent : Vector3f)
    (w : SparseMatrix64) (i : nat) : SparseMatrix64 :=
  let first := fidx (face_at (faces64 st) f) (fst (index_map i)) in
  let second := fidx (face_at (faces64 st) f) (snd (index_map i)) in
  let half_cot := (vget64 cotangent i / 2)%float in
  let w := coeffRef_add64 w first second half_cot in
  let w := coeffRef_add64 w second first half_cot in
  let w := coeffRef_sub64 w first first half_cot in
  coeffRef_sub64 w second second half_cot.

Definition Precompute_weight64 (st : Solver64) : SparseMatrix64 :=
  let vertex_num := length (vertices64 st) in
  let face_num := length (faces64 st) in
  fold_left (fun w f =>
               fold_left (weight_vertex_step64 st f (ComputeCotangent64 st f))
                         (seq 0 3) w)
            (seq 0 face_num) (sp_resize64 vertex_num vertex_num).

(** First method, as [M1_edge_step]. *)
Definition M1_edge_step64 (st : Solver64) (f : nat) (M : SparseMatrix64) (e : nat)
    : SparseMatrix64 :=
  let free_num := length (free64 st) in
  let first := fidx (face_at (faces64 st) f) (fst (edge_map e)) in
  let second := fidx (face_at (faces64 st) f) (snd (edge_map e)) in
  let first_type := type (info_at64 st first) in
  let second_type := type (info_at64 st second) in
  let first_pos := pos (info_at64 st first) in
  let second_pos := pos (info_at64 st second) in
  let weight := coeff64 (weight64 st) first second in
  let v := vsub64 (row64 (vertices64 st) first) (row64 (vertices64 st) second) in
  let M :=
    if is_free first_type then
      let M := coeffRef_add64 M first_pos first_pos (2 * weight) in
      let M := if is_free second_type
               then coeffRef_sub64 M first_pos second_pos (2 * weight) else M in
      fold_left (fun M i =>
                   coeffRef_sub64 M first_pos (GetMatrixVariablePos64 st first i)
                                  (2 * weight * vget64 v i))
                (seq 0 3) M
    else M in
  let M :=
    if is_free second_type then
      let M := coeffRef_add64 M second_pos second_pos (2 * weight) in
      let M := if is_free first_type
               then coeffRef_sub64 M second_pos first_pos (2 * weight) else M in
      fold_left (fun M i =>
                   coeffRef_add64 M second_pos (GetMatrixVariablePos64 st first i)
                                  (2 * weight * vget64 v i))
                (seq 0 3) M
    else M in
  (* m = v * v.transpose() * weight * 2 *)
  let m i j := (vget64 v i * vget64 v j * weight * 2)%float in
  let M :=
    fold_left (fun M i =>
                 fold_left (fun M j =>
                              coeffRef_add64 M (free_num + 3 * first + i)
                                             (free_num + 3 * first + j) (m i j))
                           (seq 0 3) M)
              (seq 0 3) M in
  let M :=
    if is_free first_type then
      fold_left (fun M i =>
                   let val := (weight * 2 * vget64 v i)%float in
                   coeffRef_sub64 M (GetMatrixVariablePos64 st first i) first_pos val)
                (seq 0 3) M
    else M in
  if is_free second_type then
    fold_left (fun M i =>
                 let val := (weight * 2 * vget64 v i)%float in
                 coeffRef_add64 M (GetMatrixVariablePos64 st first i) second_pos val)
              (seq 0 3) M
  else M.

Definition Precompute_M1_64 (st : Solver64) : SparseMatrix64 :=
  let vertex_num := length (vertices64 st) in
  let face_num := length (faces64 st) in
  let free_num := length (free64 st) in
  let M := sp_resize64 (free_num + 3 * vertex_num) (free_num + 3 * vertex_num) in
  let M := fold_left (fun M i => coeffRef_add64 M i i (rho64 st))
                     (seq free_num (3 * vertex_num)) M in
  fold_left (fun M f => fold_left (M1_edge_step64 st f) (seq 0 3) M)
            (seq 0 face_num) M.

(** Second method, as [edge_row], [M2_edge_step], [rotation_rows] and
    [M2_rotation_step]. *)
Definition edge_row64 (st : Solver64) (f e : nat) : SparseMatrix64 :=
  let vertex_num := length (vertices64 st) in
  let free_num := length (free64 st) in
  let first := fidx (face_at (faces64 st) f) (fst (edge_map e)) in
  let second := fidx (face_at (faces64 st) f) (snd (edge_map e)) in
  let first_type := type (info_at64 st first) in
  let second_type := type (info_at64 st second) in
  let v := vsub64 (row64 (vertices64 st) first) (row64 (vertices64 st) second) in
  let A := sp_resize64 1 (free_num + 3 * vertex_num) in
  let A := if is_free first_type
           then coeffRef_set64 A 0 (pos (info_at64 st first)) 1 else A in
  let A := if is_free second_type
           then coeffRef_set64 A 0 (pos (info_at64 st second)) (-1) else A in
  let A := coeffRef_set64 A 0 (GetMatrixVariablePos64 st first 0) (- vget64 v 0) in
  let A := coeffRef_set64 A 0 (GetMatrixVariablePos64 st first 1) (- vget64 v 1) in
  coeffRef_set64 A 0 (GetMatrixVariablePos64 st first 2) (- vget64 v 2).

Definition M2_edge_step64 (st : Solver64) (f : nat) (M : SparseMatrix64) (e : nat)
    : SparseMatrix64 :=
  let first := fidx (face_at (faces64 st) f) (fst (edge_map e)) in
  let second := fidx (face_at (faces64 st) f) (snd (edge_map e)) in
  let weight := coeff64 (weight64 st) first second in
  let A := edge_row64 st f e in
  (* M_ = M_ + 2 * weight * A.transpose() * A *)
  sp_add64 M (sp_mul64 (sp_scale64 (2 * weight) (sp_transpose64 A)) A).

Definition rotation_rows64 (st : Solver64) (v : nat) : SparseMatrix64 :=
  let vertex_num := length (vertices64 st) in
  let free_num := length (free64 st) in
  let A := sp_resize64 3 (free_num + 3 * vertex_num) in
  let A := coeffRef_set64 A 0 (GetMatrixVariablePos64 st v 0) 1 in
  let A := coeffRef_set64 A 1 (GetMatrixVariablePos64 st v 1) 1 in
  coeffRef_set64 A 2 (GetMatrixVariablePos64 st v 2) 1.

Definition M2_rotation_step64 (st : Solver64) (M : SparseMatrix64) (v : nat)
    : SparseMatrix64 :=
  let A := rotation_rows64 st v in
  (* M_ = M_ + rho_ * A.transpose() * A *)
  sp_add64 M (sp_mul64 (sp_scale64 (rho64 st) (sp_transpose64 A)) A).

Definition Precompute_M2_64 (st : Solver64) : SparseMatrix64 :=
  let vertex_num := length (vertices64 st) in
  let face_num := length (faces64 st) in
  let free_num := length (free64 st) in
  let M := sp_resize64 (free_num + 3 * vertex_num) (free_num + 3 * vertex_num) in
  let M := fold_left (fun M f => fold_left (M2_edge_step64 st f) (seq 0 3) M)
                     (seq 0 face_num) M in
  fold_left (M2_rotation_step64 st) (seq 0 vertex_num) M.

(** The real number a finite double stands for (0 for the others). *)
Definition B2R (x : float) : R :=
  match Prim2SF x with
  | S754_finite s m e =>
      (if s then -1 else 1) * IZR (Zpos m) * powerRZ 2 e
  | _ => 0
  end.

(** Two right-angled triangles side by side, with legs of 4096 and
    4096 * sqrt 2; vertex 0 is held, rho is the double nearest to 0.01. *)
Definition wide_quad64 : Solver64 :=
  mkSolver64
    [mkV3f 0 0 0; mkV3f 4096 0 0; mkV3f 4096 4096 0; mkV3f 0 8192 0]
    [mkFace 0 1 2; mkFace 0 2 3] [1%nat; 2%nat; 3%nat]
    [mkInfo Fixed 0; mkInfo Free 0; mkInfo Free 1; mkInfo Free 2]
    0x1.47ae147ae147bp-7
    (sp_resize64 4 4).

Definition wide_quad64_weighted : Solver64 :=
  with_weight64 wide_quad64 (Precompute_weight64 wide_quad64).

(** What C1 asks of the two assemblies, read on the doubles they hold. *)
Definition methods_agree64 (st : Solver64) : Prop :=
  forall i j,
    Rabs (B2R (coeff64 (Precompute_M1_64 st) i j)
          - B2R (coeff64 (Precompute_M2_64 st) i j)) < 1e-9.

(** The same mesh over the reals, with rho = 1/100. *)
Definition wide_quad : Solver :=
  mkSolver [mkV3 0 0 0; mkV3 4096 0 0; mkV3 4096 4096 0; mkV3 0 8192 0]
    [mkFace 0 1 2; mkFace 0 2 3] [0%nat] [1%nat; 2%nat; 3%nat]
    [mkInfo Fixed 0; mkInfo Free 0; mkInfo Free 1; mkInfo Free 2]
    50 (1 / 100) (sp_resize 4 4) (sp_resize 15 15) (sp_resize 15 15)
    [] [] [] [] [].

Definition wide_quad_weighted : Solver :=
  with_weight wide_quad (Precompute_weight wide_quad).

(** A mesh with a face that names vertex 0 twice. *)
Definition folded64 : Solver64 :=
  mkSolver64
    [mkV3f 0 0 0; mkV3f 1 0 0; mkV3f 0 1 0]
    [mkFace 0 0 1] [1%nat; 2%nat]
    [mkInfo Fixed 0; mkInfo Free 0; mkInfo Free 1]
    1
    (sp_resize64 3 3).

(* ================================================================= *)
(** * Proofs *)

Ltac vec_unfold :=
  unfold sqdist, norm, squaredNorm, cross, dot, vsub, vadd, vscale, vzero in *;
  simpl in *.

Section CotangentProofs.

Lemma squaredNorm_nonneg v : 0 <= squaredNorm v.
Proof. destruct v as [x y z]; vec_unfold; nra. Qed.

Lemma lagrange_identity u v :
  squaredNorm (cross u v) = squaredNorm u * squaredNorm v - dot u v * dot u v.
Proof. destruct u, v; vec_unfold; ring. Qed.

Lemma polarization P Q1 Q2 :
  2 * dot (vsub Q1 P) (vsub Q2 P) = sqdist P Q1 + sqdist P Q2 - sqdist Q1 Q2.
Proof. destruct P, Q1, Q2; vec_unfold; ring. Qed.

Lemma sqdist_sym P Q : sqdist P Q = sqdist Q P.
Proof. destruct P, Q; vec_unfold; ring. Qed.

(** The cross products taken at the three corners have the same norm. *)
Lemma cross_norm_rotate A B C :
  norm (cross (vsub C B) (vsub A B)) = norm (cross (vsub B A) (vsub C A)).
Proof.
  unfold norm; f_equal. destruct A, B, C; vec_unfold; ring.
Qed.

Lemma cotangent_formula_angle P Q1 Q2 :
  cotangent_formula P Q1 Q2 (triangle_area P Q1 Q2) = cotangent_angle P Q1 Q2.
Proof.
  unfold cotangent_formula, cotangent_angle, triangle_area.
  rewrite <- polarization.
  set (d := dot _ _). set (n := norm _).
  destruct (Req_dec n 0) as [Hz | Hnz].
  - rewrite Hz. unfold Rdiv. replace (4 * (0 * / 2)) with 0 by lra.
    rewrite Rinv_0. ring.
  - field. exact Hnz.
Qed.

Lemma triangle_area_rotate A B C : triangle_area B C A = triangle_area A B C.
Proof. unfold triangle_area. now rewrite cross_norm_rotate. Qed.

Lemma ComputeCotangent_entries st f :
  let A := corner st f 0 in
  let B := corner st f 1 in
  let C := corner st f 2 in
  ComputeCotangent st f =
  mkV3 (cotangent_formula A B C (triangle_area A B C))
       (cotangent_formula B C A (triangle_area A B C))
       (cotangent_formula C A B (triangle_area A B C)).
Proof.
  intros A B C. unfold ComputeCotangent, cotangent_formula, triangle_area.
  fold (corner st f 0) (corner st f 1) (corner st f 2). fold A B C.
  f_equal; f_equal; unfold sqdist;
    destruct A, B, C; unfold squaredNorm, dot, vsub; simpl; ring.
Qed.

Lemma equilateral_area A B C :
  sqdist B C = 1 -> sqdist C A = 1 -> sqdist A B = 1 ->
  4 * triangle_area A B C = sqrt 3.
Proof.
  intros Ha Hb Hc. unfold triangle_area, norm.
  assert (Hd : 2 * dot (vsub B A) (vsub C A) = 1).
  { rewrite polarization. rewrite (sqdist_sym A C). lra. }
  assert (Hn : squaredNorm (cross (vsub B A) (vsub C A)) = 3 / 4).
  { rewrite lagrange_identity.
    fold (sqdist B A) (sqdist C A). rewrite (sqdist_sym B A). nra. }
  rewrite Hn.
  assert (Hs : sqrt (3 / 4) = sqrt 3 / 2).
  { apply sqrt_lem_1; try lra.
    - assert (0 <= sqrt 3) by apply sqrt_pos. lra.
    - assert (sqrt 3 * sqrt 3 = 3) by (apply sqrt_sqrt; lra). nra. }
  rewrite Hs. lra.
Qed.

(** C6: for a non-degenerate face, each entry of ComputeCotangent is
    (sum of the two adjacent squared edges - opposite squared edge) over
    four times the triangle area, the area being half the cross-product
    norm; this value is the cotangent of the angle at that corner; and when
    the three sides have length one, every entry is 1/sqrt 3. *)
Theorem ComputeCotangent_correct (st : Solver) (f : nat) :
  let A := corner st f 0 in
  let B := corner st f 1 in
  let C := corner st f 2 in
  triangle_area A B C <> 0 ->
  ComputeCotangent st f =
    mkV3 (cotangent_formula A B C (triangle_area A B C))
         (cotangent_formula B C A (triangle_area A B C))
         (cotangent_formula C A B (triangle_area A B C)) /\
  ComputeCotangent st f =
    mkV3 (cotangent_angle A B C) (cotangent_angle B C A) (cotangent_angle C A B) /\
  (sqdist B C = 1 -> sqdist C A = 1 -> sqdist A B = 1 ->
   ComputeCotangent st f = mkV3 (1 / sqrt 3) (1 / sqrt 3) (1 / sqrt 3)).
Proof.
  intros A B C Hnd.
  pose proof (ComputeCotangent_entries st f) as He. cbv zeta in He.
  fold A B C in He.
  split; [exact He|]. split.
  - rewrite He. f_equal.
    + apply cotangent_formula_angle.
    + rewrite <- (triangle_area_rotate A B C). apply cotangent_formula_angle.
    + rewrite <- (triangle_area_rotate A B C), <- (triangle_area_rotate B C A).
      apply cotangent_formula_angle.
  - intros Ha Hb Hc. rewrite He. unfold cotangent_formula.
    rewrite (equilateral_area Ha Hb Hc).
    rewrite (sqdist_sym A C), (sqdist_sym B A), (sqdist_sym C B).
    rewrite Ha, Hb, Hc. f_equal; f_equal; lra.
Qed.

End CotangentProofs.

(* ================================================================= *)
(** ** Sums, folds and sparse updates *)

Section SumLemmas.

Lemma Rsum_app l1 l2 : Rsum (l1 ++ l2) = Rsum l1 + Rsum l2.
Proof. induction l1; simpl; [ring | rewrite IHl1; ring]. Qed.

Lemma Rsum_map_ext {X} (f g : X -> R) l :
  (forall x, In x l -> f x = g x) -> Rsum (map f l) = Rsum (map g l).
Proof.
  induction l; simpl; intros H; [reflexivity|].
  rewrite H by now left. rewrite IHl; [reflexivity|].
  intros; apply H; now right.
Qed.

Lemma Rsum_map_plus {X} (f g : X -> R) l :
  Rsum (map (fun x => f x + g x) l) = Rsum (map f l) + Rsum (map g l).
Proof. induction l; simpl; [ring | rewrite IHl; ring]. Qed.

Lemma Rsum_map_minus {X} (f g : X -> R) l :
  Rsum (map (fun x => f x - g x) l) = Rsum (map f l) - Rsum (map g l).
Proof. induction l; simpl; [ring | rewrite IHl; ring]. Qed.

Lemma Rsum_map_zero {X} (l : list X) : Rsum (map (fun _ => 0) l) = 0.
Proof. induction l; simpl; [reflexivity | rewrite IHl; ring]. Qed.

Lemma sum_n_ext n f g :
  (forall k, (k < n)%nat -> f k = g k) -> sum_n n f = sum_n n g.
Proof.
  intros H. apply Rsum_map_ext. intros x Hx. apply in_seq in Hx.
  apply H. lia.
Qed.

(** A sum that picks one index of the range. *)
Lemma Rsum_pick x c l :
  NoDup l -> In c l ->
  Rsum (map (fun b => if (b =? c)%nat then x else 0) l) = x.
Proof.
  induction l as [|h t IH]; simpl; intros Hnd Hin; [contradiction|].
  inversion Hnd as [|? ? Hnot Hnd']; subst.
  destruct (Nat.eqb_spec h c) as [->|Hne].
  - rewrite (@Rsum_map_ext _ _ (fun _ => 0)).
    + rewrite Rsum_map_zero. ring.
    + intros y Hy. destruct (Nat.eqb_spec y c); [subst; contradiction | reflexivity].
  - destruct Hin as [->|Hin]; [contradiction|]. rewrite IH by assumption. ring.
Qed.

Lemma sum_n_pick n x c :
  (c < n)%nat -> sum_n n (fun b => if (b =? c)%nat then x else 0) = x.
Proof.
  intros H. apply Rsum_pick; [apply seq_NoDup | apply in_seq; lia].
Qed.

(** A property kept by every step is kept by the loop. *)
Lemma fold_left_invariant {A X} (P : A -> Prop) (step : A -> X -> A) l :
  (forall a x, In x l -> P a -> P (step a x)) ->
  forall a, P a -> P (fold_left step l a).
Proof.
  induction l as [|h t IH]; simpl; intros Hs a Ha; [exact Ha|].
  apply IH; [intros; apply Hs; auto | apply Hs; auto].
Qed.

(** A loop whose every step adds [delta x] to a measure adds their sum. *)
Lemma fold_left_measure {A X} (mu : A -> R) (step : A -> X -> A)
    (delta : X -> R) l :
  (forall a x, In x l -> mu (step a x) = mu a + delta x) ->
  forall a, mu (fold_left step l a) = mu a + Rsum (map delta l).
Proof.
  induction l as [|h t IH]; simpl; intros Hs a; [ring|].
  rewrite IH by (intros; apply Hs; auto).
  rewrite Hs by auto. ring.
Qed.

End SumLemmas.

(* ================================================================= *)
(** ** The Weight Matrix *)

Section WeightProofs.

Variable st : Solver.

Lemma face_at_in_range f k :
  faces_in_range st -> (f < length (faces_ st))%nat ->
  (fidx (face_at (faces_ st) f) k < rows (vertices_ st))%nat.
Proof.
  intros Hr Hf. unfold faces_in_range in Hr. rewrite Forall_forall in Hr.
  specialize (Hr (face_at (faces_ st) f) (nth_In _ _ Hf)).
  destruct k as [|[|k]]; simpl; tauto.
Qed.

Lemma weight_vertex_step_coeff f cot w k a b :
  let first := fidx (face_at (faces_ st) f) (fst (index_map k)) in
  let second := fidx (face_at (faces_ st) f) (snd (index_map k)) in
  let h := vget cot k / 2 in
  coeff (weight_vertex_step st f cot w k) a b =
  coeff w a b
  + ((if at_entry first second a b then h else 0)
     + (if at_entry second first a b then h else 0)
     - (if at_entry first first a b then h else 0)
     - (if at_entry second second a b then h else 0)).
Proof.
  intros first second h. unfold weight_vertex_step. simpl.
  fold first second h.
  destruct (at_entry first second a b), (at_entry second first a b),
    (at_entry first first a b), (at_entry second second a b); ring.
Qed.

Lemma at_entry_swap i j a b : at_entry i j a b = at_entry j i b a.
Proof. unfold at_entry. apply andb_comm. Qed.

Lemma weight_vertex_step_sym f cot w k :
  (forall a b, coeff w a b = coeff w b a) ->
  forall a b, coeff (weight_vertex_step st f cot w k) a b =
              coeff (weight_vertex_step st f cot w k) b a.
Proof.
  intros Hw a b. rewrite !weight_vertex_step_coeff. cbv zeta.
  rewrite (Hw a b).
  rewrite (at_entry_swap _ _ a b).
  rewrite (at_entry_swap (fidx _ (snd (index_map k))) (fidx _ (fst (index_map k))) a b).
  rewrite (at_entry_swap (fidx _ (fst (index_map k))) (fidx _ (fst (index_map k))) a b).
  rewrite (at_entry_swap (fidx _ (snd (index_map k))) (fidx _ (snd (index_map k))) a b).
  ring.
Qed.

Lemma Precompute_weight_symmetric a b :
  coeff (Precompute_weight st) a b = coeff (Precompute_weight st) b a.
Proof.
  revert a b. unfold Precompute_weight.
  apply fold_left_invariant with (P := fun w => forall a b, coeff w a b = coeff w b a).
  - intros w f _ Hw. unfold weight_face_step.
    apply fold_left_invariant
      with (P := fun w => forall a b, coeff w a b = coeff w b a); auto.
    intros; now apply weight_vertex_step_sym.
  - reflexivity.
Qed.

Lemma sum_n_at_entry n i j a h :
  (j < n)%nat ->
  sum_n n (fun b => if at_entry i j a b then h else 0) =
  if (a =? i)%nat then h else 0.
Proof.
  intros Hj. unfold at_entry. destruct (a =? i)%nat; simpl.
  - now apply sum_n_pick.
  - apply Rsum_map_zero.
Qed.

Lemma weight_vertex_step_rowsum f cot w k a :
  faces_in_range st -> (f < length (faces_ st))%nat ->
  sum_n (rows (vertices_ st)) (fun b => coeff (weight_vertex_step st f cot w k) a b)
  = sum_n (rows (vertices_ st)) (fun b => coeff w a b).
Proof.
  intros Hr Hf.
  rewrite (@sum_n_ext _ _ _ (fun b _ => weight_vertex_step_coeff f cot w k a b)).
  cbv zeta. unfold sum_n.
  rewrite Rsum_map_plus, !Rsum_map_minus, Rsum_map_plus.
  fold (sum_n (rows (vertices_ st))
          (fun b => if at_entry (fidx (face_at (faces_ st) f) (fst (index_map k)))
                                (fidx (face_at (faces_ st) f) (snd (index_map k))) a b
                    then vget cot k / 2 else 0)).
  unfold Rsum at 2 3 4 5.
  repeat match goal with
  | |- context [fold_right Rplus 0 (map ?g (seq 0 ?n))] =>
      change (fold_right Rplus 0 (map g (seq 0 n))) with (sum_n n g)
  end.
  rewrite !sum_n_at_entry by (apply face_at_in_range; assumption).
  unfold sum_n. change (fun b => coeff w a b) with (coeff w a).
  destruct (a =? _)%nat, (a =? _)%nat; ring.
Qed.

End WeightProofs.

Section WeightLaplacian.

Variable st : Solver.

Lemma Precompute_weight_rowsum a :
  faces_in_range st ->
  sum_n (rows (vertices_ st)) (fun b => coeff (Precompute_weight st) a b) = 0.
Proof.
  intros Hr. revert a. unfold Precompute_weight.
  apply fold_left_invariant
    with (P := fun w => forall a, sum_n (rows (vertices_ st)) (fun b => coeff w a b) = 0).
  - intros w f Hf Hw. apply in_seq in Hf. unfold weight_face_step.
    apply fold_left_invariant
      with (P := fun w => forall a, sum_n (rows (vertices_ st)) (fun b => coeff w a b) = 0);
      [|exact Hw].
    intros w' k _ Hw' a. rewrite weight_vertex_step_rowsum by (auto; lia).
    apply Hw'.
  - intros a. simpl. apply Rsum_map_zero.
Qed.

Lemma Precompute_weight_diagonal i :
  faces_in_range st -> (i < rows (vertices_ st))%nat ->
  coeff (Precompute_weight st) i i =
  - sum_n (rows (vertices_ st))
      (fun j => if (j =? i)%nat then 0 else coeff (Precompute_weight st) i j).
Proof.
  intros Hr Hi. pose proof (Precompute_weight_rowsum i Hr) as Hs.
  set (W := Precompute_weight st) in *.
  rewrite (@sum_n_ext _ _
             (fun j => (if (j =? i)%nat then coeff W i i else 0)
                       + (if (j =? i)%nat then 0 else coeff W i j))) in Hs.
  - unfold sum_n in Hs. rewrite Rsum_map_plus in Hs.
    fold (sum_n (rows (vertices_ st))
            (fun j => if (j =? i)%nat then coeff W i i else 0)) in Hs.
    rewrite sum_n_pick in Hs by assumption.
    unfold sum_n. lra.
  - intros j _. destruct (Nat.eqb_spec j i); [subst; ring | ring].
Qed.

Lemma weight_vertex_step_offdiag f cot w k a b :
  a <> b ->
  coeff (weight_vertex_step st f cot w k) a b =
  coeff w a b + (if index_map_routes st f k a b then vget cot k / 2 else 0).
Proof.
  intros Hab. rewrite weight_vertex_step_coeff. cbv zeta. unfold index_map_routes, at_entry.
  set (first := fidx _ (fst _)). set (second := fidx _ (snd _)).
  destruct (Nat.eqb_spec a first), (Nat.eqb_spec b second),
    (Nat.eqb_spec a second), (Nat.eqb_spec b first);
    simpl; try ring; exfalso; congruence.
Qed.

Lemma Precompute_weight_offdiag a b :
  a <> b ->
  coeff (Precompute_weight st) a b =
  sum_n (length (faces_ st))
    (fun f => sum_n 3 (fun k => if index_map_routes st f k a b
                                then vget (ComputeCotangent st f) k / 2 else 0)).
Proof.
  intros Hab. unfold Precompute_weight.
  rewrite (@fold_left_measure _ _ (fun w => coeff w a b) (weight_face_step st)
             (fun f => sum_n 3 (fun k => if index_map_routes st f k a b
                                         then vget (ComputeCotangent st f) k / 2
                                         else 0))).
  - simpl. unfold sum_n. ring.
  - intros w f _. unfold weight_face_step.
    apply (@fold_left_measure _ _ (fun w => coeff w a b)).
    intros w' k _. now apply weight_vertex_step_offdiag.
Qed.

(** The entries the loop body writes for a corner are those of the edge
    opposite to the corner. *)
Lemma index_map_routes_opposite f k i j :
  (k < 3)%nat ->
  index_map_routes st f k i j =
  opposite_edge_joins (face_at (faces_ st) f) k i j.
Proof.
  intros Hk. unfold index_map_routes, opposite_edge_joins, at_entry.
  destruct k as [|[|[|k]]]; [| | |lia];
    cbn [index_map fst snd other_corners filter Nat.eqb negb map fidx];
    [reflexivity | apply orb_comm | reflexivity].
Qed.

(** C5: the Weight Matrix built by Precompute is symmetric; every diagonal
    entry is the negated sum of the off-diagonal entries of its row; and
    each face contributes its three half-cotangents to its three edges: an
    off-diagonal entry (i, j) is the sum, over the faces and their three
    corners, of half the corner's cotangent whenever the side of the face
    opposite to the corner joins i and j. *)
Theorem Precompute_weight_laplacian :
  let W := Precompute_weight st in
  (forall i j, coeff W i j = coeff W j i) /\
  (forall i, faces_in_range st -> (i < rows (vertices_ st))%nat ->
     coeff W i i =
     - sum_n (rows (vertices_ st)) (fun j => if (j =? i)%nat then 0 else coeff W i j)) /\
  (forall i j, i <> j ->
     coeff W i j =
     sum_n (length (faces_ st))
       (fun f => sum_n 3 (fun k =>
          if opposite_edge_joins (face_at (faces_ st) f) k i j
          then vget (ComputeCotangent st f) k / 2 else 0))).
Proof.
  intros W. split; [|split].
  - apply Precompute_weight_symmetric.
  - intros i Hr Hi. now apply Precompute_weight_diagonal.
  - intros i j Hij. unfold W. rewrite Precompute_weight_offdiag by exact Hij.
    apply sum_n_ext. intros f _. apply sum_n_ext. intros k Hk.
    now rewrite index_map_routes_opposite.
Qed.

End WeightLaplacian.

(* ================================================================= *)
(** ** Dense rows *)

Section DenseLemmas.

Lemma set_row_length m i v : length (set_row m i v) = length m.
Proof.
  revert i; induction m as [|h t IH]; intros [|i]; simpl; auto.
Qed.

Lemma row_set_row_same m i v :
  (i < length m)%nat -> row (set_row m i v) i = v.
Proof.
  unfold row. revert i; induction m as [|h t IH]; intros [|i]; simpl; intros H;
    try lia; auto. apply IH. lia.
Qed.

Lemma row_set_row_other m i j v :
  i <> j -> row (set_row m i v) j = row m j.
Proof.
  unfold row. revert i j; induction m as [|h t IH]; intros [|i] [|j]; simpl;
    intros H; try congruence; auto.
Qed.

Lemma row_set_row m i j v :
  row (set_row m i v) j =
  if ((j =? i) && (i <? length m))%nat then v else row m j.
Proof.
  destruct (Nat.eqb_spec j i) as [->|Hne]; simpl.
  - destruct (Nat.ltb_spec i (length m)).
    + now apply row_set_row_same.
    + unfold row. rewrite !nth_overflow; auto. rewrite set_row_length. lia.
  - apply row_set_row_other. congruence.
Qed.

Lemma vec_set_length l i x : length (vec_set l i x) = length l.
Proof.
  revert i; induction l as [|h t IH]; intros [|i]; simpl; auto.
Qed.

Lemma mat_at_vec_set l i j x :
  mat_at (vec_set l i x) j =
  if ((j =? i) && (i <? length l))%nat then x else mat_at l j.
Proof.
  unfold mat_at. revert i j; induction l as [|h t IH]; intros [|i] [|j]; simpl;
    auto.
  destruct (j =? i)%nat; reflexivity.
Qed.

Lemma mat_at_repeat x n v : (v < n)%nat -> mat_at (repeat x n) v = x.
Proof.
  unfold mat_at. intros H. apply nth_repeat_lt. exact H.
Qed.

End DenseLemmas.

(* ================================================================= *)
(** ** SolvePreprocess *)

Section PreprocessProofs.

Lemma with_vertices_updated_same st :
  with_vertices_updated st (vertices_updated_ st) = st.
Proof. destruct st; reflexivity. Qed.

Lemma preprocess_loop l st :
  fold_left (fun st i =>
               let pos := nth i (fixed_ st) 0%nat in
               with_vertices_updated st
                 (set_row (vertices_updated_ st) pos (row (fixed_vertices_ st) i)))
            l st =
  with_vertices_updated st
    (fold_left (fun m i => set_row m (nth i (fixed_ st) 0%nat)
                                   (row (fixed_vertices_ st) i))
               l (vertices_updated_ st)).
Proof.
  revert st; induction l as [|h t IH]; intros st; simpl.
  - symmetry; apply with_vertices_updated_same.
  - rewrite IH. reflexivity.
Qed.

Lemma enforce_fixed_length fixed targets m k :
  length (enforce_fixed fixed targets m k) = length m.
Proof.
  unfold enforce_fixed.
  apply fold_left_invariant with (P := fun x => length x = length m); auto.
  intros a x _ Ha. now rewrite set_row_length.
Qed.

Lemma enforce_fixed_S fixed targets m k :
  enforce_fixed fixed targets m (S k) =
  set_row (enforce_fixed fixed targets m k) (nth k fixed 0%nat) (row targets k).
Proof.
  unfold enforce_fixed. rewrite seq_S, fold_left_app. reflexivity.
Qed.

Lemma enforce_fixed_target fixed targets m k i :
  NoDup fixed -> Forall (fun v => (v < length m)%nat) fixed ->
  (k <= length fixed)%nat -> (i < k)%nat ->
  row (enforce_fixed fixed targets m k) (nth i fixed 0%nat) = row targets i.
Proof.
  intros Hnd Hr. induction k as [|k IH]; intros Hk Hi; [lia|].
  rewrite enforce_fixed_S.
  destruct (Nat.eq_dec i k) as [->|Hne].
  - apply row_set_row_same. rewrite enforce_fixed_length.
    rewrite Forall_forall in Hr. apply Hr, nth_In. lia.
  - rewrite row_set_row_other; [apply IH; lia|].
    intros Heq. apply Hne. symmetry.
    apply (proj1 (NoDup_nth fixed 0%nat) Hnd); [lia | lia | congruence].
Qed.

Lemma enforce_fixed_other fixed targets m k v :
  ~ In v fixed -> (k <= length fixed)%nat ->
  row (enforce_fixed fixed targets m k) v = row m v.
Proof.
  intros Hv. induction k as [|k IH]; intros Hk; [reflexivity|].
  rewrite enforce_fixed_S, row_set_row_other; [apply IH; lia|].
  intros Heq. apply Hv. rewrite <- Heq. apply nth_In. lia.
Qed.

(** What a call with a matrix of the right height returns. *)
Lemma SolvePreprocess_returns st fixed_vertices :
  rows fixed_vertices = length (fixed_ st) ->
  SolvePreprocess st fixed_vertices =
  Returns
    (mkSolver (vertices_ st) (faces_ st) (fixed_ st) (free_ st) (vertex_info_ st)
       (max_iteration_ st) (rho_ st) (weight_ st) (M_ st) (solver_ st)
       fixed_vertices
       (enforce_fixed (fixed_ st) fixed_vertices (vertices_ st) (length (fixed_ st)))
       (repeat Identity (rows (vertices_ st)))
       (repeat Identity (rows (vertices_ st)))
       (repeat Zero (rows (vertices_ st)))).
Proof.
  intros Hrows. unfold SolvePreprocess.
  cbn [fixed_ fixed_vertices_ with_fixed_vertices].
  rewrite Hrows, Nat.eqb_refl. cbn [negb].
  rewrite preprocess_loop. reflexivity.
Qed.

Lemma SolvePreprocess_exits st fixed_vertices :
  rows fixed_vertices <> length (fixed_ st) ->
  SolvePreprocess st fixed_vertices =
  Exits "Wrong dimension in fixed number." (with_fixed_vertices st fixed_vertices).
Proof.
  intros Hrows. unfold SolvePreprocess.
  cbn [fixed_ fixed_vertices_ with_fixed_vertices].
  destruct (Nat.eqb_spec (length (fixed_ st)) (rows fixed_vertices)) as [E|E];
    [congruence | reflexivity].
Qed.

Lemma SolvePreprocess_Returns_inv st fixed_vertices st' :
  SolvePreprocess st fixed_vertices = Returns st' ->
  rows fixed_vertices = length (fixed_ st).
Proof.
  intros H. destruct (Nat.eq_dec (rows fixed_vertices) (length (fixed_ st)));
    [assumption|].
  rewrite SolvePreprocess_exits in H by assumption. discriminate.
Qed.

(** C7: after a successful SolvePreprocess every fixed vertex sits at its
    target row, every other vertex at its rest position, every R_v and S_v
    is the identity and every T_v is zero. *)
Theorem SolvePreprocess_seeds (st : Solver) (fixed_vertices : MatrixXd)
    (st' : Solver) :
  fixed_wf st ->
  SolvePreprocess st fixed_vertices = Returns st' ->
  (forall i, (i < length (fixed_ st))%nat ->
     row (vertices_updated_ st') (nth i (fixed_ st) 0%nat) = row fixed_vertices i) /\
  (forall v, ~ In v (fixed_ st) ->
     row (vertices_updated_ st') v = row (vertices_ st) v) /\
  rows (vertices_updated_ st') = rows (vertices_ st) /\
  length (rotations_ st') = rows (vertices_ st) /\
  length (S_ st') = rows (vertices_ st) /\
  length (T_ st') = rows (vertices_ st) /\
  (forall v, (v < rows (vertices_ st))%nat ->
     mat_at (rotations_ st') v = Identity /\
     mat_at (S_ st') v = Identity /\
     mat_at (T_ st') v = Zero).
Proof.
  intros [Hnd Hr] Hret.
  pose proof (SolvePreprocess_Returns_inv _ _ Hret) as Hrows.
  rewrite (SolvePreprocess_returns _ _ Hrows) in Hret.
  injection Hret as <-. cbn [vertices_updated_ rotations_ S_ T_].
  repeat split.
  - intros i Hi. now apply enforce_fixed_target.
  - intros v Hv. now apply enforce_fixed_other.
  - apply enforce_fixed_length.
  - apply repeat_length.
  - apply repeat_length.
  - apply repeat_length.
  - now apply mat_at_repeat.
  - now apply mat_at_repeat.
  - now apply mat_at_repeat.
Qed.

(** C9: a target matrix whose row count differs from the number of fixed
    vertices makes SolvePreprocess terminate the process, and only such a
    matrix does. *)
Theorem SolvePreprocess_dimension_check (st : Solver) (fixed_vertices : MatrixXd) :
  (rows fixed_vertices <> length (fixed_ st) ->
   exists st', SolvePreprocess st fixed_vertices =
               Exits "Wrong dimension in fixed number." st') /\
  (rows fixed_vertices = length (fixed_ st) ->
   exists st', SolvePreprocess st fixed_vertices = Returns st').
Proof.
  split; intros H.
  - eexists. now apply SolvePreprocess_exits.
  - eexists. now apply SolvePreprocess_returns.
Qed.

(** C10: the targets are cached before the row count is checked: at a failed
    check the cached targets are the new ones while the updated positions,
    R, S and T are untouched; a successful call changes no field other
    than these five. *)
Theorem SolvePreprocess_frame (st : Solver) (fixed_vertices : MatrixXd) :
  (rows fixed_vertices <> length (fixed_ st) ->
   exists msg st',
     SolvePreprocess st fixed_vertices = Exits msg st' /\
     fixed_vertices_ st' = fixed_vertices /\
     vertices_updated_ st' = vertices_updated_ st /\
     rotations_ st' = rotations_ st /\ S_ st' = S_ st /\ T_ st' = T_ st) /\
  (forall st', SolvePreprocess st fixed_vertices = Returns st' ->
     fixed_vertices_ st' = fixed_vertices /\
     vertices_ st' = vertices_ st /\ faces_ st' = faces_ st /\
     fixed_ st' = fixed_ st /\ free_ st' = free_ st /\
     vertex_info_ st' = vertex_info_ st /\
     max_iteration_ st' = max_iteration_ st /\ rho_ st' = rho_ st /\
     weight_ st' = weight_ st /\ M_ st' = M_ st /\ solver_ st' = solver_ st).
Proof.
  split.
  - intros H. do 2 eexists. split; [now apply SolvePreprocess_exits|].
    repeat split.
  - intros st' Hret.
    pose proof (SolvePreprocess_Returns_inv _ _ Hret) as Hrows.
    rewrite (SolvePreprocess_returns _ _ Hrows) in Hret.
    injection Hret as <-. repeat split.
Qed.

End PreprocessProofs.

(* ================================================================= *)
(** ** ComputeEnergy *)

Ltac mat_unfold :=
  unfold msquaredNorm, msub, madd, mscale, mmul, transpose, mcol, mget, mrow,
    Identity, Zero, determinant, mvmul, outer in *; simpl in *; vec_unfold.

Section EnergyProofs.

(** S S^T and S^T S deviate from the identity by the same amount. *)
Lemma orthogonality_deviation_sym S :
  msquaredNorm (msub (mmul S (transpose S)) Identity) =
  msquaredNorm (msub (mmul (transpose S) S) Identity).
Proof.
  destruct S as [[a b c] [d e f] [g h i]]. mat_unfold. unfold vget. simpl. ring.
Qed.

Lemma IsSO3_true S : IsSO3 S = true <-> SO3_invariant S.
Proof.
  unfold IsSO3, SO3_invariant, kMatrixDiffThreshold.
  rewrite <- orthogonality_deviation_sym.
  destruct (Rgt_dec _ _) as [H1|H1]; [split; [discriminate | lra]|].
  destruct (Rgt_dec _ _) as [H2|H2]; [split; [discriminate | lra]|].
  split; [lra | reflexivity].
Qed.

Lemma IsSO3_check_passes l n :
  existsb (fun i => negb (IsSO3 (mat_at l i))) (seq 0 n) = false <->
  (forall v, (v < n)%nat -> SO3_invariant (mat_at l v)).
Proof.
  split.
  - intros H v Hv. apply IsSO3_true.
    destruct (IsSO3 (mat_at l v)) eqn:E; [reflexivity|].
    assert (existsb (fun i => negb (IsSO3 (mat_at l i))) (seq 0 n) = true).
    { apply existsb_exists. exists v. split; [apply in_seq; lia|].
      now rewrite E. }
    congruence.
  - intros H. destruct (existsb _ _) eqn:E; [|reflexivity].
    apply existsb_exists in E. destruct E as [v [Hin Hv]].
    apply in_seq in Hin. assert (Hs : IsSO3 (mat_at l v) = true).
    { apply IsSO3_true, H. lia. }
    rewrite Hs in Hv. discriminate.
Qed.

Lemma IsSO3_check_fails l n :
  (exists v, (v < n)%nat /\ ~ SO3_invariant (mat_at l v)) ->
  existsb (fun i => negb (IsSO3 (mat_at l i))) (seq 0 n) = true.
Proof.
  intros [v [Hv Hn]]. apply existsb_exists. exists v.
  split; [apply in_seq; lia|].
  destruct (IsSO3 (mat_at l v)) eqn:E; [|reflexivity].
  apply IsSO3_true in E. contradiction.
Qed.

Lemma fold_left_Rplus {X} (g : X -> R) l a :
  fold_left (fun acc x => acc + g x) l a = a + Rsum (map g l).
Proof.
  apply (@fold_left_measure R X (fun x => x) (fun acc x => acc + g x) g).
  reflexivity.
Qed.

Lemma map_face_at {Y} (F : Face -> Y) (faces : MatrixXi) :
  map (fun f => F (face_at faces f)) (seq 0 (length faces)) = map F faces.
Proof.
  induction faces as [|t l IH]; [reflexivity|].
  cbn [length seq map]. f_equal.
  rewrite <- seq_shift, map_map. exact IH.
Qed.

Lemma Rsum_flat_map {X} (h : X -> R) (k : Face -> list X) l :
  Rsum (map h (flat_map k l)) = Rsum (map (fun t => Rsum (map h (k t))) l).
Proof.
  induction l as [|t l IH]; simpl; [reflexivity|].
  rewrite map_app, Rsum_app, IH. reflexivity.
Qed.

(** The double loop over faces and edges sums over the directed edges. *)
Lemma edge_loop_sum st (g : nat -> nat -> R) (h : nat * nat -> R) :
  (forall f e, g f e =
     h (fidx (face_at (faces_ st) f) (fst (edge_map e)),
        fidx (face_at (faces_ st) f) (snd (edge_map e)))) ->
  fold_left (fun total f =>
               fold_left (fun total e => total + g f e) (seq 0 3) total)
            (seq 0 (length (faces_ st))) 0
  = Rsum (map h (directed_edges st)).
Proof.
  intros Hg.
  rewrite (@fold_left_measure R nat (fun x => x) _
             (fun f => Rsum (map (g f) (seq 0 3)))).
  - unfold directed_edges. rewrite Rsum_flat_map.
    rewrite <- (map_face_at (fun t => Rsum (map h [(fb t, fc t); (fc t, fa t); (fa t, fb t)]))).
    rewrite Rplus_0_l. apply Rsum_map_ext. intros f _.
    simpl. rewrite !Hg. reflexivity.
  - intros a f _. apply fold_left_Rplus.
Qed.

Lemma ComputeEnergy_finite st :
  (forall v, (v < rows (vertices_ st))%nat -> SO3_invariant (mat_at (S_ st) v)) ->
  ComputeEnergy st =
  [("Total"%string, Finite (arap_term st + rotation_term st));
   ("Rotation"%string, Finite (rotation_term st));
   ("ARAP"%string, Finite (arap_term st))].
Proof.
  intros H. unfold ComputeEnergy.
  rewrite (proj2 (IsSO3_check_passes _ _) H).
  rewrite (@edge_loop_sum st _ (arap_edge_term st)) by reflexivity.
  rewrite fold_left_Rplus. unfold AddEnergyType.
  fold (arap_term st).
  replace ((0 + Rsum _) * (rho_ st / 2)) with (rotation_term st)
    by (unfold rotation_term; ring).
  reflexivity.
Qed.

(** C2: when every S_v satisfies the SO(3) invariant, ComputeEnergy returns
    the breakdown whose "ARAP" entry is the sum over the directed edges of
    weight * ||(p_i - p_j) - R_i (rest_i - rest_j)||^2, whose "Rotation"
    entry is (rho/2) * sum_v ||R_v - S_v||^2 and whose "Total" entry is
    their sum; when some S_v violates the invariant, it returns (it does
    not terminate the process) positive infinity as "Total". *)
Theorem ComputeEnergy_breakdown (st : Solver) :
  ((forall v, (v < rows (vertices_ st))%nat -> SO3_invariant (mat_at (S_ st) v)) ->
   energy_of (ComputeEnergy st) "ARAP" = Some (Finite (arap_term st)) /\
   energy_of (ComputeEnergy st) "Rotation" = Some (Finite (rotation_term st)) /\
   energy_of (ComputeEnergy st) "Total" =
     Some (Finite (arap_term st + rotation_term st)) /\
   (forall name, energy_of (ComputeEnergy st) name <> None ->
      name = "ARAP"%string \/ name = "Rotation"%string \/ name = "Total"%string)) /\
  ((exists v, (v < rows (vertices_ st))%nat /\ ~ SO3_invariant (mat_at (S_ st) v)) ->
   ComputeEnergy st = [("Total"%string, PosInfinity)] /\
   energy_of (ComputeEnergy st) "Total" = Some PosInfinity).
Proof.
  split.
  - intros H. rewrite (ComputeEnergy_finite st H). repeat split.
    intros name Hn. cbn [energy_of] in Hn.
    destruct (String.eqb_spec "Total" name) as [E|_]; [subst; auto|].
    destruct (String.eqb_spec "Rotation" name) as [E|_]; [subst; auto|].
    destruct (String.eqb_spec "ARAP" name) as [E|_]; [subst; auto|].
    congruence.
  - intros H. unfold ComputeEnergy. rewrite (@IsSO3_check_fails _ _ H).
    split; reflexivity.
Qed.

End EnergyProofs.

(* ================================================================= *)
(** ** The right-hand side of the linear solve *)

Lemma vec_ext a b : vx a = vx b -> vy a = vy b -> vz a = vz b -> a = b.
Proof. destruct a, b; simpl; intros; subst; reflexivity. Qed.

Ltac vec_eq := apply vec_ext; mat_unfold; ring.

Section RhsProofs.

Lemma vadd_zero_r a : vadd a vzero = a.
Proof. vec_eq. Qed.

Lemma row_add_row m p x i :
  (p < length m)%nat ->
  row (add_row m p x) i = vadd (row m i) (if (i =? p)%nat then x else vzero).
Proof.
  intros Hp. unfold add_row. rewrite row_set_row.
  destruct (Nat.eqb_spec i p) as [->|Hne]; simpl.
  - apply Nat.ltb_lt in Hp. rewrite Hp. reflexivity.
  - now rewrite vadd_zero_r.
Qed.

Lemma add_row_length m p x : length (add_row m p x) = length m.
Proof. apply set_row_length. Qed.

Lemma add_block_length m r b : length (add_block m r b) = length m.
Proof. unfold add_block. now rewrite !add_row_length. Qed.

Lemma set_block_length m r b : length (set_block m r b) = length m.
Proof. unfold set_block. now rewrite !set_row_length. Qed.

Lemma row_add_block m r b i :
  (r + 2 < length m)%nat ->
  row (add_block m r b) i =
  vadd (row m i)
       (if (i =? r)%nat then mr0 b
        else if (i =? r + 1)%nat then mr1 b
        else if (i =? r + 2)%nat then mr2 b else vzero).
Proof.
  intros Hr. unfold add_block.
  rewrite !row_add_row by (rewrite ?add_row_length; lia).
  destruct (Nat.eqb_spec i r), (Nat.eqb_spec i (r + 1)), (Nat.eqb_spec i (r + 2));
    try lia; vec_eq.
Qed.

Lemma row_set_block m r b i :
  (r + 2 < length m)%nat ->
  row (set_block m r b) i =
  if (i =? r)%nat then mr0 b
  else if (i =? r + 1)%nat then mr1 b
  else if (i =? r + 2)%nat then mr2 b else row m i.
Proof.
  intros Hr. unfold set_block.
  rewrite !row_set_row, !set_row_length.
  destruct (Nat.eqb_spec i r), (Nat.eqb_spec i (r + 1)), (Nat.eqb_spec i (r + 2));
    try lia; simpl;
    repeat match goal with
    | |- context [(?a <? ?b)%nat] =>
        let H := fresh in
        destruct (Nat.ltb_spec a b) as [H|H]; try lia
    end; reflexivity.
Qed.

Lemma row_dense_zero n i : row (dense_zero n) i = vzero.
Proof.
  unfold row, dense_zero. destruct (Nat.lt_ge_cases i n).
  - now apply nth_repeat_lt.
  - apply nth_overflow. rewrite repeat_length. lia.
Qed.

Lemma fold_left_vmeasure {A X} (mu : A -> Vector3d) (step : A -> X -> A)
    (delta : X -> Vector3d) (P : A -> Prop) l :
  (forall a x, In x l -> P a -> P (step a x) /\ mu (step a x) = vadd (mu a) (delta x)) ->
  forall a, P a ->
    P (fold_left step l a) /\
    mu (fold_left step l a) = vadd (mu a) (Vsum (map delta l)).
Proof.
  induction l as [|h t IH]; simpl; intros Hs a Ha.
  - split; [assumption | now rewrite vadd_zero_r].
  - destruct (Hs a h (or_introl eq_refl) Ha) as [HP Hmu].
    destruct (IH (fun a x Hx => Hs a x (or_intror Hx)) _ HP) as [HP' Hmu'].
    split; [assumption|]. rewrite Hmu', Hmu. vec_eq.
Qed.

Lemma Vsum_app l1 l2 : Vsum (l1 ++ l2) = vadd (Vsum l1) (Vsum l2).
Proof.
  induction l1; simpl; [vec_eq | rewrite IHl1; vec_eq].
Qed.

Lemma Vsum_map_ext {X} (f g : X -> Vector3d) l :
  (forall x, In x l -> f x = g x) -> Vsum (map f l) = Vsum (map g l).
Proof.
  induction l; simpl; intros H; [reflexivity|].
  rewrite H by now left. rewrite IHl; [reflexivity|].
  intros; apply H; now right.
Qed.

Lemma Vsum_flat_map {X} (h : X -> Vector3d) (k : Face -> list X) l :
  Vsum (map h (flat_map k l)) = Vsum (map (fun t => Vsum (map h (k t))) l).
Proof.
  induction l as [|t l IH]; simpl; [reflexivity|].
  rewrite map_app, Vsum_app, IH. reflexivity.
Qed.

Lemma Vsum_filter {X} (p : X -> bool) (h : X -> Vector3d) l :
  Vsum (map (fun x => if p x then h x else vzero) l) = Vsum (map h (filter p l)).
Proof.
  induction l as [|x l IH]; simpl; [reflexivity|].
  destruct (p x); simpl; rewrite IH; [reflexivity | vec_eq].
Qed.

(** The rotation loop: zero rows for the positions, one block per vertex. *)
Lemma rhs_rotation_rows st k :
  (k <= rows (vertices_ st))%nat ->
  let rhs := fold_left (rhs_rotation_step st) (seq 0 k)
               (dense_zero (length (free_ st) + 3 * rows (vertices_ st))) in
  length rhs = (length (free_ st) + 3 * rows (vertices_ st))%nat /\
  (forall i, (i < length (free_ st))%nat -> row rhs i = vzero) /\
  (forall v, (v < k)%nat ->
     block rhs (length (free_ st) + 3 * v) =
     mscale (rho_ st) (transpose (msub (mat_at (S_ st) v) (mat_at (T_ st) v)))).
Proof.
  induction k as [|k IH]; intros Hk; cbv zeta.
  - simpl. split; [apply repeat_length|]. split; [|intros; lia].
    intros; apply row_dense_zero.
  - rewrite seq_S, fold_left_app. cbn [fold_left Nat.add].
    destruct (IH ltac:(lia)) as [Hlen [Hz Hb]]. clear IH.
    set (rhs := fold_left _ _ _) in *.
    unfold rhs_rotation_step.
    split; [now rewrite set_block_length|]. split.
    + intros i Hi. rewrite row_set_block by lia.
      destruct (Nat.eqb_spec i (length (free_ st) + 3 * k)); [lia|].
      destruct (Nat.eqb_spec i (length (free_ st) + 3 * k + 1)); [lia|].
      destruct (Nat.eqb_spec i (length (free_ st) + 3 * k + 2)); [lia|].
      now apply Hz.
    + intros v Hv. unfold block. rewrite !row_set_block by lia.
      destruct (Nat.eq_dec v k) as [->|Hne].
      * rewrite Nat.eqb_refl.
        destruct (Nat.eqb_spec (length (free_ st) + 3 * k + 1) (length (free_ st) + 3 * k)); [lia|].
        rewrite Nat.eqb_refl.
        destruct (Nat.eqb_spec (length (free_ st) + 3 * k + 2) (length (free_ st) + 3 * k)); [lia|].
        destruct (Nat.eqb_spec (length (free_ st) + 3 * k + 2) (length (free_ st) + 3 * k + 1)); [lia|].
        rewrite Nat.eqb_refl.
        now destruct (mscale _ _).
      * rewrite <- (Hb v) by lia. unfold block.
        repeat match goal with
        | |- context [(?a =? ?b)%nat] =>
            destruct (Nat.eqb_spec a b); [lia|]
        end.
        reflexivity.
Qed.

End RhsProofs.

Section RhsEdges.

Variable st : Solver.

Let N : nat := (length (free_ st) + 3 * rows (vertices_ st))%nat.

Lemma rhs_edge_step_row f rhs e r :
  partition_wf st -> faces_in_range st -> (f < length (faces_ st))%nat ->
  length rhs = N ->
  let ij := (fidx (face_at (faces_ st) f) (fst (edge_map e)),
             fidx (face_at (faces_ st) f) (snd (edge_map e))) in
  length (rhs_edge_step st f rhs e) = N /\
  row (rhs_edge_step st f rhs e) r =
  vadd (row rhs r)
       (if has_fixed_endpoint st ij then rhs_edge_term st ij r else vzero).
Proof.
  intros [_ [_ Hpos]] Hr Hf Hlen ij. subst ij.
  pose proof (face_at_in_range (fst (edge_map e)) Hr Hf) as H1.
  pose proof (face_at_in_range (snd (edge_map e)) Hr Hf) as H2.
  unfold rhs_edge_step, has_fixed_endpoint, rhs_edge_term, GetMatrixVariablePos.
  cbn [fst snd].
  set (first := fidx _ (fst (edge_map e))) in *.
  set (second := fidx _ (snd (edge_map e))) in *.
  pose proof (Hpos first H1) as P1. pose proof (Hpos second H2) as P2.
  subst N.
  destruct (type (info_at st first)) eqn:T1, (type (info_at st second)) eqn:T2;
    cbn [is_free is_fixed andb orb].
  - split; [assumption | now rewrite vadd_zero_r].
  - destruct (P1 eq_refl) as [Q1 _].
    split; [now rewrite add_block_length, add_row_length|].
    rewrite row_add_block by (rewrite add_row_length; lia).
    rewrite row_add_row by lia.
    repeat match goal with
    | |- context [(?a =? ?b)%nat] => destruct (Nat.eqb_spec a b); try lia
    end; vec_eq.
  - destruct (P2 eq_refl) as [Q2 _].
    split; [now rewrite add_block_length, add_row_length|].
    rewrite row_add_block by (rewrite add_row_length; lia).
    rewrite row_add_row by lia.
    repeat match goal with
    | |- context [(?a =? ?b)%nat] => destruct (Nat.eqb_spec a b); try lia
    end; vec_eq.
  - split; [now rewrite add_block_length|].
    rewrite row_add_block by lia.
    repeat match goal with
    | |- context [(?a =? ?b)%nat] => destruct (Nat.eqb_spec a b); try lia
    end; vec_eq.
Qed.

Lemma rhs_rotation_length :
  length (rhs_rotation st) = N.
Proof.
  unfold rhs_rotation. now apply (rhs_rotation_rows st (Nat.le_refl _)).
Qed.

(** The right-hand side is the rotation part plus the terms of the directed
    edges that have a Fixed endpoint. *)
Lemma build_rhs_rows r :
  partition_wf st -> faces_in_range st ->
  length (build_rhs st) = N /\
  row (build_rhs st) r =
  vadd (row (rhs_rotation st) r)
       (Vsum (map (fun ij => rhs_edge_term st ij r)
                  (filter (has_fixed_endpoint st) (directed_edges st)))).
Proof.
  intros Hp Hr. unfold build_rhs. fold (rhs_rotation st).
  rewrite <- Vsum_filter. unfold directed_edges. rewrite Vsum_flat_map.
  rewrite <- (map_face_at
    (fun t => Vsum (map (fun x => if has_fixed_endpoint st x
                                  then rhs_edge_term st x r else vzero)
                        [(fb t, fc t); (fc t, fa t); (fa t, fb t)]))).
  apply (@fold_left_vmeasure _ _ (fun rhs => row rhs r) _
           (fun f => Vsum (map (fun x => if has_fixed_endpoint st x
                                  then rhs_edge_term st x r else vzero)
                        [(fb (face_at (faces_ st) f), fc (face_at (faces_ st) f));
                         (fc (face_at (faces_ st) f), fa (face_at (faces_ st) f));
                         (fa (face_at (faces_ st) f), fb (face_at (faces_ st) f))]))
           (fun rhs => length rhs = N));
    [|apply rhs_rotation_length].
  intros rhs f Hf Hlen. apply in_seq in Hf.
  change (seq 0 3) with [0; 1; 2]%nat. cbn [fold_left].
  destruct (@rhs_edge_step_row f rhs 0 r Hp Hr ltac:(lia) Hlen) as [L0 R0].
  destruct (@rhs_edge_step_row f _ 1 r Hp Hr ltac:(lia) L0) as [L1 R1].
  destruct (@rhs_edge_step_row f _ 2 r Hp Hr ltac:(lia) L1) as [L2 R2].
  split; [exact L2|].
  rewrite R2, R1, R0. cbn [map Vsum fold_right edge_map fst snd fidx].
  vec_eq.
Qed.

End RhsEdges.

(* ================================================================= *)
(** ** The three steps of an iteration *)

Section StepLemmas.

Variable cholesky_solve : SparseMatrix -> MatrixXd -> MatrixXd * ComputationInfo.
Variable polar_svd3x3 : Matrix3d -> Matrix3d.

Lemma with_rotations_same st : with_rotations st (rotations_ st) = st.
Proof. destruct st; reflexivity. Qed.

Lemma with_S_same st : with_S st (S_ st) = st.
Proof. destruct st; reflexivity. Qed.

Lemma with_T_same st : with_T st (T_ st) = st.
Proof. destruct st; reflexivity. Qed.

(** A loop that rewrites entry [i] of a vector from its old value. *)
Lemma vec_loop (h : nat -> Matrix3d -> Matrix3d) l0 k :
  (k <= length l0)%nat ->
  let r := fold_left (fun l i => vec_set l i (h i (mat_at l i))) (seq 0 k) l0 in
  length r = length l0 /\
  forall v, mat_at r v = if (v <? k)%nat then h v (mat_at l0 v) else mat_at l0 v.
Proof.
  induction k as [|k IH]; intros Hk; cbv zeta.
  - split; reflexivity.
  - rewrite seq_S, fold_left_app. cbn [fold_left Nat.add].
    destruct (IH ltac:(lia)) as [Hlen Hv]. clear IH.
    set (r := fold_left _ _ _) in *.
    split; [now rewrite vec_set_length|].
    intros v. rewrite mat_at_vec_set, Hlen.
    destruct (Nat.eqb_spec v k) as [->|Hne]; simpl.
    + destruct (Nat.ltb_spec k (length l0)); [|lia].
      destruct (Nat.ltb_spec k (S k)); [|lia].
      rewrite Hv. destruct (Nat.ltb_spec k k); [lia | reflexivity].
    + rewrite Hv.
      destruct (Nat.ltb_spec v k), (Nat.ltb_spec v (S k)); try lia; reflexivity.
Qed.

Lemma write_back_positions_loop solution l st :
  fold_left (fun st i =>
               with_vertices_updated st
                 (set_row (vertices_updated_ st) (nth i (free_ st) 0%nat)
                          (row solution i)))
            l st =
  with_vertices_updated st
    (fold_left (fun m i => set_row m (nth i (free_ st) 0%nat) (row solution i))
               l (vertices_updated_ st)).
Proof.
  revert st; induction l as [|h t IH]; intros st; simpl.
  - symmetry; apply with_vertices_updated_same.
  - rewrite IH. reflexivity.
Qed.

Lemma write_back_rotations_loop (g : nat -> Matrix3d) l st :
  fold_left (fun st v => with_rotations st (vec_set (rotations_ st) v (g v))) l st =
  with_rotations st (fold_left (fun R v => vec_set R v (g v)) l (rotations_ st)).
Proof.
  revert st; induction l as [|h t IH]; intros st; simpl.
  - symmetry; apply with_rotations_same.
  - rewrite IH. reflexivity.
Qed.

Lemma write_back_eq st solution :
  write_back st solution =
  with_rotations
    (with_vertices_updated st
       (enforce_fixed (free_ st) solution (vertices_updated_ st) (length (free_ st))))
    (fold_left (fun R v => vec_set R v
                  (transpose (block solution (length (free_ st) + 3 * v))))
               (seq 0 (rows (vertices_ st))) (rotations_ st)).
Proof.
  unfold write_back. rewrite write_back_positions_loop.
  rewrite (write_back_rotations_loop
             (fun v => transpose (block solution (length (free_ st) + 3 * v)))).
  reflexivity.
Qed.

Lemma SVDSolve_eq st :
  SVDSolve polar_svd3x3 st =
  with_S st
    (fold_left (fun S i => vec_set S i
                  (polar_svd3x3 (madd (mat_at (rotations_ st) i) (mat_at (T_ st) i))))
               (seq 0 (rows (vertices_ st))) (S_ st)).
Proof.
  unfold SVDSolve. generalize (seq 0 (rows (vertices_ st))) as l.
  intros l. revert st. induction l as [|h t IH]; intros st; simpl.
  - symmetry; apply with_S_same.
  - rewrite IH. reflexivity.
Qed.

Lemma UpdateT_eq st :
  UpdateT st =
  with_T st
    (fold_left (fun T i => vec_set T i
                  (madd (mat_at T i)
                        (msub (mat_at (rotations_ st) i) (mat_at (S_ st) i))))
               (seq 0 (rows (vertices_ st))) (T_ st)).
Proof.
  unfold UpdateT. generalize (seq 0 (rows (vertices_ st))) as l.
  intros l. revert st. induction l as [|h t IH]; intros st; simpl.
  - symmetry; apply with_T_same.
  - rewrite IH. reflexivity.
Qed.

(** The outcome of the linear-solve step, case by case. *)
Lemma LinearSolve_Returns_inv st st1 :
  LinearSolve cholesky_solve st = Returns st1 ->
  let rhs := build_rhs st in
  let solution := fst (cholesky_solve (solver_ st) rhs) in
  snd (cholesky_solve (solver_ st) rhs) = Success /\
  rows solution = (length (free_ st) + 3 * rows (vertices_ st))%nat /\
  residual st solution rhs <= kMatrixDiffThreshold /\
  st1 = write_back st solution.
Proof.
  intros H rhs solution. unfold LinearSolve in H. fold rhs in H. fold solution in H.
  destruct (snd (cholesky_solve (solver_ st) rhs)); cbn [is_success negb] in H;
    [|discriminate].
  destruct (Nat.eqb_spec (rows solution)
              (length (free_ st) + 3 * rows (vertices_ st))) as [E|E];
    cbn [negb] in H; [|discriminate].
  destruct (Rgt_dec (residual st solution rhs) kMatrixDiffThreshold) as [G|G];
    [discriminate|].
  injection H as <-. repeat split; auto. lra.
Qed.

Lemma LinearSolve_Exits st :
  let rhs := build_rhs st in
  let solution := fst (cholesky_solve (solver_ st) rhs) in
  snd (cholesky_solve (solver_ st) rhs) <> Success \/
  rows solution <> (length (free_ st) + 3 * rows (vertices_ st))%nat \/
  residual st solution rhs > kMatrixDiffThreshold ->
  exists msg, LinearSolve cholesky_solve st = Exits msg st.
Proof.
  intros rhs solution H. unfold LinearSolve. fold rhs. fold solution.
  destruct (snd (cholesky_solve (solver_ st) rhs)) eqn:Ei; cbn [is_success negb];
    [|eexists; reflexivity].
  destruct (Nat.eqb_spec (rows solution)
              (length (free_ st) + 3 * rows (vertices_ st))) as [E|E];
    cbn [negb]; [|eexists; reflexivity].
  destruct (Rgt_dec (residual st solution rhs) kMatrixDiffThreshold) as [G|G];
    [eexists; reflexivity|].
  exfalso. destruct H as [H|[H|H]]; [congruence | congruence | lra].
Qed.

End StepLemmas.

Section IterationTheorems.

Variable cholesky_solve : SparseMatrix -> MatrixXd -> MatrixXd * ComputationInfo.
Variable polar_svd3x3 : Matrix3d -> Matrix3d.

Lemma SolveOneIteration_Returns_inv st st' :
  SolveOneIteration cholesky_solve polar_svd3x3 st = Returns st' ->
  exists st1, LinearSolve cholesky_solve st = Returns st1 /\
              st' = UpdateT (SVDSolve polar_svd3x3 st1).
Proof.
  unfold SolveOneIteration.
  destruct (LinearSolve cholesky_solve st) as [st1|msg st1]; [|discriminate].
  intros H. injection H as <-. now exists st1.
Qed.

(** C4: the right-hand side has three columns and one row per unknown; it
    is the sum of the rotation part, whose block for vertex v is
    rho (S_v - T_v)^T and whose position rows are zero, and of the terms of
    the directed edges with at least one Fixed endpoint.  After the solve
    the free-vertex rows of the solution are the updated positions of the
    free vertices, R_v is the transposed 3x3 block of v, S_v is what the
    closest-rotation kernel returns for R_v + T_v, and T_v has become
    T_v + R_v - S_v. *)
Theorem SolveOneIteration_steps (st st' : Solver) :
  partition_wf st -> faces_in_range st -> state_wf st ->
  SolveOneIteration cholesky_solve polar_svd3x3 st = Returns st' ->
  let rhs := build_rhs st in
  let solution := fst (cholesky_solve (solver_ st) rhs) in
  let free_num := length (free_ st) in
  let vertex_num := rows (vertices_ st) in
  rows rhs = (free_num + 3 * vertex_num)%nat /\
  (forall v, (v < vertex_num)%nat ->
     block (rhs_rotation st) (free_num + 3 * v) =
     mscale (rho_ st) (transpose (msub (mat_at (S_ st) v) (mat_at (T_ st) v)))) /\
  (forall i, (i < free_num)%nat -> row (rhs_rotation st) i = vzero) /\
  (forall r, row rhs r =
     vadd (row (rhs_rotation st) r)
          (Vsum (map (fun ij => rhs_edge_term st ij r)
                     (filter (has_fixed_endpoint st) (directed_edges st))))) /\
  (forall i, (i < free_num)%nat ->
     row (vertices_updated_ st') (nth i (free_ st) 0%nat) = row solution i) /\
  (forall v, ~ In v (free_ st) ->
     row (vertices_updated_ st') v = row (vertices_updated_ st) v) /\
  (forall v, (v < vertex_num)%nat ->
     mat_at (rotations_ st') v = transpose (block solution (free_num + 3 * v)) /\
     mat_at (S_ st') v =
       polar_svd3x3 (madd (mat_at (rotations_ st') v) (mat_at (T_ st) v)) /\
     mat_at (T_ st') v =
       madd (mat_at (T_ st) v)
            (msub (mat_at (rotations_ st') v) (mat_at (S_ st') v))).
Proof.
  intros Hp Hr [Hu [HR [HS HT]]] Hret rhs solution free_num vertex_num.
  apply SolveOneIteration_Returns_inv in Hret. destruct Hret as [st1 [H1 ->]].
  apply LinearSolve_Returns_inv in H1. cbv zeta in H1.
  fold rhs in H1. fold solution in H1. destruct H1 as [_ [_ [_ ->]]].
  destruct Hp as [Hnd [Hfr Hpos]].
  split; [apply (build_rhs_rows 0 (conj Hnd (conj Hfr Hpos)) Hr)|].
  split; [apply (rhs_rotation_rows st (Nat.le_refl _))|].
  split; [apply (rhs_rotation_rows st (Nat.le_refl _))|].
  split; [intros r; apply (build_rhs_rows r (conj Hnd (conj Hfr Hpos)) Hr)|].
  rewrite UpdateT_eq, SVDSolve_eq, write_back_eq.
  cbn [vertices_updated_ rotations_ S_ T_ vertices_ with_T with_S with_rotations
       with_vertices_updated free_].
  fold free_num vertex_num.
  split; [|split].
  - intros i Hi. apply enforce_fixed_target; auto.
    unfold rows in Hu. rewrite Hu. exact Hfr.
  - intros v Hv. now apply enforce_fixed_other.
  - intros v Hv.
    set (Rnew := fold_left (fun R v => vec_set R v _) _ (rotations_ st)).
    set (Snew := fold_left (fun S i => vec_set S i _) _ (S_ st)).
    assert (HRn : mat_at Rnew v = transpose (block solution (free_num + 3 * v))).
    { destruct (@vec_loop (fun v _ => transpose (block solution (free_num + 3 * v)))
                  (rotations_ st) vertex_num ltac:(unfold vertex_num; lia)) as [_ Hv'].
      unfold Rnew. rewrite Hv'.
      destruct (Nat.ltb_spec v vertex_num); [reflexivity | lia]. }
    assert (HSn : mat_at Snew v = polar_svd3x3 (madd (mat_at Rnew v) (mat_at (T_ st) v))).
    { destruct (@vec_loop (fun i _ => polar_svd3x3 (madd (mat_at Rnew i) (mat_at (T_ st) i)))
                  (S_ st) vertex_num ltac:(unfold vertex_num; lia)) as [_ Hv'].
      unfold Snew. rewrite Hv'.
      destruct (Nat.ltb_spec v vertex_num); [reflexivity | lia]. }
    split; [exact HRn|]. split; [exact HSn|].
    destruct (@vec_loop (fun i t => madd t (msub (mat_at Rnew i) (mat_at Snew i)))
                (T_ st) vertex_num ltac:(unfold vertex_num; lia)) as [_ Hv'].
    rewrite Hv'. destruct (Nat.ltb_spec v vertex_num); [reflexivity | lia].
Qed.

End IterationTheorems.

(* ================================================================= *)
(** ** The projection step does not increase the augmented energy *)

Section ProjectionProofs.

Variable cholesky_solve : SparseMatrix -> MatrixXd -> MatrixXd * ComputationInfo.
Variable polar_svd3x3 : Matrix3d -> Matrix3d.

(** What is assumed of the external kernel everywhere: it returns proper
    rotations. *)
Hypothesis polar_rotation : forall M, exact_rotation (polar_svd3x3 M).

Lemma Identity_exact : exact_rotation Identity.
Proof.
  split.
  - unfold Identity, mmul, transpose, mcol, mget, mrow, dot, vget; simpl.
    f_equal; f_equal; ring.
  - unfold determinant, Identity, dot, cross; simpl. ring.
Qed.

Lemma exact_rotation_invariant Q : exact_rotation Q -> SO3_invariant Q.
Proof.
  intros [Ho Hd]. split.
  - rewrite <- orthogonality_deviation_sym, Ho.
    unfold msquaredNorm, msub, Identity, squaredNorm, dot, vsub; simpl. lra.
  - rewrite Hd. replace (1 - 1) with 0 by ring. rewrite Rabs_R0. lra.
Qed.

Lemma Rsum_map_le {X} (f g : X -> R) l :
  (forall x, In x l -> f x <= g x) -> Rsum (map f l) <= Rsum (map g l).
Proof.
  induction l as [|h t IH]; simpl; intros H; [lra|].
  pose proof (H h (or_introl eq_refl)).
  pose proof (IH (fun x Hx => H x (or_intror Hx))). lra.
Qed.

Lemma augmented_norm_as_distance Rv Sv Tv :
  msquaredNorm (madd (msub Rv Sv) Tv) = msquaredNorm (msub Sv (madd Rv Tv)).
Proof.
  destruct Rv as [[? ? ?] [? ? ?] [? ? ?]], Sv as [[? ? ?] [? ? ?] [? ? ?]],
    Tv as [[? ? ?] [? ? ?] [? ? ?]].
  mat_unfold. ring.
Qed.

Lemma ComputeSVDSolveEnergy_finite st :
  (forall v, (v < rows (vertices_ st))%nat -> SO3_invariant (mat_at (S_ st) v)) ->
  ComputeSVDSolveEnergy st =
  Finite (Rsum (map (fun v => msquaredNorm
                                (madd (msub (mat_at (rotations_ st) v)
                                            (mat_at (S_ st) v))
                                      (mat_at (T_ st) v)))
                    (seq 0 (rows (vertices_ st))))
          * (rho_ st / 2)).
Proof.
  intros H. unfold ComputeSVDSolveEnergy.
  rewrite (proj2 (IsSO3_check_passes _ _) H).
  rewrite fold_left_Rplus. f_equal. ring.
Qed.

(** Shape of the state left by a SolveOneIteration that returned. *)
Lemma SolveOneIteration_state st st' :
  state_wf st ->
  SolveOneIteration cholesky_solve polar_svd3x3 st = Returns st' ->
  vertices_ st' = vertices_ st /\ state_wf st' /\
  forall v, (v < rows (vertices_ st))%nat -> exact_rotation (mat_at (S_ st') v).
Proof.
  intros [Hu [HR [HS HT]]] Hret.
  apply SolveOneIteration_Returns_inv in Hret. destruct Hret as [st1 [H1 ->]].
  apply LinearSolve_Returns_inv in H1. cbv zeta in H1.
  destruct H1 as [_ [_ [_ ->]]].
  rewrite UpdateT_eq, SVDSolve_eq, write_back_eq.
  cbn [vertices_updated_ rotations_ S_ T_ vertices_ with_T with_S with_rotations
       with_vertices_updated free_].
  split; [reflexivity|]. split.
  - unfold state_wf.
    cbn [vertices_updated_ rotations_ S_ T_ vertices_ with_T with_S with_rotations
         with_vertices_updated free_].
    split; [unfold rows in *; now rewrite enforce_fixed_length|].
    split; [|split].
    + rewrite <- HR at 2.
      apply (@vec_loop (fun v _ => transpose (block _ (length (free_ st) + 3 * v)))
               (rotations_ st) (rows (vertices_ st))). lia.
    + rewrite <- HS at 2.
      apply (@vec_loop (fun i _ => polar_svd3x3 (madd (mat_at _ i) (mat_at (T_ st) i)))
               (S_ st) (rows (vertices_ st))). lia.
    + rewrite <- HT at 2.
      apply (@vec_loop (fun i t => madd t (msub (mat_at _ i) (mat_at _ i)))
               (T_ st) (rows (vertices_ st))). lia.
  - intros v Hv.
    destruct (@vec_loop
                (fun i _ => polar_svd3x3
                   (madd (mat_at (fold_left (fun R v => vec_set R v
                             (transpose (block (fst (cholesky_solve (solver_ st) (build_rhs st)))
                                               (length (free_ st) + 3 * v))))
                           (seq 0 (rows (vertices_ st))) (rotations_ st)) i)
                         (mat_at (T_ st) i)))
                (S_ st) (rows (vertices_ st)) ltac:(lia)) as [_ Hv'].
    rewrite Hv'. destruct (Nat.ltb_spec v (rows (vertices_ st))); [|lia].
    apply polar_rotation.
Qed.

Lemma reachable_invariant st :
  reachable cholesky_solve polar_svd3x3 st ->
  state_wf st /\
  forall v, (v < rows (vertices_ st))%nat -> exact_rotation (mat_at (S_ st) v).
Proof.
  induction 1 as [st fv st' Hret | st st' _ [Hwf Hrot] Hret].
  - pose proof (SolvePreprocess_Returns_inv _ _ Hret) as Hrows.
    rewrite (SolvePreprocess_returns _ _ Hrows) in Hret. injection Hret as <-.
    unfold state_wf. cbn [vertices_updated_ rotations_ S_ T_ vertices_].
    split.
    + split; [apply enforce_fixed_length|].
      repeat split; apply repeat_length.
    + intros v Hv. rewrite mat_at_repeat by assumption. apply Identity_exact.
  - destruct (SolveOneIteration_state Hwf Hret) as [Hv [Hwf' Hrot']].
    split; [assumption|]. rewrite Hv. assumption.
Qed.

End ProjectionProofs.

(* ================================================================= *)
(** ** The two assemblies of the System Matrix agree *)

Section SystemMatrixProofs.

Variable st : Solver.

Lemma coeff_coeffRef_add m i j x a b :
  coeff (coeffRef_add m i j x) a b =
  coeff m a b + ind (a =? i)%nat * ind (b =? j)%nat * x.
Proof.
  unfold coeffRef_add, at_entry, ind; simpl.
  destruct (a =? i)%nat, (b =? j)%nat; simpl; ring.
Qed.

Lemma coeff_coeffRef_sub m i j x a b :
  coeff (coeffRef_sub m i j x) a b =
  coeff m a b - ind (a =? i)%nat * ind (b =? j)%nat * x.
Proof.
  unfold coeffRef_sub, at_entry, ind; simpl.
  destruct (a =? i)%nat, (b =? j)%nat; simpl; ring.
Qed.

Lemma coeff_coeffRef_set m i j x a b :
  coeff (coeffRef_set m i j x) a b =
  if ((a =? i) && (b =? j))%nat then x else coeff m a b.
Proof. reflexivity. Qed.

Ltac coeff_norm :=
  repeat (rewrite coeff_coeffRef_add || rewrite coeff_coeffRef_sub).

(** First method: an edge adds the quadratic form of its row vector. *)
Lemma M1_edge_step_coeff f M e a b :
  coeff (M1_edge_step st f M e) a b = coeff M a b + edge_delta st f e a b.
Proof.
  unfold M1_edge_step, edge_delta, edge_row_form, GetMatrixVariablePos.
  set (first := fidx _ (fst (edge_map e))).
  set (second := fidx _ (snd (edge_map e))).
  set (v := vsub _ _). set (w := coeff (weight_ st) first second).
  change (seq 0 3) with [0; 1; 2]%nat.
  destruct (type (info_at st first)), (type (info_at st second));
    cbn [is_free andb fold_left]; coeff_norm;
    cbn [ind]; rewrite ?Nat.add_0_r; ring.
Qed.

Lemma sum_n_1 g : sum_n 1 g = g 0%nat.
Proof. unfold sum_n; simpl. ring. Qed.

Lemma sum_n_3 g : sum_n 3 g = g 0%nat + g 1%nat + g 2%nat.
Proof. unfold sum_n; simpl. ring. Qed.

(** The row vector built by assignments, when no assignment overwrites
    another. *)
Lemma edge_row_coeff f e x :
  let first := fidx (face_at (faces_ st) f) (fst (edge_map e)) in
  let second := fidx (face_at (faces_ st) f) (snd (edge_map e)) in
  (type (info_at st first) = Free ->
   (pos (info_at st first) < length (free_ st))%nat) ->
  (type (info_at st second) = Free ->
   (pos (info_at st second) < length (free_ st))%nat) ->
  (type (info_at st first) = Free -> type (info_at st second) = Free ->
   pos (info_at st first) <> pos (info_at st second)) ->
  coeff (edge_row st f e) 0 x = edge_row_form st first second x.
Proof.
  intros first second H1 H2 H12.
  unfold edge_row, edge_row_form, GetMatrixVariablePos.
  fold first second. fold first second in H1, H2, H12.
  set (v := vsub _ _).
  destruct (type (info_at st first)), (type (info_at st second));
    cbn [is_free andb]; rewrite !coeff_coeffRef_set; cbn [Nat.eqb andb sp_resize coeff];
    try (specialize (H1 eq_refl)); try (specialize (H2 eq_refl));
    try (specialize (H12 eq_refl eq_refl));
    repeat match goal with
    | |- context [(?p =? ?q)%nat] => destruct (Nat.eqb_spec p q); try lia
    end; cbn [ind]; ring.
Qed.

Lemma edge_row_rows f e : sp_rows (edge_row st f e) = 1%nat.
Proof.
  unfold edge_row.
  destruct (type (info_at st _)), (type (info_at st _)); reflexivity.
Qed.

(** Second method: an edge adds the same quadratic form. *)
Lemma M2_edge_step_coeff f M e a b :
  partition_wf st -> faces_in_range st -> faces_nondegenerate st ->
  (f < length (faces_ st))%nat -> (e < 3)%nat ->
  coeff (M2_edge_step st f M e) a b = coeff M a b + edge_delta st f e a b.
Proof.
  intros [Hnd [_ Hpos]] Hr Hdeg Hf He.
  pose proof (face_at_in_range (fst (edge_map e)) Hr Hf) as B1.
  pose proof (face_at_in_range (snd (edge_map e)) Hr Hf) as B2.
  assert (Hne : fidx (face_at (faces_ st) f) (fst (edge_map e)) <>
                fidx (face_at (faces_ st) f) (snd (edge_map e))).
  { unfold faces_nondegenerate in Hdeg. rewrite Forall_forall in Hdeg.
    specialize (Hdeg (face_at (faces_ st) f) (nth_In _ _ Hf)).
    destruct e as [|[|[|e]]]; simpl; try lia; intuition congruence. }
  unfold M2_edge_step, edge_delta. cbn [sp_add sp_mul sp_scale sp_transpose coeff].
  cbn [sp_cols sp_rows sp_scale sp_transpose]. rewrite edge_row_rows, sum_n_1.
  assert (HA : forall x, coeff (edge_row st f e) 0 x =
                         edge_row_form st (fidx (face_at (faces_ st) f) (fst (edge_map e)))
                                       (fidx (face_at (faces_ st) f) (snd (edge_map e))) x).
  { intros x. apply edge_row_coeff.
    - intros T. now apply Hpos.
    - intros T. now apply Hpos.
    - intros T1 T2 E. apply Hne.
      destruct (Hpos _ B1 T1) as [_ <-]. destruct (Hpos _ B2 T2) as [_ <-].
      now rewrite E. }
  rewrite !HA. ring.
Qed.

(** Second method: the rotation constraint of a vertex. *)
Lemma M2_rotation_step_coeff M v a b :
  coeff (M2_rotation_step st M v) a b = coeff M a b + rotation_delta st v a b.
Proof.
  unfold M2_rotation_step, rotation_delta.
  cbn [sp_add sp_mul sp_scale sp_transpose coeff].
  cbn [sp_cols sp_rows sp_scale sp_transpose].
  change (sp_rows (rotation_rows st v)) with 3%nat.
  rewrite sum_n_3. unfold rotation_rows.
  rewrite !coeff_coeffRef_set. cbn [Nat.eqb andb sp_resize coeff].
  unfold ind.
  repeat match goal with
  | |- context [(?p =? ?q)%nat] => destruct (p =? q)%nat
  end; ring.
Qed.

(** First method: the loop that adds rho on the rotation diagonal. *)
Lemma M1_diagonal_coeff l M a b :
  coeff (fold_left (fun M i => coeffRef_add M i i (rho_ st)) l M) a b =
  coeff M a b + Rsum (map (fun i => ind (a =? i)%nat * ind (b =? i)%nat * rho_ st) l).
Proof.
  apply (@fold_left_measure _ _ (fun M => coeff M a b)).
  intros. apply coeff_coeffRef_add.
Qed.

Lemma rotation_diagonal_sum n a b :
  Rsum (map (fun i => ind (a =? i)%nat * ind (b =? i)%nat * rho_ st)
            (seq (length (free_ st)) (3 * n)))
  = Rsum (map (fun v => rotation_delta st v a b) (seq 0 n)).
Proof.
  induction n as [|n IH]; [reflexivity|].
  replace (3 * S n)%nat with (3 * n + 3)%nat by lia.
  rewrite seq_app, map_app, Rsum_app, IH.
  rewrite (seq_S n 0), (map_app _ (seq 0 n)), Rsum_app.
  cbn [seq map Rsum fold_right Nat.add].
  unfold rotation_delta, GetMatrixVariablePos.
  replace (length (free_ st) + 3 * n + 0)%nat with (length (free_ st) + 3 * n)%nat by lia.
  replace (S (length (free_ st) + 3 * n)) with (length (free_ st) + 3 * n + 1)%nat by lia.
  replace (S (length (free_ st) + 3 * n + 1)) with (length (free_ st) + 3 * n + 2)%nat by lia.
  ring.
Qed.

Lemma Precompute_M1_coeff a b :
  coeff (Precompute_M1 st) a b =
  Rsum (map (fun v => rotation_delta st v a b) (seq 0 (rows (vertices_ st))))
  + edges_sum st a b.
Proof.
  unfold Precompute_M1.
  rewrite (@fold_left_measure _ _ (fun M => coeff M a b) _
             (fun f => Rsum (map (fun e => edge_delta st f e a b) (seq 0 3)))).
  - rewrite M1_diagonal_coeff, rotation_diagonal_sum. cbn [sp_resize coeff].
    unfold edges_sum. ring.
  - intros M f _. apply (@fold_left_measure _ _ (fun M => coeff M a b)).
    intros. apply M1_edge_step_coeff.
Qed.

Lemma Precompute_M2_coeff a b :
  partition_wf st -> faces_in_range st -> faces_nondegenerate st ->
  coeff (Precompute_M2 st) a b =
  Rsum (map (fun v => rotation_delta st v a b) (seq 0 (rows (vertices_ st))))
  + edges_sum st a b.
Proof.
  intros Hp Hr Hdeg. unfold Precompute_M2.
  rewrite (@fold_left_measure _ _ (fun M => coeff M a b) _
             (fun v => rotation_delta st v a b))
    by (intros; apply M2_rotation_step_coeff).
  rewrite (@fold_left_measure _ _ (fun M => coeff M a b) _
             (fun f => Rsum (map (fun e => edge_delta st f e a b) (seq 0 3)))).
  - cbn [sp_resize coeff]. unfold edges_sum. ring.
  - intros M f Hf. apply in_seq in Hf.
    apply (@fold_left_measure _ _ (fun M => coeff M a b)).
    intros M' e He. apply in_seq in He. apply M2_edge_step_coeff; auto; lia.
Qed.

Lemma Precompute_M1_dims :
  sp_rows (Precompute_M1 st) = (length (free_ st) + 3 * rows (vertices_ st))%nat /\
  sp_cols (Precompute_M1 st) = (length (free_ st) + 3 * rows (vertices_ st))%nat.
Proof.
  unfold Precompute_M1.
  set (n := (length (free_ st) + 3 * rows (vertices_ st))%nat).
  apply fold_left_invariant with (P := fun M => sp_rows M = n /\ sp_cols M = n).
  - intros M f _ HM.
    apply fold_left_invariant with (P := fun M => sp_rows M = n /\ sp_cols M = n);
      [|exact HM].
    intros M' e _ HM'. unfold M1_edge_step. change (seq 0 3) with [0; 1; 2]%nat.
    destruct (type (info_at st _)), (type (info_at st _));
      cbn [is_free fold_left]; exact HM'.
  - apply fold_left_invariant with (P := fun M => sp_rows M = n /\ sp_cols M = n).
    + intros M i _ HM. exact HM.
    + split; reflexivity.
Qed.

Lemma Precompute_M2_dims :
  sp_rows (Precompute_M2 st) = (length (free_ st) + 3 * rows (vertices_ st))%nat /\
  sp_cols (Precompute_M2 st) = (length (free_ st) + 3 * rows (vertices_ st))%nat.
Proof.
  unfold Precompute_M2.
  set (n := (length (free_ st) + 3 * rows (vertices_ st))%nat).
  apply fold_left_invariant with (P := fun M => sp_rows M = n /\ sp_cols M = n).
  - intros M v _ HM. exact HM.
  - apply fold_left_invariant with (P := fun M => sp_rows M = n /\ sp_cols M = n).
    + intros M f _ HM.
      apply fold_left_invariant with (P := fun M => sp_rows M = n /\ sp_cols M = n);
        [|exact HM].
      intros M' e _ HM'. exact HM'.
    + split; reflexivity.
Qed.

(** C1 (amended): in exact arithmetic, on a mesh whose faces name three
    distinct vertices of the mesh, with the free/fixed bookkeeping of the
    base class and for any rho, the direct-gradient assembly and the
    normal-equations assembly build matrices of the same shape whose entries
    are equal.  On doubles the entries agree up to rounding only: the two
    methods sum an entry in different orders, and the results may be more
    than 1e-9 apart (see the wide quad below). *)
Theorem system_matrix_methods_agree :
  partition_wf st -> faces_in_range st -> faces_nondegenerate st ->
  sp_rows (Precompute_M1 st) = sp_rows (Precompute_M2 st) /\
  sp_cols (Precompute_M1 st) = sp_cols (Precompute_M2 st) /\
  (forall i j, coeff (Precompute_M1 st) i j = coeff (Precompute_M2 st) i j).
Proof.
  intros Hp Hr Hdeg.
  destruct Precompute_M1_dims as [R1 C1]. destruct Precompute_M2_dims as [R2 C2].
  split; [congruence|]. split; [congruence|].
  intros i j. rewrite Precompute_M1_coeff, Precompute_M2_coeff by assumption.
  reflexivity.
Qed.

End SystemMatrixProofs.

(* ================================================================= *)
(** ** The theorems at work on the demo mesh *)

Ltac demo_compute :=
  cbv -[Rplus Rminus Rmult Ropp Rinv Rdiv IZR Rabs sqrt Rgt_dec Rlt_dec
        Rle Rlt Rgt Rge].

Section DemoFacts.

Lemma demo_partition_wf st :
  vertices_ st = demo_vertices -> free_ st = [1%nat; 2%nat] ->
  vertex_info_ st = [mkInfo Fixed 0; mkInfo Free 0; mkInfo Free 1] ->
  partition_wf st.
Proof.
  intros Hv Hf Hi. unfold partition_wf, info_at. rewrite Hv, Hf, Hi.
  split; [repeat constructor; simpl; intuition lia|].
  split; [repeat constructor|].
  intros v Hv' Ht. simpl in Hv'.
  destruct v as [|[|[|v]]]; simpl in *; try discriminate; try lia; split; auto.
Qed.

Lemma demo_faces_in_range st :
  vertices_ st = demo_vertices -> faces_ st = [mkFace 0 1 2] ->
  faces_in_range st.
Proof.
  intros Hv Hf. unfold faces_in_range. rewrite Hv, Hf.
  repeat constructor.
Qed.

Lemma demo_faces_nondegenerate st :
  faces_ st = [mkFace 0 1 2] -> faces_nondegenerate st.
Proof.
  intros Hf. unfold faces_nondegenerate. rewrite Hf.
  repeat constructor; simpl; lia.
Qed.

Lemma demo_ready_returns :
  SolvePreprocess demo_solver [mkV3 0 0 0] = Returns demo_ready.
Proof. reflexivity. Qed.

Lemma demo_moved_returns :
  SolvePreprocess demo_solver [mkV3 (1 / 10) 0 0] = Returns demo_moved.
Proof. reflexivity. Qed.

End DemoFacts.

(* ================================================================= *)
(** ** The two assemblies on the wide quad, in binary64 and over the reals *)

Section WideQuad.

Lemma powerRZ_2_m27 : powerRZ 2 (-27) = 1 / 134217728.
Proof.
  change (powerRZ 2 (-27)) with (/ 2 ^ 27).
  replace (2 ^ 27) with 134217728 by (simpl; lra). lra.
Qed.

(** C1 as worded fails on doubles.
    In binary64 the weights of the wide quad are exact, and so is every
    product the two methods form; what differs is the order in which the
    diagonal entry of the first rotation unknown of vertex 0 is summed:
    (rho + 2^24) + 2^24 in the first method, (2^24 + 2^24) + rho in the
    second.  The first sum is rounded twice, and ends one unit in the last
    place (2^-27, about 7.45e-9) above the second. *)
Lemma system_matrix_methods_differ_binary64 :
  (0 <? rho64 wide_quad64_weighted)%float = true /\
  ComputeCotangent64 wide_quad64 0 = mkV3f 1 0 1 /\
  ComputeCotangent64 wide_quad64 1 = mkV3f 1 0 1 /\
  coeff64 (Precompute_M1_64 wide_quad64_weighted) 3 3
    = 0x1.0000000147ae2p+25%float /\
  coeff64 (Precompute_M2_64 wide_quad64_weighted) 3 3
    = 0x1.0000000147ae1p+25%float /\
  B2R (coeff64 (Precompute_M1_64 wide_quad64_weighted) 3 3)
  - B2R (coeff64 (Precompute_M2_64 wide_quad64_weighted) 3 3) = 1 / 134217728 /\
  ~ methods_agree64 wide_quad64_weighted.
Proof.
  assert (E1 : Prim2SF (coeff64 (Precompute_M1_64 wide_quad64_weighted) 3 3)
               = S754_finite false 4503599628712674 (-27))
    by (vm_compute; reflexivity).
  assert (E2 : Prim2SF (coeff64 (Precompute_M2_64 wide_quad64_weighted) 3 3)
               = S754_finite false 4503599628712673 (-27))
    by (vm_compute; reflexivity).
  assert (D : B2R (coeff64 (Precompute_M1_64 wide_quad64_weighted) 3 3)
              - B2R (coeff64 (Precompute_M2_64 wide_quad64_weighted) 3 3)
              = 1 / 134217728).
  { unfold B2R. rewrite E1, E2, powerRZ_2_m27. lra. }
  split; [vm_compute; reflexivity|].
  split; [vm_compute; reflexivity|].
  split; [vm_compute; reflexivity|].
  split; [vm_compute; reflexivity|].
  split; [vm_compute; reflexivity|].
  split; [exact D|].
  intros H. specialize (H 3%nat 3%nat). rewrite D in H.
  rewrite Rabs_pos_eq in H by lra. lra.
Qed.

(** A face that names a vertex twice has no area: [ComputeCotangent]
    divides by zero there, and the weights it feeds are not numbers. *)
Lemma folded_face_cotangent64 :
  PrimFloat.is_nan (fx (ComputeCotangent64 folded64 0)) = true /\
  PrimFloat.is_nan (fy (ComputeCotangent64 folded64 0)) = true /\
  PrimFloat.is_infinity (fz (ComputeCotangent64 folded64 0)) = true /\
  PrimFloat.is_nan (coeff64 (Precompute_weight64 folded64) 0 1) = true.
Proof. repeat split; vm_compute; reflexivity. Qed.

Lemma wide_quad_partition_wf : partition_wf wide_quad_weighted.
Proof.
  unfold partition_wf, info_at. simpl.
  split; [repeat constructor; simpl; intuition lia|].
  split; [repeat constructor|].
  intros v Hv' Ht.
  destruct v as [|[|[|[|v]]]]; simpl in *; try discriminate; try lia; split; auto.
Qed.

Lemma wide_quad_faces_in_range : faces_in_range wide_quad_weighted.
Proof. unfold faces_in_range. simpl. repeat constructor. Qed.

Lemma wide_quad_faces_nondegenerate : faces_nondegenerate wide_quad_weighted.
Proof. unfold faces_nondegenerate. simpl. repeat constructor; simpl; lia. Qed.

Lemma wide_quad_cotangents :
  ComputeCotangent wide_quad 0 = mkV3 1 0 1 /\
  ComputeCotangent wide_quad 1 = mkV3 1 0 1.
Proof.
  split; unfold ComputeCotangent, norm; demo_compute.
  - match goal with |- context [sqrt ?x] =>
      replace x with (16777216 * 16777216) by lra end.
    rewrite sqrt_square by lra. f_equal; lra.
  - match goal with |- context [sqrt ?x] =>
      replace x with (33554432 * 33554432) by lra end.
    rewrite sqrt_square by lra. f_equal; lra.
Qed.

Lemma wide_quad_weights :
  coeff (Precompute_weight wide_quad) 0 1 = 1 / 2 /\
  coeff (Precompute_weight wide_quad) 0 2 = 1 / 2.
Proof.
  destruct wide_quad_cotangents as [C0 C1].
  unfold Precompute_weight. cbn [length faces_ wide_quad seq fold_left].
  unfold weight_face_step. rewrite C0, C1.
  split; demo_compute; lra.
Qed.

Lemma wide_quad_entry :
  coeff (Precompute_M1 wide_quad_weighted) 3 3 = 33554432 + 1 / 100.
Proof.
  destruct wide_quad_weights as [W01 W02].
  unfold wide_quad_weighted.
  destruct (Precompute_weight wide_quad) as [r c w]. cbn [coeff] in W01, W02.
  demo_compute. rewrite W01, W02. lra.
Qed.

End WideQuad.


Section DemoWitnesses.

(** The two assemblies agree on the wide quad in exact arithmetic. *)
Lemma system_matrix_methods_agree_demo :
  partition_wf wide_quad_weighted /\ faces_in_range wide_quad_weighted /\
  faces_nondegenerate wide_quad_weighted /\
  sp_rows (Precompute_M1 wide_quad_weighted)
    = sp_rows (Precompute_M2 wide_quad_weighted) /\
  sp_cols (Precompute_M1 wide_quad_weighted)
    = sp_cols (Precompute_M2 wide_quad_weighted) /\
  (forall i j, coeff (Precompute_M1 wide_quad_weighted) i j =
               coeff (Precompute_M2 wide_quad_weighted) i j) /\
  (* the entry on which the doubles disagree *)
  coeff (Precompute_M1 wide_quad_weighted) 3 3 = 33554432 + 1 / 100 /\
  coeff (Precompute_M2 wide_quad_weighted) 3 3 = 33554432 + 1 / 100.
Proof.
  pose proof wide_quad_partition_wf as Hp.
  pose proof wide_quad_faces_in_range as Hr.
  pose proof wide_quad_faces_nondegenerate as Hd.
  destruct (@system_matrix_methods_agree wide_quad_weighted Hp Hr Hd)
    as [Hrows [Hcols Heq]].
  split; [exact Hp|]. split; [exact Hr|]. split; [exact Hd|].
  split; [exact Hrows|]. split; [exact Hcols|]. split; [exact Heq|].
  split; [exact wide_quad_entry|].
  rewrite <- Heq. exact wide_quad_entry.
Defined.

(** The cotangents of the scalene triangle (0,0,0), (4,0,0), (1,3,0). *)
Lemma scalene_cotangent :
  ComputeCotangent scalene_solver 0 = mkV3 (1 / 3) 1 (1 / 2).
Proof.
  unfold ComputeCotangent, norm. demo_compute.
  match goal with |- context [sqrt ?x] => replace x with (12 * 12) by lra end.
  rewrite sqrt_square by lra. f_equal; lra.
Qed.

(** The weights of the scalene triangle: symmetric, the diagonal entry of
    vertex 1 is the negated sum of the rest of its row, and each side carries
    half the cotangent of the corner across it. *)
Lemma Precompute_weight_laplacian_demo :
  let W := Precompute_weight scalene_solver in
  faces_in_range scalene_solver /\
  (forall i j, coeff W i j = coeff W j i) /\
  coeff W 1 1 = - sum_n 3 (fun j => if (j =? 1)%nat then 0 else coeff W 1 j) /\
  coeff W 1 2 = 1 / 3 / 2 /\ coeff W 2 0 = 1 / 2 /\ coeff W 0 1 = 1 / 2 / 2.
Proof.
  intros W.
  assert (Hr : faces_in_range scalene_solver) by (repeat constructor).
  destruct (Precompute_weight_laplacian scalene_solver) as [Hs [Hd Ho]].
  fold W in Hs, Hd, Ho.
  split; [exact Hr|]. split; [exact Hs|].
  split; [apply (Hd 1%nat Hr); simpl; lia|].
  rewrite (Ho 1%nat 2%nat), (Ho 2%nat 0%nat), (Ho 0%nat 1%nat) by lia.
  unfold sum_n. cbn [length faces_ scalene_solver seq map Rsum fold_right].
  rewrite scalene_cotangent.
  cbn [face_at nth opposite_edge_joins other_corners filter Nat.eqb negb map
       fidx fa fb fc andb orb vget vx vy vz].
  repeat split; lra.
Defined.

(** The unit equilateral triangle: every cotangent is 1 / sqrt 3. *)
Lemma ComputeCotangent_equilateral :
  triangle_area (corner equilateral_solver 0 0) (corner equilateral_solver 0 1)
                (corner equilateral_solver 0 2) <> 0 /\
  ComputeCotangent equilateral_solver 0 =
  mkV3 (1 / sqrt 3) (1 / sqrt 3) (1 / sqrt 3).
Proof.
  pose proof (sqrt_sqrt 3 ltac:(lra)) as H3.
  pose proof (sqrt_lt_R0 3 ltac:(lra)) as Hpos.
  assert (Ha : sqdist (corner equilateral_solver 0 1) (corner equilateral_solver 0 2) = 1)
    by (unfold sqdist, squaredNorm, dot, vsub; simpl; nra).
  assert (Hb : sqdist (corner equilateral_solver 0 2) (corner equilateral_solver 0 0) = 1)
    by (unfold sqdist, squaredNorm, dot, vsub; simpl; nra).
  assert (Hc : sqdist (corner equilateral_solver 0 0) (corner equilateral_solver 0 1) = 1)
    by (unfold sqdist, squaredNorm, dot, vsub; simpl; nra).
  assert (Hnd : triangle_area (corner equilateral_solver 0 0)
                  (corner equilateral_solver 0 1) (corner equilateral_solver 0 2) <> 0).
  { pose proof (equilateral_area Ha Hb Hc). lra. }
  split; [exact Hnd|].
  exact (proj2 (proj2 (@ComputeCotangent_correct equilateral_solver 0 Hnd)) Ha Hb Hc).
Defined.

(** SolvePreprocess on the demo mesh with the fixed vertex moved. *)
Lemma SolvePreprocess_seeds_demo :
  fixed_wf demo_solver /\
  SolvePreprocess demo_solver [mkV3 (1 / 10) 0 0] = Returns demo_moved /\
  row (vertices_updated_ demo_moved) 0 = mkV3 (1 / 10) 0 0 /\
  row (vertices_updated_ demo_moved) 1 = mkV3 1 0 0 /\
  mat_at (rotations_ demo_moved) 2 = Identity /\
  mat_at (S_ demo_moved) 2 = Identity /\
  mat_at (T_ demo_moved) 2 = Zero.
Proof.
  assert (Hwf : fixed_wf demo_solver).
  { split; simpl; repeat constructor; simpl; intuition lia. }
  destruct (@SolvePreprocess_seeds demo_solver [mkV3 (1 / 10) 0 0] demo_moved
              Hwf demo_moved_returns) as [H1 [H2 [_ [_ [_ [_ H3]]]]]].
  split; [exact Hwf|]. split; [exact demo_moved_returns|].
  split; [apply (H1 0%nat); simpl; lia|].
  split; [apply (H2 1%nat); simpl; intuition lia|].
  apply (H3 2%nat). simpl. lia.
Defined.

(** A target matrix without rows stops the demo solver. *)
Lemma SolvePreprocess_dimension_check_demo :
  rows (@nil Vector3d) <> length (fixed_ demo_solver) /\
  exists st', SolvePreprocess demo_solver [] =
              Exits "Wrong dimension in fixed number." st'.
Proof.
  assert (H : rows (@nil Vector3d) <> length (fixed_ demo_solver))
    by (simpl; lia).
  split; [exact H|].
  exact (proj1 (SolvePreprocess_dimension_check demo_solver []) H).
Defined.

(** The frame of SolvePreprocess on the demo mesh, at a failed check. *)
Lemma SolvePreprocess_frame_demo :
  rows [mkV3 1 1 1; mkV3 2 2 2] <> length (fixed_ demo_moved) /\
  exists msg st',
    SolvePreprocess demo_moved [mkV3 1 1 1; mkV3 2 2 2] = Exits msg st' /\
    fixed_vertices_ st' = [mkV3 1 1 1; mkV3 2 2 2] /\
    vertices_updated_ st' = vertices_updated_ demo_moved /\
    rotations_ st' = rotations_ demo_moved /\
    S_ st' = S_ demo_moved /\ T_ st' = T_ demo_moved.
Proof.
  assert (H : rows [mkV3 1 1 1; mkV3 2 2 2] <> length (fixed_ demo_moved))
    by (simpl; lia).
  split; [exact H|].
  exact (proj1 (SolvePreprocess_frame demo_moved [mkV3 1 1 1; mkV3 2 2 2]) H).
Defined.

End DemoWitnesses.

Section DemoIteration.

Lemma msquaredNorm_nonneg m : 0 <= msquaredNorm m.
Proof.
  unfold msquaredNorm.
  pose proof (squaredNorm_nonneg (mr0 m)).
  pose proof (squaredNorm_nonneg (mr1 m)).
  pose proof (squaredNorm_nonneg (mr2 m)). lra.
Qed.


Lemma demo_moved_build_rhs : build_rhs demo_moved = demo_moved_rhs.
Proof. demo_compute. repeat (f_equal; try lra). Qed.


Lemma demo_moved_linear_solve :
  LinearSolve demo_cholesky_solve demo_moved =
  Returns (write_back demo_moved demo_moved_rhs).
Proof.
  unfold LinearSolve. rewrite demo_moved_build_rhs.
  change (snd (demo_cholesky_solve (solver_ demo_moved) demo_moved_rhs)) with Success.
  change (fst (demo_cholesky_solve (solver_ demo_moved) demo_moved_rhs))
    with demo_moved_rhs.
  cbn [is_success negb].
  change (rows demo_moved_rhs =? length (free_ demo_moved) + 3 * rows (vertices_ demo_moved))%nat
    with true.
  cbn [negb].
  destruct (Rgt_dec _ _) as [G|G]; [exfalso | reflexivity].
  revert G. demo_compute. lra.
Qed.

Lemma demo_moved_iteration :
  SolveOneIteration demo_cholesky_solve demo_polar demo_moved =
  Returns (UpdateT (SVDSolve demo_polar (write_back demo_moved demo_moved_rhs))).
Proof.
  unfold SolveOneIteration. now rewrite demo_moved_linear_solve.
Qed.

Lemma demo_state_wf st :
  SolvePreprocess demo_solver [mkV3 0 0 0] = Returns st \/
  SolvePreprocess demo_solver [mkV3 (1 / 10) 0 0] = Returns st ->
  state_wf st.
Proof.
  intros [H|H]; injection H as <-; repeat split.
Qed.

(** The energy of the demo mesh at rest is finite; with an S_0 that is no
    rotation ComputeEnergy returns infinity. *)
Lemma ComputeEnergy_breakdown_demo :
  (forall v, (v < rows (vertices_ demo_ready))%nat ->
             SO3_invariant (mat_at (S_ demo_ready) v)) /\
  energy_of (ComputeEnergy demo_ready) "Total" =
    Some (Finite (arap_term demo_ready + rotation_term demo_ready)) /\
  (exists v, (v < rows (vertices_ demo_broken))%nat /\
             ~ SO3_invariant (mat_at (S_ demo_broken) v)) /\
  ComputeEnergy demo_broken = [("Total"%string, PosInfinity)].
Proof.
  assert (H1 : forall v, (v < rows (vertices_ demo_ready))%nat ->
                         SO3_invariant (mat_at (S_ demo_ready) v)).
  { intros v Hv. change (rows (vertices_ demo_ready)) with 3%nat in Hv.
    apply exact_rotation_invariant.
    destruct v as [|[|[|v]]]; [apply Identity_exact .. | lia]. }
  assert (H2 : exists v, (v < rows (vertices_ demo_broken))%nat /\
                         ~ SO3_invariant (mat_at (S_ demo_broken) v)).
  { exists 0%nat. split; [simpl; lia|].
    intros [Ho _]. revert Ho. demo_compute. lra. }
  split; [exact H1|].
  split; [exact (proj1 (proj2 (proj2 (proj1 (ComputeEnergy_breakdown demo_ready) H1))))|].
  split; [exact H2|].
  exact (proj1 (proj2 (ComputeEnergy_breakdown demo_broken) H2)).
Defined.

(** One iteration of the demo solver passes both checks; a solution without
    rows stops it. *)
(** One iteration of the demo solver, step by step. *)
Lemma SolveOneIteration_steps_demo :
  let st' := UpdateT (SVDSolve demo_polar (write_back demo_moved demo_moved_rhs)) in
  partition_wf demo_moved /\ faces_in_range demo_moved /\ state_wf demo_moved /\
  SolveOneIteration demo_cholesky_solve demo_polar demo_moved = Returns st' /\
  rows (build_rhs demo_moved) = 11%nat /\
  block (rhs_rotation demo_moved) 8 =
    mscale (rho_ demo_moved)
           (transpose (msub (mat_at (S_ demo_moved) 2) (mat_at (T_ demo_moved) 2))) /\
  row (vertices_updated_ st') 1 =
    row (fst (demo_cholesky_solve (solver_ demo_moved) (build_rhs demo_moved))) 0 /\
  mat_at (S_ st') 2 =
    demo_polar (madd (mat_at (rotations_ st') 2) (mat_at (T_ demo_moved) 2)) /\
  mat_at (T_ st') 2 =
    madd (mat_at (T_ demo_moved) 2)
         (msub (mat_at (rotations_ st') 2) (mat_at (S_ st') 2)).
Proof.
  intros st'.
  pose proof (@demo_partition_wf demo_moved eq_refl eq_refl eq_refl) as Hp.
  pose proof (@demo_faces_in_range demo_moved eq_refl eq_refl) as Hr.
  pose proof (@demo_state_wf demo_moved (or_intror demo_moved_returns)) as Hw.
  destruct (@SolveOneIteration_steps demo_cholesky_solve demo_polar demo_moved st'
              Hp Hr Hw demo_moved_iteration)
    as [H1 [H2 [_ [_ [H5 [_ H7]]]]]].
  split; [exact Hp|]. split; [exact Hr|]. split; [exact Hw|].
  split; [exact demo_moved_iteration|].
  split; [exact H1|].
  split; [apply (H2 2%nat); simpl; lia|].
  split; [apply (H5 0%nat); simpl; lia|].
  destruct (H7 2%nat ltac:(simpl; lia)) as [_ [HS HT]].
  split; [exact HS | exact HT].
Defined.

(** The projection step on the demo solver at rest. *)
End DemoIteration.

(* ================================================================= *)
(** ** The model at work on the demo mesh: values computed by hand *)

Section DemoValues.

(** The right triangle has a right angle at vertex 0 and two angles of 45
    degrees: cotangents 0, 1, 1. *)
Example demo_cotangent : ComputeCotangent demo_solver 0 = mkV3 0 1 1.
Proof.
  unfold ComputeCotangent, norm. demo_compute.
  match goal with |- context [sqrt ?x] => replace x with 1 by lra end.
  rewrite sqrt_1. f_equal; lra.
Qed.

(** Its weights: half the cotangent opposite to each edge, and the negated
    row sums on the diagonal. *)
Example demo_weights :
  coeff (Precompute_weight demo_solver) 1 2 = 0 /\
  coeff (Precompute_weight demo_solver) 2 0 = 1 / 2 /\
  coeff (Precompute_weight demo_solver) 0 1 = 1 / 2 /\
  coeff (Precompute_weight demo_solver) 0 0 = - 1 /\
  coeff (Precompute_weight demo_solver) 1 1 = - 1 / 2.
Proof.
  unfold Precompute_weight. cbn [length faces_ demo_solver seq fold_left].
  unfold weight_face_step. rewrite demo_cotangent.
  demo_compute. repeat split; lra.
Qed.

(** Entries of the System Matrix for the weights [demo_weight], by both
    methods: the two free vertices sit at rows 0 and 1, the first rotation
    unknown of vertex 0 at row 2. *)
Example demo_system_matrix :
  coeff (Precompute_M1 demo_solver) 0 0 = 2 /\
  coeff (Precompute_M2 demo_solver) 0 0 = 2 /\
  coeff (Precompute_M1 demo_solver) 0 1 = - 1 /\
  coeff (Precompute_M2 demo_solver) 0 1 = - 1 /\
  coeff (Precompute_M1 demo_solver) 2 2 = 2 /\
  coeff (Precompute_M2 demo_solver) 2 2 = 2.
Proof.
  demo_compute. repeat split; lra.
Qed.

(** The energy once the fixed vertex has moved by 1/10: the two edges at the
    fixed vertex are each off by 1/10 and weigh 1/2. *)
Example demo_energy :
  ComputeEnergy demo_moved =
  [("Total"%string, Finite (1 / 100)); ("Rotation"%string, Finite 0);
   ("ARAP"%string, Finite (1 / 100))].
Proof.
  rewrite ComputeEnergy_finite.
  - unfold arap_term, rotation_term. demo_compute. repeat (f_equal; try lra).
  - intros v Hv. change (rows (vertices_ demo_moved)) with 3%nat in Hv.
    apply exact_rotation_invariant.
    destruct v as [|[|[|v]]]; [apply Identity_exact .. | lia].
Qed.

(** The first iteration after that move: the solver of the demo answers the
    right-hand side itself, so the free vertices move to the first two rows
    and R_v is the transposed block of v. *)
Example demo_iteration_values :
  exists st',
    SolveOneIteration demo_cholesky_solve demo_polar demo_moved = Returns st' /\
    row (vertices_updated_ st') 0 = mkV3 (1 / 10) 0 0 /\
    row (vertices_updated_ st') 1 = mkV3 (1 / 10) 0 0 /\
    mat_at (rotations_ st') 0 = mkM3 (mkV3 (9 / 10) 0 0) (mkV3 0 1 0) (mkV3 0 0 1) /\
    mat_at (rotations_ st') 2 = mkM3 (mkV3 1 (- 1 / 10) 0) (mkV3 0 1 0) (mkV3 0 0 1) /\
    mat_at (S_ st') 2 = Identity /\
    mat_at (T_ st') 2 = mkM3 (mkV3 0 (- 1 / 10) 0) (mkV3 0 0 0) (mkV3 0 0 0).
Proof.
  eexists. split; [exact demo_moved_iteration|].
  demo_compute. repeat split; repeat (f_equal; try lra).
Qed.

End DemoValues.

(* ================================================================= *)
(** * Further properties of the solver *)

(** ** IsSO3, ComputeCotangent and the Weight Matrix *)

Section KernelFacts.

(** X1: IsSO3 accepts every proper rotation and rejects every orthogonal
    matrix of determinant -1. *)
Theorem IsSO3_rotations_only (Q : Matrix3d) :
  (exact_rotation Q -> IsSO3 Q = true) /\
  (mmul Q (transpose Q) = Identity -> determinant Q = -1 -> IsSO3 Q = false).
Proof.
  split.
  - intros H. apply IsSO3_true. now apply exact_rotation_invariant.
  - intros Ho Hd. destruct (IsSO3 Q) eqn:E; [|reflexivity].
    apply IsSO3_true in E. destruct E as [_ E]. rewrite Hd in E.
    replace (-1 - 1) with (-2) in E by ring.
    rewrite Rabs_left in E by lra. lra.
Qed.

Lemma IsSO3_rotations_only_demo :
  exact_rotation Identity /\ IsSO3 Identity = true /\
  mmul demo_reflection (transpose demo_reflection) = Identity /\
  determinant demo_reflection = -1 /\ IsSO3 demo_reflection = false.
Proof.
  assert (Ho : mmul demo_reflection (transpose demo_reflection) = Identity)
    by (demo_compute; repeat (f_equal; try lra)).
  assert (Hd : determinant demo_reflection = -1) by (demo_compute; lra).
  split; [exact Identity_exact|].
  split; [exact (proj1 (IsSO3_rotations_only Identity) Identity_exact)|].
  split; [exact Ho|]. split; [exact Hd|].
  exact (proj2 (IsSO3_rotations_only demo_reflection) Ho Hd).
Defined.

Lemma heron_cotangent A B C :
  let x := sqdist C A + sqdist A B - sqdist B C in
  let y := sqdist A B + sqdist B C - sqdist C A in
  let z := sqdist B C + sqdist C A - sqdist A B in
  x * y + y * z + z * x = 4 * squaredNorm (cross (vsub B A) (vsub C A)).
Proof. destruct A, B, C; vec_unfold; ring. Qed.

(** X2: on a face of non-zero area the three values ComputeCotangent returns
    satisfy cotA cotB + cotB cotC + cotC cotA = 1, the identity of the
    cotangents of three angles that add up to a straight angle. *)
Theorem ComputeCotangent_angle_sum (st : Solver) (f : nat) :
  triangle_area (corner st f 0) (corner st f 1) (corner st f 2) <> 0 ->
  let cot := ComputeCotangent st f in
  vx cot * vy cot + vy cot * vz cot + vz cot * vx cot = 1.
Proof.
  intros Hnd cot. subst cot. unfold ComputeCotangent.
  fold (corner st f 0) (corner st f 1) (corner st f 2).
  set (A := corner st f 0) in *. set (B := corner st f 1) in *.
  set (C := corner st f 2) in *.
  fold (sqdist B C) (sqdist C A) (sqdist A B).
  pose proof (heron_cotangent A B C) as Hh. cbv zeta in Hh.
  unfold triangle_area in Hnd. cbn [vx vy vz].
  set (n := norm (cross (vsub B A) (vsub C A))) in *.
  assert (Hn : n * n = squaredNorm (cross (vsub B A) (vsub C A))).
  { unfold n, norm. apply sqrt_sqrt. apply squaredNorm_nonneg. }
  assert (Hn0 : n <> 0) by (intros E; apply Hnd; rewrite E; lra).
  rewrite <- Hn in Hh.
  set (a2 := sqdist B C) in *. set (b2 := sqdist C A) in *.
  set (c2 := sqdist A B) in *.
  assert (E : (b2 + c2 - a2) * (c2 + a2 - b2) + (c2 + a2 - b2) * (a2 + b2 - c2)
              + (a2 + b2 - c2) * (b2 + c2 - a2) = 4 * (n * n)) by lra.
  assert (n * n <> 0) by nra.
  apply Rmult_eq_reg_r with (4 * (n * n)); [|lra].
  rewrite Rmult_1_l. rewrite <- E at 2. field. exact Hn0.
Qed.

Lemma ComputeCotangent_angle_sum_demo :
  triangle_area (corner equilateral_solver 0 0) (corner equilateral_solver 0 1)
                (corner equilateral_solver 0 2) <> 0 /\
  vx (ComputeCotangent equilateral_solver 0) * vy (ComputeCotangent equilateral_solver 0)
  + vy (ComputeCotangent equilateral_solver 0) * vz (ComputeCotangent equilateral_solver 0)
  + vz (ComputeCotangent equilateral_solver 0) * vx (ComputeCotangent equilateral_solver 0)
  = 1.
Proof.
  pose proof (sqrt_sqrt 3 ltac:(lra)) as H3.
  pose proof (sqrt_lt_R0 3 ltac:(lra)) as Hpos.
  assert (Ha : sqdist (corner equilateral_solver 0 1) (corner equilateral_solver 0 2) = 1)
    by (unfold sqdist, squaredNorm, dot, vsub; simpl; nra).
  assert (Hb : sqdist (corner equilateral_solver 0 2) (corner equilateral_solver 0 0) = 1)
    by (unfold sqdist, squaredNorm, dot, vsub; simpl; nra).
  assert (Hc : sqdist (corner equilateral_solver 0 0) (corner equilateral_solver 0 1) = 1)
    by (unfold sqdist, squaredNorm, dot, vsub; simpl; nra).
  assert (Hnd : triangle_area (corner equilateral_solver 0 0)
                  (corner equilateral_solver 0 1) (corner equilateral_solver 0 2) <> 0).
  { pose proof (equilateral_area Ha Hb Hc). lra. }
  split; [exact Hnd|].
  exact (@ComputeCotangent_angle_sum equilateral_solver 0 Hnd).
Defined.

Lemma face_at_names st f k :
  face_names (face_at (faces_ st) f) (fidx (face_at (faces_ st) f) k).
Proof. unfold face_names. destruct k as [|[|k]]; simpl; auto. Qed.

(** X3: the Weight Matrix is as sparse as the mesh: an off-diagonal entry
    (i, j) is zero unless some face names both i and j, that is, unless
    some triangle has a side joining them. *)
Theorem Precompute_weight_sparsity (st : Solver) (i j : nat) :
  i <> j ->
  (forall t, In t (faces_ st) -> ~ (face_names t i /\ face_names t j)) ->
  coeff (Precompute_weight st) i j = 0.
Proof.
  intros Hij Hno. rewrite Precompute_weight_offdiag by assumption.
  unfold sum_n at 1.
  rewrite (@Rsum_map_ext _ _ (fun _ => 0)); [apply Rsum_map_zero|].
  intros f Hf. apply in_seq in Hf. unfold sum_n.
  rewrite (@Rsum_map_ext _ _ (fun _ => 0)); [apply Rsum_map_zero|].
  intros k _. destruct (index_map_routes st f k i j) eqn:E; [|reflexivity].
  exfalso. apply (Hno (face_at (faces_ st) f)); [apply nth_In; lia|].
  unfold index_map_routes, at_entry in E.
  pose proof (face_at_names st f (fst (index_map k))) as N1.
  pose proof (face_at_names st f (snd (index_map k))) as N2.
  apply orb_true_iff in E. destruct E as [E|E];
    apply andb_true_iff in E; destruct E as [E1 E2];
    apply Nat.eqb_eq in E1; apply Nat.eqb_eq in E2; subst i j; tauto.
Qed.

Lemma demo_quad_cotangents :
  ComputeCotangent demo_quad 0 = mkV3 0 1 1 /\
  ComputeCotangent demo_quad 1 = mkV3 1 0 1.
Proof.
  split; unfold ComputeCotangent, norm; demo_compute;
    match goal with |- context [sqrt ?x] => replace x with 1 by lra end;
    rewrite sqrt_1; f_equal; lra.
Qed.

Lemma Precompute_weight_sparsity_demo :
  (0 < rows (vertices_ demo_quad))%nat /\ (3 < rows (vertices_ demo_quad))%nat /\
  coeff (Precompute_weight demo_quad) 0 3 = 0 /\
  coeff (Precompute_weight demo_quad) 0 1 = 1 / 2.
Proof.
  split; [simpl; lia|]. split; [simpl; lia|]. split.
  - apply (@Precompute_weight_sparsity demo_quad 0 3); [lia|].
    intros t Ht [H0 H3]. unfold face_names in H0, H3.
    destruct Ht as [<-|[<-|[]]]; simpl in H0, H3; lia.
  - destruct demo_quad_cotangents as [C0 C1].
    unfold Precompute_weight. cbn [length faces_ demo_quad seq fold_left].
    unfold weight_face_step. rewrite C0, C1.
    demo_compute. lra.
Defined.

End KernelFacts.

(* ================================================================= *)
(** ** The System Matrix is symmetric and positive semi-definite *)

Section SystemMatrixShape.

Variable st : Solver.

Lemma Rsum_map_scale {X} (c : R) (g : X -> R) l :
  Rsum (map (fun x => c * g x) l) = c * Rsum (map g l).
Proof. induction l; simpl; [ring | rewrite IHl; ring]. Qed.

Lemma Rsum_map_scale_r {X} (c : R) (g : X -> R) l :
  Rsum (map (fun x => g x * c) l) = Rsum (map g l) * c.
Proof. induction l; simpl; [ring | rewrite IHl; ring]. Qed.

Lemma Rsum_exchange {X Y} (F : X -> Y -> R) lx ly :
  Rsum (map (fun a => Rsum (map (fun b => F a b) ly)) lx) =
  Rsum (map (fun b => Rsum (map (fun a => F a b) lx)) ly).
Proof.
  induction lx as [|a lx IH]; simpl.
  - now rewrite Rsum_map_zero.
  - rewrite IH, <- Rsum_map_plus. reflexivity.
Qed.

Lemma Rsum_map_nonneg {X} (g : X -> R) l :
  (forall x, In x l -> 0 <= g x) -> 0 <= Rsum (map g l).
Proof.
  induction l as [|h t IH]; simpl; intros H; [lra|].
  pose proof (H h (or_introl eq_refl)).
  pose proof (IH (fun x Hx => H x (or_intror Hx))). lra.
Qed.

(** A rank-one term summed twice is a square. *)
Lemma sum_rank_one n (c : R) (u x : nat -> R) :
  sum_n n (fun a => sum_n n (fun b => x a * (c * u a * u b) * x b)) =
  c * (sum_n n (fun a => u a * x a) * sum_n n (fun a => u a * x a)).
Proof.
  unfold sum_n.
  rewrite (@Rsum_map_ext _ _ (fun a => (c * (x a * u a)) *
                                   Rsum (map (fun b => u b * x b) (seq 0 n)))).
  - rewrite Rsum_map_scale_r.
    rewrite (@Rsum_map_ext _ (fun a => c * (x a * u a)) (fun a => c * (u a * x a)))
      by (intros; ring).
    rewrite Rsum_map_scale. ring.
  - intros a _. rewrite <- Rsum_map_scale. apply Rsum_map_ext. intros; ring.
Qed.

Lemma rotation_delta_rank_one v a b :
  rotation_delta st v a b =
  rho_ st * ind (a =? GetMatrixVariablePos st v 0)%nat * ind (b =? GetMatrixVariablePos st v 0)%nat
  + rho_ st * ind (a =? GetMatrixVariablePos st v 1)%nat * ind (b =? GetMatrixVariablePos st v 1)%nat
  + rho_ st * ind (a =? GetMatrixVariablePos st v 2)%nat * ind (b =? GetMatrixVariablePos st v 2)%nat.
Proof. unfold rotation_delta. ring. Qed.

(** X4: the System Matrix the first method assembles is symmetric, for every
    mesh, partition and weight matrix. *)
Theorem Precompute_M1_symmetric (a b : nat) :
  coeff (Precompute_M1 st) a b = coeff (Precompute_M1 st) b a.
Proof.
  rewrite !Precompute_M1_coeff. f_equal.
  - apply Rsum_map_ext. intros v _. unfold rotation_delta. ring.
  - unfold edges_sum. apply Rsum_map_ext. intros f _.
    apply Rsum_map_ext. intros e _. unfold edge_delta. ring.
Qed.

(** The quadratic form of the System Matrix as a sum of squares. *)
Lemma Precompute_M1_quadratic n x :
  quadratic_form (Precompute_M1 st) n x =
  Rsum (map (fun v =>
          rho_ st *
          (sum_n n (fun a => ind (a =? GetMatrixVariablePos st v 0)%nat * x a)
           * sum_n n (fun a => ind (a =? GetMatrixVariablePos st v 0)%nat * x a))
          + rho_ st *
          (sum_n n (fun a => ind (a =? GetMatrixVariablePos st v 1)%nat * x a)
           * sum_n n (fun a => ind (a =? GetMatrixVariablePos st v 1)%nat * x a))
          + rho_ st *
          (sum_n n (fun a => ind (a =? GetMatrixVariablePos st v 2)%nat * x a)
           * sum_n n (fun a => ind (a =? GetMatrixVariablePos st v 2)%nat * x a)))
        (seq 0 (rows (vertices_ st))))
  + Rsum (map (fun f => Rsum (map (fun e =>
          2 * coeff (weight_ st)
                (fidx (face_at (faces_ st) f) (fst (edge_map e)))
                (fidx (face_at (faces_ st) f) (snd (edge_map e)))
          * (edge_row_apply st n f e x * edge_row_apply st n f e x))
        (seq 0 3))) (seq 0 (length (faces_ st)))).
Proof.
  unfold quadratic_form.
  rewrite (@sum_n_ext n _
    (fun a => sum_n n (fun b =>
       Rsum (map (fun v => x a * rotation_delta st v a b * x b)
                 (seq 0 (rows (vertices_ st))))
       + Rsum (map (fun f => Rsum (map (fun e => x a * edge_delta st f e a b * x b)
                                        (seq 0 3)))
                   (seq 0 (length (faces_ st))))))).
  2:{ intros a _. apply sum_n_ext. intros b _.
      rewrite Precompute_M1_coeff. unfold edges_sum.
      rewrite Rmult_plus_distr_l, Rmult_plus_distr_r.
      rewrite <- Rsum_map_scale, <- Rsum_map_scale_r.
      f_equal.
      rewrite <- Rsum_map_scale, <- Rsum_map_scale_r.
      apply Rsum_map_ext. intros f _.
      rewrite <- Rsum_map_scale, <- Rsum_map_scale_r. reflexivity. }
  unfold sum_n at 1 2.
  rewrite (@Rsum_map_ext _ _
    (fun a => Rsum (map (fun b => Rsum (map (fun v => x a * rotation_delta st v a b * x b)
                                       (seq 0 (rows (vertices_ st))))) (seq 0 n))
              + Rsum (map (fun b => Rsum (map (fun f => Rsum (map (fun e =>
                                       x a * edge_delta st f e a b * x b) (seq 0 3)))
                                       (seq 0 (length (faces_ st))))) (seq 0 n))))
    by (intros; apply Rsum_map_plus).
  rewrite Rsum_map_plus. f_equal.
  - rewrite (@Rsum_map_ext _ _
      (fun a => Rsum (map (fun v => Rsum (map (fun b => x a * rotation_delta st v a b * x b)
                                              (seq 0 n)))
                          (seq 0 (rows (vertices_ st))))))
      by (intros; apply Rsum_exchange).
    rewrite Rsum_exchange. apply Rsum_map_ext. intros v _.
    rewrite <- !sum_rank_one. unfold sum_n.
    rewrite <- !Rsum_map_plus. apply Rsum_map_ext. intros a _.
    rewrite <- !Rsum_map_plus. apply Rsum_map_ext. intros b _.
    rewrite rotation_delta_rank_one. ring.
  - rewrite (@Rsum_map_ext _ _
      (fun a => Rsum (map (fun f => Rsum (map (fun b => Rsum (map (fun e =>
                        x a * edge_delta st f e a b * x b) (seq 0 3))) (seq 0 n)))
                          (seq 0 (length (faces_ st))))))
      by (intros; apply Rsum_exchange).
    rewrite Rsum_exchange. apply Rsum_map_ext. intros f _.
    rewrite (@Rsum_map_ext _ _
      (fun a => Rsum (map (fun e => Rsum (map (fun b =>
                        x a * edge_delta st f e a b * x b) (seq 0 n))) (seq 0 3))))
      by (intros; apply Rsum_exchange).
    rewrite Rsum_exchange. apply Rsum_map_ext. intros e _.
    unfold edge_row_apply. rewrite <- sum_rank_one. unfold sum_n.
    apply Rsum_map_ext. intros a _. apply Rsum_map_ext. intros b _.
    unfold edge_delta. ring.
Qed.

(** X5: for a non-negative rho and non-negative edge weights the System
    Matrix is positive semi-definite: x^T M x is a sum of squares weighted
    by rho and by twice the edge weights. *)
Theorem Precompute_M1_positive_semidefinite (n : nat) (x : nat -> R) :
  0 <= rho_ st -> edge_weights_nonneg st ->
  0 <= quadratic_form (Precompute_M1 st) n x.
Proof.
  intros Hrho Hw. rewrite Precompute_M1_quadratic.
  apply Rplus_le_le_0_compat.
  - apply Rsum_map_nonneg. intros v _.
    repeat apply Rplus_le_le_0_compat; apply Rmult_le_pos; try assumption; nra.
  - apply Rsum_map_nonneg. intros f Hf. apply in_seq in Hf.
    apply Rsum_map_nonneg. intros e He. apply in_seq in He.
    apply Rmult_le_pos; [|nra].
    specialize (Hw f e ltac:(lia) ltac:(lia)). lra.
Qed.

End SystemMatrixShape.

Section SystemMatrixShapeDemo.

Lemma demo_edge_weights_nonneg st :
  faces_ st = [mkFace 0 1 2] -> weight_ st = demo_weight ->
  edge_weights_nonneg st.
Proof.
  intros Hf Hw f e Hlt He. rewrite Hf in *. rewrite Hw. simpl in Hlt.
  destruct f as [|f]; [|lia].
  destruct e as [|[|[|e]]]; try lia; demo_compute; lra.
Qed.

Lemma Precompute_M1_positive_semidefinite_demo :
  0 <= rho_ demo_solver /\ edge_weights_nonneg demo_solver /\
  0 <= quadratic_form (Precompute_M1 demo_solver) 11 (fun a => INR a - 3).
Proof.
  assert (Hrho : 0 <= rho_ demo_solver) by (simpl; lra).
  pose proof (@demo_edge_weights_nonneg demo_solver eq_refl eq_refl) as Hw.
  split; [exact Hrho|]. split; [exact Hw|].
  exact (@Precompute_M1_positive_semidefinite demo_solver 11 (fun a => INR a - 3) Hrho Hw).
Defined.

End SystemMatrixShapeDemo.

(* ================================================================= *)
(** ** What the calls of a session keep *)

Section SessionProofs.

Variable cholesky_compute : SparseMatrix -> ComputationInfo.
Variable cholesky_solve : SparseMatrix -> MatrixXd -> MatrixXd * ComputationInfo.
Variable polar_svd3x3 : Matrix3d -> Matrix3d.

Lemma same_setup_refl st : same_setup st st.
Proof. repeat split. Qed.

Lemma same_setup_trans a b c : same_setup a b -> same_setup b c -> same_setup a c.
Proof.
  unfold same_setup. intros H1 H2.
  repeat match goal with H : _ /\ _ |- _ => destruct H end.
  repeat split; congruence.
Qed.

Lemma Precompute_weight_setup a b :
  vertices_ a = vertices_ b -> faces_ a = faces_ b ->
  Precompute_weight a = Precompute_weight b.
Proof.
  destruct a, b; cbn [vertices_ faces_]; intros -> ->. reflexivity.
Qed.

Lemma Precompute_M1_setup a b :
  vertices_ a = vertices_ b -> faces_ a = faces_ b -> free_ a = free_ b ->
  vertex_info_ a = vertex_info_ b -> rho_ a = rho_ b -> weight_ a = weight_ b ->
  Precompute_M1 a = Precompute_M1 b.
Proof.
  destruct a, b; cbn [vertices_ faces_ free_ vertex_info_ rho_ weight_].
  intros -> -> -> -> -> ->. reflexivity.
Qed.

Lemma SolvePreprocess_setup st fixed_vertices st' :
  SolvePreprocess st fixed_vertices = Returns st' -> same_setup st' st.
Proof.
  intros H. pose proof (SolvePreprocess_Returns_inv _ _ H) as Hrows.
  rewrite (SolvePreprocess_returns _ _ Hrows) in H. injection H as <-.
  repeat split.
Qed.

(** The state a returning iteration leaves, field by field. *)
Lemma SolveOneIteration_result st st' :
  SolveOneIteration cholesky_solve polar_svd3x3 st = Returns st' ->
  let solution := fst (cholesky_solve (solver_ st) (build_rhs st)) in
  same_setup st' st /\ fixed_vertices_ st' = fixed_vertices_ st /\
  vertices_updated_ st' =
    enforce_fixed (free_ st) solution (vertices_updated_ st) (length (free_ st)).
Proof.
  intros Hret solution.
  apply SolveOneIteration_Returns_inv in Hret. destruct Hret as [st1 [H1 ->]].
  apply LinearSolve_Returns_inv in H1. cbv zeta in H1.
  destruct H1 as [_ [_ [_ ->]]].
  rewrite UpdateT_eq, SVDSolve_eq, write_back_eq.
  repeat split.
Qed.

(** X6: a SolveOneIteration that terminates the process has changed nothing:
    the state at exit is the state at entry, and the line printed is one of
    the three of the linear-solve step; one that returns has written
    vertices_updated_, rotations_, S_ and T_ only. *)
Theorem SolveOneIteration_frame (st : Solver) :
  (forall msg st', SolveOneIteration cholesky_solve polar_svd3x3 st = Exits msg st' ->
     st' = st /\
     (msg = "Fail to solve the sparse linear system."%string \/
      msg = "Fail to write back solution: dimension mismatch."%string \/
      msg = "Sparse linear solver is wrong!"%string)) /\
  (forall st', SolveOneIteration cholesky_solve polar_svd3x3 st = Returns st' ->
     same_setup st' st /\ fixed_vertices_ st' = fixed_vertices_ st).
Proof.
  split.
  - intros msg st'. unfold SolveOneIteration, LinearSolve.
    destruct (negb (is_success _)); [intros H; injection H as <- <-; auto|].
    destruct (negb (_ =? _)%nat); [intros H; injection H as <- <-; auto|].
    destruct (Rgt_dec _ _); [intros H; injection H as <- <-; auto|].
    discriminate.
  - intros st' H. destruct (@SolveOneIteration_result _ _ H) as [H1 [H2 _]]. auto.
Qed.

(** X7: throughout a session the weights, the System Matrix and its
    factorization stay those Precompute built: at every state of the session
    weight_ is the Weight Matrix of the mesh, M_ is the System Matrix of the
    state and solver_ holds the factorization of M_; mesh, partition and rho
    are those of the start. *)
Theorem session_system_matrix (st0 st : Solver) :
  session cholesky_compute cholesky_solve polar_svd3x3 st0 st ->
  weight_ st = Precompute_weight st /\
  M_ st = Precompute_M1 st /\
  solver_ st = M_ st /\
  cholesky_compute (M_ st) = Success /\
  vertices_ st = vertices_ st0 /\ faces_ st = faces_ st0 /\
  fixed_ st = fixed_ st0 /\ free_ st = free_ st0 /\
  vertex_info_ st = vertex_info_ st0 /\ rho_ st = rho_ st0.
Proof.
  assert (Hkeep : forall a b,
            same_setup b a ->
            weight_ a = Precompute_weight a /\ M_ a = Precompute_M1 a /\
            solver_ a = M_ a /\ cholesky_compute (M_ a) = Success /\
            vertices_ a = vertices_ st0 /\ faces_ a = faces_ st0 /\
            fixed_ a = fixed_ st0 /\ free_ a = free_ st0 /\
            vertex_info_ a = vertex_info_ st0 /\ rho_ a = rho_ st0 ->
            weight_ b = Precompute_weight b /\ M_ b = Precompute_M1 b /\
            solver_ b = M_ b /\ cholesky_compute (M_ b) = Success /\
            vertices_ b = vertices_ st0 /\ faces_ b = faces_ st0 /\
            fixed_ b = fixed_ st0 /\ free_ b = free_ st0 /\
            vertex_info_ b = vertex_info_ st0 /\ rho_ b = rho_ st0).
  { intros a b Hs Ha. unfold same_setup in Hs.
    repeat match goal with H : _ /\ _ |- _ => destruct H end.
    rewrite (@Precompute_weight_setup b a) by assumption.
    rewrite (@Precompute_M1_setup b a) by assumption.
    repeat split; congruence. }
  induction 1 as [st1 Hpre | st fv st' _ IH Hret | st st' _ IH Hret].
  - unfold Precompute in Hpre.
    destruct (is_success (cholesky_compute _)) eqn:Es; cbn [negb] in Hpre;
      [|discriminate].
    injection Hpre as <-.
    cbn [weight_ M_ solver_ vertices_ faces_ fixed_ free_ vertex_info_ rho_
         with_weight with_M with_solver] in *.
    split; [apply Precompute_weight_setup; reflexivity|].
    split; [apply Precompute_M1_setup; reflexivity|].
    split; [reflexivity|].
    split; [|repeat split].
    destruct (cholesky_compute _); [reflexivity | discriminate].
  - apply (Hkeep st st'); [|exact IH]. exact (@SolvePreprocess_setup _ _ _ Hret).
  - apply (Hkeep st st'); [|exact IH].
    exact (proj1 (@SolveOneIteration_result _ _ Hret)).
Qed.

End SessionProofs.

Section SessionDemo.

Lemma SolveOneIteration_frame_demo :
  (exists msg st',
     SolveOneIteration demo_bad_solve demo_polar demo_moved = Exits msg st' /\
     st' = demo_moved) /\
  same_setup (UpdateT (SVDSolve demo_polar (write_back demo_moved demo_moved_rhs)))
             demo_moved.
Proof.
  split.
  - exists "Fail to write back solution: dimension mismatch."%string, demo_moved.
    assert (H : SolveOneIteration demo_bad_solve demo_polar demo_moved =
                Exits "Fail to write back solution: dimension mismatch." demo_moved)
      by reflexivity.
    split; [exact H|].
    exact (proj1 (proj1 (SolveOneIteration_frame demo_bad_solve demo_polar demo_moved)
                    _ _ H)).
  - exact (proj1 (proj2 (SolveOneIteration_frame demo_cholesky_solve demo_polar demo_moved)
                    _ demo_moved_iteration)).
Defined.

Lemma demo_session :
  session demo_cholesky_compute demo_cholesky_solve demo_polar
          demo_solver demo_session_ready.
Proof.
  apply session_preprocess with (st := demo_precomputed)
                                (fixed_vertices := [mkV3 (1 / 10) 0 0]).
  - apply session_precompute. reflexivity.
  - reflexivity.
Qed.

Lemma session_system_matrix_demo :
  session demo_cholesky_compute demo_cholesky_solve demo_polar
          demo_solver demo_session_ready /\
  weight_ demo_session_ready = Precompute_weight demo_session_ready /\
  M_ demo_session_ready = Precompute_M1 demo_session_ready /\
  solver_ demo_session_ready = M_ demo_session_ready.
Proof.
  split; [exact demo_session|].
  destruct (@session_system_matrix demo_cholesky_compute demo_cholesky_solve
              demo_polar demo_solver demo_session_ready demo_session)
    as [H1 [H2 [H3 _]]].
  split; [exact H1|]. split; [exact H2 | exact H3].
Defined.

End SessionDemo.

(* ================================================================= *)
(** ** Along the iteration: pinned vertices, finite energy *)

Section ReachableProofs.

Variable cholesky_solve : SparseMatrix -> MatrixXd -> MatrixXd * ComputationInfo.
Variable polar_svd3x3 : Matrix3d -> Matrix3d.

(** X8: the fixed vertices stay where SolvePreprocess put them: at every
    state the iteration reaches, the updated position of the i-th fixed
    vertex is row i of the cached targets. *)
Theorem fixed_vertices_pinned (st : Solver) :
  reachable cholesky_solve polar_svd3x3 st ->
  fixed_wf st -> fixed_free_disjoint st ->
  forall i, (i < length (fixed_ st))%nat ->
    row (vertices_updated_ st) (nth i (fixed_ st) 0%nat) = row (fixed_vertices_ st) i.
Proof.
  induction 1 as [st fv st' Hret | st st' _ IH Hret]; intros Hwf Hdis i Hi.
  - pose proof (SolvePreprocess_Returns_inv _ _ Hret) as Hrows.
    rewrite (SolvePreprocess_returns _ _ Hrows) in Hret. injection Hret as <-.
    cbn [vertices_updated_ fixed_ fixed_vertices_ vertices_] in *.
    destruct Hwf as [Hnd Hr]. cbn [fixed_ vertices_] in Hnd, Hr.
    now apply enforce_fixed_target.
  - destruct (@SolveOneIteration_result cholesky_solve polar_svd3x3 _ _ Hret)
      as [Hs [Hfv Hup]].
    unfold same_setup in Hs.
    destruct Hs as [Hv [_ [Hfx [Hfr _]]]].
    assert (Hwf0 : fixed_wf st).
    { unfold fixed_wf in *. now rewrite <- Hfx, <- Hv. }
    assert (Hdis0 : fixed_free_disjoint st).
    { unfold fixed_free_disjoint in *. now rewrite <- Hfx, <- Hfr. }
    rewrite Hfx in *. rewrite Hfv, Hup.
    rewrite enforce_fixed_other; [now apply IH | | lia].
    apply Hdis0. apply nth_In. exact Hi.
Qed.

(** X9: with a kernel that returns proper rotations, the branch "This should
    never happen!" of ComputeEnergy is never taken on a state the iteration
    reaches: the three entries are there and finite. *)
Theorem ComputeEnergy_finite_when_reachable (st : Solver) :
  (forall M, exact_rotation (polar_svd3x3 M)) ->
  reachable cholesky_solve polar_svd3x3 st ->
  ComputeEnergy st =
  [("Total"%string, Finite (arap_term st + rotation_term st));
   ("Rotation"%string, Finite (rotation_term st));
   ("ARAP"%string, Finite (arap_term st))].
Proof.
  intros Hpolar Hreach. apply ComputeEnergy_finite.
  intros v Hv. apply exact_rotation_invariant.
  now apply (proj2 (reachable_invariant Hpolar Hreach)).
Qed.

End ReachableProofs.

Section ReachableDemo.

Lemma demo_reachable_after_iteration :
  reachable demo_cholesky_solve demo_polar
    (UpdateT (SVDSolve demo_polar (write_back demo_moved demo_moved_rhs))).
Proof.
  apply reach_iteration with (st := demo_moved).
  - exact (reach_preprocess _ _ _ _ demo_moved_returns).
  - exact demo_moved_iteration.
Qed.

Lemma fixed_vertices_pinned_demo :
  let st := UpdateT (SVDSolve demo_polar (write_back demo_moved demo_moved_rhs)) in
  reachable demo_cholesky_solve demo_polar st /\
  fixed_wf st /\ fixed_free_disjoint st /\
  row (vertices_updated_ st) (nth 0 (fixed_ st) 0%nat) = row (fixed_vertices_ st) 0.
Proof.
  intros st.
  assert (Hwf : fixed_wf st).
  { split; simpl; repeat constructor; simpl; intuition lia. }
  assert (Hdis : fixed_free_disjoint st).
  { intros v Hv Hf. simpl in Hv, Hf. intuition lia. }
  split; [exact demo_reachable_after_iteration|].
  split; [exact Hwf|]. split; [exact Hdis|].
  apply (@fixed_vertices_pinned demo_cholesky_solve demo_polar st
           demo_reachable_after_iteration Hwf Hdis 0%nat).
  simpl. lia.
Defined.

Lemma ComputeEnergy_finite_when_reachable_demo :
  let st := UpdateT (SVDSolve demo_polar (write_back demo_moved demo_moved_rhs)) in
  (forall M, exact_rotation (demo_polar M)) /\
  reachable demo_cholesky_solve demo_polar st /\
  ComputeEnergy st =
  [("Total"%string, Finite (arap_term st + rotation_term st));
   ("Rotation"%string, Finite (rotation_term st));
   ("ARAP"%string, Finite (arap_term st))].
Proof.
  intros st.
  assert (Hpolar : forall M, exact_rotation (demo_polar M))
    by (intros M; apply Identity_exact).
  split; [exact Hpolar|]. split; [exact demo_reachable_after_iteration|].
  exact (@ComputeEnergy_finite_when_reachable demo_cholesky_solve demo_polar st
           Hpolar demo_reachable_after_iteration).
Defined.

End ReachableDemo.

(* ================================================================= *)
(** ** SolvePreprocess starts every frame afresh *)

Section FreshFrame.

Lemma set_row_same m i : set_row m i (row m i) = m.
Proof.
  unfold row. revert i; induction m as [|h t IH]; intros [|i]; simpl; auto.
  now rewrite IH.
Qed.

Lemma enforce_fixed_rest fixed targets m k :
  (forall i, (i < k)%nat -> row targets i = row m (nth i fixed 0%nat)) ->
  enforce_fixed fixed targets m k = m.
Proof.
  induction k as [|k IH]; intros H; [reflexivity|].
  rewrite enforce_fixed_S, IH by (intros; apply H; lia).
  rewrite H by lia. apply set_row_same.
Qed.

(** X10: SolvePreprocess forgets the previous frame: two states that differ
    only in the per-frame fields (cached targets, updated positions, R, S,
    T) are taken to the same state, so the call is idempotent and a frame
    never starts from the rotations or positions of the frame before. *)
Theorem SolvePreprocess_forgets (st1 st2 : Solver) (fixed_vertices : MatrixXd) :
  same_setup st1 st2 ->
  rows fixed_vertices = length (fixed_ st1) ->
  exists st',
    SolvePreprocess st1 fixed_vertices = Returns st' /\
    SolvePreprocess st2 fixed_vertices = Returns st' /\
    SolvePreprocess st' fixed_vertices = Returns st'.
Proof.
  intros Hs Hrows. unfold same_setup in Hs.
  repeat match goal with H : _ /\ _ |- _ => destruct H end.
  eexists. split; [apply SolvePreprocess_returns; assumption|].
  split.
  - rewrite SolvePreprocess_returns by congruence.
    repeat match goal with H : _ = _ |- _ => rewrite <- H end. reflexivity.
  - rewrite SolvePreprocess_returns by (cbn [fixed_]; assumption). reflexivity.
Qed.

Lemma squaredNorm_identity_residual d :
  squaredNorm (vsub d (mvmul Identity d)) = 0.
Proof. destruct d; mat_unfold; ring. Qed.

Lemma Identity_distance : msquaredNorm (msub Identity Identity) = 0.
Proof. mat_unfold. ring. Qed.

Lemma directed_edges_in_range st i j :
  faces_in_range st -> In (i, j) (directed_edges st) ->
  (i < rows (vertices_ st))%nat /\ (j < rows (vertices_ st))%nat.
Proof.
  unfold faces_in_range, directed_edges. rewrite Forall_forall.
  intros Hr Hin. apply in_flat_map in Hin. destruct Hin as [t [Ht Hin]].
  specialize (Hr t Ht). simpl in Hin.
  destruct Hin as [E|[E|[E|[]]]]; injection E as <- <-; tauto.
Qed.

Lemma augmented_identity_zero :
  msquaredNorm (madd (msub Identity Identity) Zero) = 0.
Proof. mat_unfold. ring. Qed.

(** X11: when the targets are the rest positions of the fixed vertices, the
    state SolvePreprocess returns has zero energy: the updated positions are
    the rest positions, ComputeEnergy gives 0 for "ARAP", "Rotation" and
    "Total", and ComputeSVDSolveEnergy gives 0. *)
Theorem SolvePreprocess_rest_energy (st st' : Solver) (fixed_vertices : MatrixXd) :
  faces_in_range st ->
  SolvePreprocess st fixed_vertices = Returns st' ->
  (forall i, (i < length (fixed_ st))%nat ->
     row fixed_vertices i = row (vertices_ st) (nth i (fixed_ st) 0%nat)) ->
  vertices_updated_ st' = vertices_ st /\
  ComputeEnergy st' =
    [("Total"%string, Finite 0); ("Rotation"%string, Finite 0);
     ("ARAP"%string, Finite 0)] /\
  ComputeSVDSolveEnergy st' = Finite 0.
Proof.
  intros Hrange Hret Hrest.
  pose proof (SolvePreprocess_Returns_inv _ _ Hret) as Hrows.
  rewrite (SolvePreprocess_returns _ _ Hrows) in Hret. injection Hret as <-.
  rewrite (enforce_fixed_rest _ _ _ Hrest).
  set (st' := mkSolver _ _ _ _ _ _ _ _ _ _ _ _ _ _ _).
  assert (Hso : forall v, (v < rows (vertices_ st'))%nat ->
                          SO3_invariant (mat_at (S_ st') v)).
  { intros v Hv. unfold st' in *. cbn [S_ vertices_] in *.
    rewrite mat_at_repeat by assumption.
    apply exact_rotation_invariant, Identity_exact. }
  assert (Ha : arap_term st' = 0).
  { unfold arap_term.
    rewrite (@Rsum_map_ext _ _ (fun _ => 0)); [apply Rsum_map_zero|].
    intros [i j] Hin.
    assert (Hi : (i < rows (vertices_ st))%nat)
      by (apply (@directed_edges_in_range st i j Hrange Hin)).
    unfold arap_edge_term, st'.
    cbn [weight_ vertices_updated_ vertices_ rotations_].
    rewrite mat_at_repeat by assumption.
    rewrite squaredNorm_identity_residual. ring. }
  assert (Hr : rotation_term st' = 0).
  { unfold rotation_term.
    rewrite (@Rsum_map_ext _ _ (fun _ => 0)); [rewrite Rsum_map_zero; ring|].
    intros v Hv. apply in_seq in Hv. unfold st' in *.
    cbn [rotations_ S_ vertices_] in *.
    rewrite !mat_at_repeat by lia. apply Identity_distance. }
  split; [reflexivity|]. split.
  - rewrite (ComputeEnergy_finite st' Hso), Ha, Hr.
    replace (0 + 0) with 0 by ring. reflexivity.
  - rewrite (ComputeSVDSolveEnergy_finite st' Hso). f_equal.
    rewrite (@Rsum_map_ext _ _ (fun _ => 0)); [rewrite Rsum_map_zero; ring|].
    intros v Hv. apply in_seq in Hv. unfold st' in *.
    cbn [rotations_ S_ T_ vertices_] in *.
    rewrite !mat_at_repeat by lia. apply augmented_identity_zero.
Qed.

End FreshFrame.

Section FreshFrameDemo.

Lemma SolvePreprocess_forgets_demo :
  let moved := UpdateT (SVDSolve demo_polar (write_back demo_moved demo_moved_rhs)) in
  same_setup moved demo_solver /\
  rows [mkV3 0 0 0] = length (fixed_ moved) /\
  exists st',
    SolvePreprocess moved [mkV3 0 0 0] = Returns st' /\
    SolvePreprocess demo_solver [mkV3 0 0 0] = Returns st' /\
    SolvePreprocess st' [mkV3 0 0 0] = Returns st'.
Proof.
  intros moved.
  assert (Hs : same_setup moved demo_solver) by (repeat split).
  assert (Hr : rows [mkV3 0 0 0] = length (fixed_ moved)) by reflexivity.
  split; [exact Hs|]. split; [exact Hr|].
  exact (@SolvePreprocess_forgets moved demo_solver [mkV3 0 0 0] Hs Hr).
Defined.

Lemma SolvePreprocess_rest_energy_demo :
  faces_in_range demo_solver /\
  SolvePreprocess demo_solver [mkV3 0 0 0] = Returns demo_ready /\
  (forall i, (i < length (fixed_ demo_solver))%nat ->
     row [mkV3 0 0 0] i = row (vertices_ demo_solver) (nth i (fixed_ demo_solver) 0%nat)) /\
  ComputeEnergy demo_ready =
    [("Total"%string, Finite 0); ("Rotation"%string, Finite 0);
     ("ARAP"%string, Finite 0)].
Proof.
  pose proof (@demo_faces_in_range demo_solver eq_refl eq_refl) as Hr.
  assert (Hrest : forall i, (i < length (fixed_ demo_solver))%nat ->
            row [mkV3 0 0 0] i =
            row (vertices_ demo_solver) (nth i (fixed_ demo_solver) 0%nat)).
  { intros i Hi. simpl in Hi. destruct i as [|i]; [reflexivity | lia]. }
  split; [exact Hr|]. split; [exact demo_ready_returns|]. split; [exact Hrest|].
  exact (proj1 (proj2 (@SolvePreprocess_rest_energy demo_solver demo_ready
                         [mkV3 0 0 0] Hr demo_ready_returns Hrest))).
Defined.

End FreshFrameDemo.

(* ================================================================= *)
(** ** The energy does not see rigid motions *)

Lemma mat_ext a b : mr0 a = mr0 b -> mr1 a = mr1 b -> mr2 a = mr2 b -> a = b.
Proof. destruct a, b; simpl; intros; subst; reflexivity. Qed.

Ltac mat_eq := apply mat_ext; apply vec_ext; mat_unfold; ring.

Section RigidMotion.

Lemma frobenius_left Q X :
  msquaredNorm (mmul Q X) = gram_columns (mmul (transpose Q) Q) X.
Proof.
  destruct Q as [[? ? ?] [? ? ?] [? ? ?]], X as [[? ? ?] [? ? ?] [? ? ?]].
  unfold gram_columns. mat_unfold. ring.
Qed.

Lemma frobenius_right Q X :
  msquaredNorm (mmul X (transpose Q)) = gram_rows (mmul (transpose Q) Q) X.
Proof.
  destruct Q as [[? ? ?] [? ? ?] [? ? ?]], X as [[? ? ?] [? ? ?] [? ? ?]].
  unfold gram_rows. mat_unfold. ring.
Qed.

Lemma gram_columns_identity X : gram_columns Identity X = msquaredNorm X.
Proof.
  destruct X as [[? ? ?] [? ? ?] [? ? ?]]. unfold gram_columns. mat_unfold. ring.
Qed.

Lemma gram_rows_identity X : gram_rows Identity X = msquaredNorm X.
Proof.
  destruct X as [[? ? ?] [? ? ?] [? ? ?]]. unfold gram_rows. mat_unfold. ring.
Qed.

Lemma squaredNorm_mvmul Q u :
  squaredNorm (mvmul Q u) = dot u (mvmul (mmul (transpose Q) Q) u).
Proof.
  destruct Q as [[? ? ?] [? ? ?] [? ? ?]], u. mat_unfold. ring.
Qed.

Lemma dot_identity u : dot u (mvmul Identity u) = squaredNorm u.
Proof. destruct u. mat_unfold. ring. Qed.

Lemma determinant_mmul Q S :
  determinant (mmul Q S) = determinant Q * determinant S.
Proof.
  destruct Q as [[? ? ?] [? ? ?] [? ? ?]], S as [[? ? ?] [? ? ?] [? ? ?]].
  mat_unfold. ring.
Qed.

Lemma mmul_assoc A B C : mmul (mmul A B) C = mmul A (mmul B C).
Proof.
  destruct A as [[? ? ?] [? ? ?] [? ? ?]], B as [[? ? ?] [? ? ?] [? ? ?]],
    C as [[? ? ?] [? ? ?] [? ? ?]].
  mat_eq.
Qed.

Lemma transpose_mmul A B :
  transpose (mmul A B) = mmul (transpose B) (transpose A).
Proof.
  destruct A as [[? ? ?] [? ? ?] [? ? ?]], B as [[? ? ?] [? ? ?] [? ? ?]].
  mat_eq.
Qed.

Lemma mmul_msub_r A B C : mmul (msub A B) C = msub (mmul A C) (mmul B C).
Proof.
  destruct A as [[? ? ?] [? ? ?] [? ? ?]], B as [[? ? ?] [? ? ?] [? ? ?]],
    C as [[? ? ?] [? ? ?] [? ? ?]].
  mat_eq.
Qed.

Lemma mmul_msub_l A B C : mmul A (msub B C) = msub (mmul A B) (mmul A C).
Proof.
  destruct A as [[? ? ?] [? ? ?] [? ? ?]], B as [[? ? ?] [? ? ?] [? ? ?]],
    C as [[? ? ?] [? ? ?] [? ? ?]].
  mat_eq.
Qed.

Lemma mmul_identity_l A : mmul Identity A = A.
Proof. destruct A as [[? ? ?] [? ? ?] [? ? ?]]. mat_eq. Qed.

Lemma deviation_conjugate Q S :
  msub (mmul (mmul Q S) (transpose (mmul Q S))) (mmul Q (transpose Q)) =
  mmul Q (mmul (msub (mmul S (transpose S)) Identity) (transpose Q)).
Proof.
  rewrite mmul_msub_r, mmul_msub_l, mmul_identity_l.
  rewrite transpose_mmul, !mmul_assoc. reflexivity.
Qed.

Lemma IsSO3_turned Q S : proper_orthogonal Q -> IsSO3 (mmul Q S) = IsSO3 S.
Proof.
  intros [H1 [H2 H3]]. unfold IsSO3.
  rewrite determinant_mmul, H3, Rmult_1_l.
  pose proof (deviation_conjugate Q S) as Hd. rewrite H1 in Hd. rewrite Hd.
  rewrite frobenius_left, H2, gram_columns_identity.
  rewrite frobenius_right, H2, gram_rows_identity. reflexivity.
Qed.

Lemma edge_residual_turned Q t p q Rm v :
  vsub (vsub (vadd (mvmul Q p) t) (vadd (mvmul Q q) t)) (mvmul (mmul Q Rm) v) =
  mvmul Q (vsub (vsub p q) (mvmul Rm v)).
Proof.
  destruct Q as [[? ? ?] [? ? ?] [? ? ?]], Rm as [[? ? ?] [? ? ?] [? ? ?]],
    t, p, q, v.
  apply vec_ext; mat_unfold; ring.
Qed.

Lemma msub_turned Q A B : msub (mmul Q A) (mmul Q B) = mmul Q (msub A B).
Proof.
  destruct Q as [[? ? ?] [? ? ?] [? ? ?]], A as [[? ? ?] [? ? ?] [? ? ?]],
    B as [[? ? ?] [? ? ?] [? ? ?]].
  mat_eq.
Qed.

Lemma mat_at_map g l v :
  (v < length l)%nat -> mat_at (map g l) v = g (mat_at l v).
Proof.
  intros H. unfold mat_at. rewrite (nth_indep _ Zero (g Zero)) by (now rewrite length_map).
  apply map_nth.
Qed.

Lemma row_map g m i :
  (i < length m)%nat -> row (map g m) i = g (row m i).
Proof.
  intros H. unfold row. rewrite (nth_indep _ vzero (g vzero)) by (now rewrite length_map).
  apply map_nth.
Qed.

Lemma existsb_ext_in {X} (p q : X -> bool) l :
  (forall x, In x l -> p x = q x) -> existsb p l = existsb q l.
Proof.
  induction l as [|h t IH]; simpl; intros H; [reflexivity|].
  rewrite H by now left. rewrite IH; [reflexivity|]. intros; apply H; now right.
Qed.

(** What ComputeEnergy returns, in both cases. *)
Lemma ComputeEnergy_cases st :
  ComputeEnergy st =
  if existsb (fun i => negb (IsSO3 (mat_at (S_ st) i))) (seq 0 (rows (vertices_ st)))
  then [("Total"%string, PosInfinity)]
  else [("Total"%string, Finite (arap_term st + rotation_term st));
        ("Rotation"%string, Finite (rotation_term st));
        ("ARAP"%string, Finite (arap_term st))].
Proof.
  destruct (existsb _ _) eqn:E.
  - unfold ComputeEnergy. now rewrite E.
  - apply ComputeEnergy_finite. now apply IsSO3_check_passes.
Qed.

(** X12: ComputeEnergy does not see rigid motions: moving every updated
    position by p -> Q p + t and turning every R_v and S_v by the proper
    orthogonal Q gives the same energy breakdown. *)
Theorem ComputeEnergy_rigid_motion (st : Solver) (Q : Matrix3d) (t : Vector3d) :
  proper_orthogonal Q -> faces_in_range st -> state_wf st ->
  ComputeEnergy (rigid_motion st Q t) = ComputeEnergy st.
Proof.
  intros HQ Hrange [Hu [HR [HS _]]].
  rewrite !ComputeEnergy_cases.
  assert (Hex : existsb (fun i => negb (IsSO3 (mat_at (S_ (rigid_motion st Q t)) i)))
                        (seq 0 (rows (vertices_ (rigid_motion st Q t)))) =
                existsb (fun i => negb (IsSO3 (mat_at (S_ st) i)))
                        (seq 0 (rows (vertices_ st)))).
  { cbn [rigid_motion S_ vertices_ with_S with_rotations with_vertices_updated].
    apply existsb_ext_in. intros v Hv. apply in_seq in Hv.
    rewrite mat_at_map by lia. now rewrite IsSO3_turned. }
  assert (Ha : arap_term (rigid_motion st Q t) = arap_term st).
  { unfold arap_term.
    change (directed_edges (rigid_motion st Q t)) with (directed_edges st).
    apply Rsum_map_ext. intros [i j] Hin.
    destruct (@directed_edges_in_range st i j Hrange Hin) as [Hi Hj].
    unfold arap_edge_term.
    cbn [rigid_motion weight_ vertices_updated_ vertices_ rotations_
         with_S with_rotations with_vertices_updated].
    unfold rows in *.
    rewrite !row_map by lia. rewrite mat_at_map by lia.
    rewrite edge_residual_turned, squaredNorm_mvmul.
    destruct HQ as [_ [H2 _]]. rewrite H2, dot_identity. reflexivity. }
  assert (Hr : rotation_term (rigid_motion st Q t) = rotation_term st).
  { unfold rotation_term.
    cbn [rigid_motion rho_ vertices_ rotations_ S_
         with_S with_rotations with_vertices_updated].
    f_equal. apply Rsum_map_ext. intros v Hv. apply in_seq in Hv.
    rewrite !mat_at_map by lia.
    rewrite msub_turned, frobenius_left.
    destruct HQ as [_ [H2 _]]. rewrite H2. apply gram_columns_identity. }
  rewrite Hex, Ha, Hr. reflexivity.
Qed.

End RigidMotion.

Section RigidMotionDemo.

Lemma ComputeEnergy_rigid_motion_demo :
  proper_orthogonal demo_quarter_turn /\ faces_in_range demo_moved /\
  state_wf demo_moved /\
  ComputeEnergy (rigid_motion demo_moved demo_quarter_turn (mkV3 1 2 3)) =
  ComputeEnergy demo_moved.
Proof.
  assert (HQ : proper_orthogonal demo_quarter_turn).
  { repeat split; demo_compute; repeat (f_equal; try lra). }
  pose proof (@demo_faces_in_range demo_moved eq_refl eq_refl) as Hr.
  pose proof (@demo_state_wf demo_moved (or_intror demo_moved_returns)) as Hw.
  split; [exact HQ|]. split; [exact Hr|]. split; [exact Hw|].
  exact (@ComputeEnergy_rigid_motion demo_moved demo_quarter_turn (mkV3 1 2 3)
           HQ Hr Hw).
Defined.

End RigidMotionDemo.

(* ================================================================= *)
(** ** The two assemblies of the right-hand side agree *)

Section RhsMethods.

Variable st : Solver.

Let N : nat := (length (free_ st) + 3 * rows (vertices_ st))%nat.

Lemma dense_add_length a b :
  length a = length b -> length (dense_add a b) = length a.
Proof.
  revert b; induction a as [|x a IH]; intros [|y b] H; simpl in *;
    try discriminate; [reflexivity|].
  now rewrite IH by lia.
Qed.

Lemma row_dense_add a b r :
  length a = length b -> row (dense_add a b) r = vadd (row a r) (row b r).
Proof.
  unfold row. revert b r; induction a as [|x a IH]; intros [|y b] r H;
    simpl in *; try discriminate.
  - destruct r; vec_eq.
  - destruct r; [reflexivity|]. apply IH. lia.
Qed.

Lemma sp_mul_dense_length m x : length (sp_mul_dense m x) = sp_rows m.
Proof. unfold sp_mul_dense. now rewrite length_map, length_seq. Qed.

Lemma nth_map_seq (g : nat -> Vector3d) n r :
  (r < n)%nat -> nth r (map g (seq 0 n)) vzero = g r.
Proof.
  intros Hr. rewrite nth_indep with (d' := g 0%nat)
    by now rewrite length_map, length_seq.
  rewrite map_nth, seq_nth by assumption. reflexivity.
Qed.

Lemma row_sp_mul_dense m x r :
  (r < sp_rows m)%nat ->
  row (sp_mul_dense m x) r =
  fold_right (fun k acc => vadd (vscale (coeff m r k) (row x k)) acc)
             vzero (seq 0 (sp_cols m)).
Proof.
  intros Hr. unfold row at 1. unfold sp_mul_dense.
  now rewrite nth_map_seq.
Qed.

Lemma edge_row_cols f e : sp_cols (edge_row st f e) = N.
Proof.
  unfold edge_row.
  destruct (type (info_at st _)), (type (info_at st _)); reflexivity.
Qed.

(** Second method: an edge adds to row [r] what the first method adds. *)
Lemma rhs2_edge_step_row f rhs e r :
  partition_wf st -> faces_in_range st -> (f < length (faces_ st))%nat ->
  length rhs = N -> (r < N)%nat ->
  let ij := (fidx (face_at (faces_ st) f) (fst (edge_map e)),
             fidx (face_at (faces_ st) f) (snd (edge_map e))) in
  length (rhs2_edge_step st f rhs e) = N /\
  row (rhs2_edge_step st f rhs e) r =
  vadd (row rhs r)
       (if has_fixed_endpoint st ij then rhs_edge_term st ij r else vzero).
Proof.
  intros [_ [_ Hpos]] Hr Hf Hlen HrN ij. subst ij.
  pose proof (face_at_in_range (fst (edge_map e)) Hr Hf) as H1.
  pose proof (face_at_in_range (snd (edge_map e)) Hr Hf) as H2.
  unfold rhs2_edge_step.
  assert (HL : length (sp_mul_dense
                 (sp_scale (2 * coeff (weight_ st)
                      (fidx (face_at (faces_ st) f) (fst (edge_map e)))
                      (fidx (face_at (faces_ st) f) (snd (edge_map e))))
                    (sp_transpose (edge_row st f e)))
                 [if is_fixed (type (info_at st (fidx (face_at (faces_ st) f) (snd (edge_map e)))))
                  then vadd (if is_fixed (type (info_at st (fidx (face_at (faces_ st) f) (fst (edge_map e)))))
                             then vsub vzero (row (vertices_updated_ st) (fidx (face_at (faces_ st) f) (fst (edge_map e))))
                             else vzero)
                            (row (vertices_updated_ st) (fidx (face_at (faces_ st) f) (snd (edge_map e))))
                  else if is_fixed (type (info_at st (fidx (face_at (faces_ st) f) (fst (edge_map e)))))
                       then vsub vzero (row (vertices_updated_ st) (fidx (face_at (faces_ st) f) (fst (edge_map e))))
                       else vzero]) = N).
  { rewrite sp_mul_dense_length. cbn [sp_rows sp_scale sp_transpose].
    apply edge_row_cols. }
  cbv zeta. split; [rewrite dense_add_length; congruence|].
  rewrite row_dense_add by congruence.
  rewrite row_sp_mul_dense
    by (cbn [sp_rows sp_scale sp_transpose]; now rewrite edge_row_cols).
  cbn [sp_cols sp_rows sp_scale sp_transpose coeff].
  rewrite edge_row_rows. cbn [seq fold_right row nth].
  unfold has_fixed_endpoint, rhs_edge_term, edge_row, GetMatrixVariablePos.
  cbn [fst snd].
  set (first := fidx _ (fst (edge_map e))) in *.
  set (second := fidx _ (snd (edge_map e))) in *.
  pose proof (Hpos first H1) as P1. pose proof (Hpos second H2) as P2.
  subst N.
  destruct (type (info_at st first)) eqn:T1, (type (info_at st second)) eqn:T2;
    cbn [is_free is_fixed andb orb]; rewrite !coeff_coeffRef_set;
    cbn [Nat.eqb andb sp_resize coeff];
    try (destruct (P1 eq_refl) as [Q1 _]); try (destruct (P2 eq_refl) as [Q2 _]);
    repeat match goal with
    | |- context [(?a =? ?b)%nat] => destruct (Nat.eqb_spec a b); try lia
    end; vec_eq.
Qed.

Lemma rhs2_rotation_step_row rhs v r :
  length rhs = N -> (r < N)%nat ->
  length (rhs2_rotation_step st rhs v) = N /\
  row (rhs2_rotation_step st rhs v) r =
  vadd (row rhs r) (rhs_rotation_term st v r).
Proof.
  intros Hlen HrN. unfold rhs2_rotation_step. cbv zeta.
  assert (HL : forall B, length (sp_mul_dense
                 (sp_scale (rho_ st) (sp_transpose (rotation_rows st v)))
                 (dense_of B)) = N).
  { intros B. rewrite sp_mul_dense_length. reflexivity. }
  split; [rewrite dense_add_length; rewrite ?HL; congruence|].
  rewrite row_dense_add by (rewrite HL; congruence).
  rewrite row_sp_mul_dense by exact HrN.
  cbn [sp_cols sp_rows sp_scale sp_transpose coeff].
  change (sp_rows (rotation_rows st v)) with 3%nat.
  cbn [seq fold_right]. unfold rotation_rows, rhs_rotation_term.
  rewrite !coeff_coeffRef_set. cbn [Nat.eqb andb sp_resize coeff].
  unfold GetMatrixVariablePos, dense_of. cbn [row nth].
  set (B := transpose _).
  repeat match goal with
  | |- context [(?a =? ?b)%nat] => destruct (Nat.eqb_spec a b); try lia
  end; vec_eq.
Qed.

Lemma Vsum_map_zero {X} (l : list X) : Vsum (map (fun _ => vzero) l) = vzero.
Proof. induction l; simpl; [reflexivity | rewrite IHl; vec_eq]. Qed.

(** First method: the blocks the rotation loop assigns, as a sum. *)
Lemma rhs_rotation_sum k r :
  (k <= rows (vertices_ st))%nat ->
  row (fold_left (rhs_rotation_step st) (seq 0 k) (dense_zero N)) r =
  Vsum (map (fun v => rhs_rotation_term st v r) (seq 0 k)).
Proof.
  induction k as [|k IH]; intros Hk.
  - simpl. apply row_dense_zero.
  - rewrite seq_S, fold_left_app, map_app, Vsum_app. cbn [fold_left Nat.add map Vsum fold_right].
    destruct (rhs_rotation_rows st (k := k) ltac:(lia)) as [Hlen _].
    fold N in Hlen. cbv zeta in Hlen.
    specialize (IH ltac:(lia)).
    set (rhs := fold_left _ _ _) in *.
    unfold rhs_rotation_step at 1. fold N.
    rewrite row_set_block by (subst N; lia).
    unfold rhs_rotation_term at 2. unfold GetMatrixVariablePos.
    rewrite Nat.add_0_r.
    set (m := mscale _ _).
    assert (Hz : (length (free_ st) + 3 * k <= r)%nat ->
                 Vsum (map (fun v => rhs_rotation_term st v r) (seq 0 k)) = vzero).
    { intros Hge. rewrite <- (Vsum_map_zero (seq 0 k)). apply Vsum_map_ext.
      intros v Hv. apply in_seq in Hv.
      unfold rhs_rotation_term, GetMatrixVariablePos.
      repeat match goal with
      | |- context [(?a =? ?b)%nat] => destruct (Nat.eqb_spec a b); try lia
      end; reflexivity. }
    destruct (Nat.eqb_spec r (length (free_ st) + 3 * k));
      [rewrite Hz by lia; vec_eq|].
    destruct (Nat.eqb_spec r (length (free_ st) + 3 * k + 1));
      [rewrite Hz by lia; vec_eq|].
    destruct (Nat.eqb_spec r (length (free_ st) + 3 * k + 2));
      [rewrite Hz by lia; vec_eq|].
    rewrite IH. vec_eq.
Qed.

Lemma rhs2_edges_rows r :
  partition_wf st -> faces_in_range st -> (r < N)%nat ->
  let rhs := fold_left (fun rhs f => fold_left (rhs2_edge_step st f) (seq 0 3) rhs)
                       (seq 0 (length (faces_ st))) (dense_zero N) in
  length rhs = N /\
  row rhs r =
  Vsum (map (fun ij => rhs_edge_term st ij r)
            (filter (has_fixed_endpoint st) (directed_edges st))).
Proof.
  intros Hp Hr HrN rhs. subst rhs.
  rewrite <- Vsum_filter. unfold directed_edges. rewrite Vsum_flat_map.
  rewrite <- (map_face_at
    (fun t => Vsum (map (fun x => if has_fixed_endpoint st x
                                  then rhs_edge_term st x r else vzero)
                        [(fb t, fc t); (fc t, fa t); (fa t, fb t)]))).
  destruct (@fold_left_vmeasure _ _ (fun rhs => row rhs r)
           (fun rhs f => fold_left (rhs2_edge_step st f) (seq 0 3) rhs)
           (fun f => Vsum (map (fun x => if has_fixed_endpoint st x
                                  then rhs_edge_term st x r else vzero)
                        [(fb (face_at (faces_ st) f), fc (face_at (faces_ st) f));
                         (fc (face_at (faces_ st) f), fa (face_at (faces_ st) f));
                         (fa (face_at (faces_ st) f), fb (face_at (faces_ st) f))]))
           (fun rhs => length rhs = N) (seq 0 (length (faces_ st)))) with (a := dense_zero N)
    as [HL HR].
  - intros rhs f Hf Hlen. apply in_seq in Hf.
    change (seq 0 3) with [0; 1; 2]%nat. cbn [fold_left].
    destruct (@rhs2_edge_step_row f rhs 0 r Hp Hr ltac:(lia) Hlen HrN) as [L0 R0].
    destruct (@rhs2_edge_step_row f _ 1 r Hp Hr ltac:(lia) L0 HrN) as [L1 R1].
    destruct (@rhs2_edge_step_row f _ 2 r Hp Hr ltac:(lia) L1 HrN) as [L2 R2].
    split; [exact L2|].
    rewrite R2, R1, R0. cbn [map Vsum fold_right edge_map fst snd fidx].
    vec_eq.
  - apply repeat_length.
  - split; [exact HL|]. rewrite HR, row_dense_zero. vec_eq.
Qed.

(** X13: the two ways of building the right-hand side give the same matrix:
    on a mesh whose faces name rows of vertices_, with the free/fixed
    bookkeeping of the base class, the normal-equations assembly
    (USE_LINEAR_SOLVE_2) builds exactly the right-hand side of the direct
    assembly (USE_LINEAR_SOLVE_1), whatever the weights, rho, the updated
    positions, S and T are. *)
Theorem rhs_methods_agree :
  partition_wf st -> faces_in_range st -> build_rhs2 st = build_rhs st.
Proof.
  intros Hp Hr.
  destruct (build_rhs_rows 0 Hp Hr) as [L1 _].
  assert (H2 : forall r, (r < N)%nat ->
            length (build_rhs2 st) = N /\
            row (build_rhs2 st) r = row (build_rhs st) r).
  { intros r HrN. unfold build_rhs2. cbv zeta. fold N.
    destruct (@rhs2_edges_rows r Hp Hr HrN) as [HL HR]. cbv zeta in HL, HR.
    set (rhs := fold_left _ _ (dense_zero N)) in *.
    destruct (@fold_left_vmeasure _ _ (fun rhs => row rhs r)
                (rhs2_rotation_step st) (fun v => rhs_rotation_term st v r)
                (fun rhs => length rhs = N) (seq 0 (rows (vertices_ st))))
      with (a := rhs) as [HL' HR'].
    - intros a v _ Ha. now apply rhs2_rotation_step_row.
    - exact HL.
    - split; [exact HL'|]. rewrite HR', HR.
      destruct (build_rhs_rows r Hp Hr) as [_ ->].
      unfold rhs_rotation. fold N. rewrite rhs_rotation_sum by lia. vec_eq. }
  destruct (Nat.eq_dec N 0) as [E|E].
  - destruct (build_rhs st) as [|x l] eqn:E1; [|simpl in L1; fold N in L1; lia].
    unfold build_rhs2. cbv zeta. fold N. rewrite E.
    assert (Hnil : forall l' : MatrixXd, dense_add [] l' = []) by reflexivity.
    assert (Hfaces : fold_left (fun rhs f => fold_left (rhs2_edge_step st f) (seq 0 3) rhs)
                       (seq 0 (length (faces_ st))) (dense_zero 0) = []).
    { apply fold_left_invariant with (P := fun rhs : MatrixXd => rhs = []);
        [|reflexivity].
      intros a f _ ->.
      apply fold_left_invariant with (P := fun rhs : MatrixXd => rhs = []);
        [|reflexivity].
      intros a e _ ->. reflexivity. }
    rewrite Hfaces.
    apply fold_left_invariant with (P := fun rhs : MatrixXd => rhs = []);
      [|reflexivity].
    intros a v _ ->. reflexivity.
  - apply nth_ext with (d := vzero) (d' := vzero).
    + destruct (H2 0%nat ltac:(lia)) as [-> _]. symmetry. exact L1.
    + intros r Hlt. destruct (H2 0%nat ltac:(lia)) as [L2 _].
      rewrite L2 in Hlt. now apply H2.
Qed.

End RhsMethods.

Section RhsMethodsDemo.

Lemma rhs_methods_agree_demo :
  partition_wf demo_moved /\ faces_in_range demo_moved /\
  build_rhs2 demo_moved = build_rhs demo_moved.
Proof.
  assert (Hp : partition_wf demo_moved) by (apply demo_partition_wf; reflexivity).
  assert (Hr : faces_in_range demo_moved) by (apply demo_faces_in_range; reflexivity).
  split; [exact Hp|]. split; [exact Hr|].
  apply (rhs_methods_agree Hp Hr).
Defined.

End RhsMethodsDemo.

(* ================================================================= *)
(** ** Weighted least squares: a solution of the normal equations is a
       minimiser *)

Section LeastSquares.

Lemma Vsum_map_add {X} (f g : X -> Vector3d) l :
  Vsum (map (fun a => vadd (f a) (g a)) l) = vadd (Vsum (map f l)) (Vsum (map g l)).
Proof. induction l; simpl; [vec_eq | rewrite IHl; vec_eq]. Qed.

Lemma Vsum_map_sub {X} (f g : X -> Vector3d) l :
  Vsum (map (fun a => vsub (f a) (g a)) l) = vsub (Vsum (map f l)) (Vsum (map g l)).
Proof. induction l; simpl; [vec_eq | rewrite IHl; vec_eq]. Qed.

Lemma Vsum_map_vscale {X} (c : R) (f : X -> Vector3d) l :
  Vsum (map (fun a => vscale c (f a)) l) = vscale c (Vsum (map f l)).
Proof. induction l; simpl; [vec_eq | rewrite IHl; vec_eq]. Qed.

Lemma Vsum_cons a l : Vsum (a :: l) = vadd a (Vsum l).
Proof. reflexivity. Qed.

Lemma Rsum_cons a l : Rsum (a :: l) = a + Rsum l.
Proof. reflexivity. Qed.

Lemma Vsum_fold_right {X} (g : X -> Vector3d) l :
  fold_right (fun k acc => vadd (g k) acc) vzero l = Vsum (map g l).
Proof. induction l; simpl; [reflexivity | now rewrite IHl]. Qed.

Lemma Vsum_pick (g : nat -> Vector3d) p l :
  NoDup l ->
  Vsum (map (fun a => vscale (ind (a =? p)%nat) (g a)) l) =
  if existsb (Nat.eqb p) l then g p else vzero.
Proof.
  induction l as [|h t IH]; simpl; intros Hnd; [reflexivity|].
  inversion Hnd as [|? ? Hnot Hnd']; subst. rewrite (IH Hnd').
  destruct (Nat.eqb_spec h p) as [->|Hne].
  - rewrite Nat.eqb_refl. simpl.
    destruct (existsb (Nat.eqb p) t) eqn:E.
    + apply existsb_exists in E. destruct E as [y [Hy Ey]].
      apply Nat.eqb_eq in Ey. subst y. contradiction.
    + unfold ind. vec_eq.
  - destruct (Nat.eqb_spec p h); [congruence|]. simpl.
    destruct (existsb (Nat.eqb p) t); unfold ind; vec_eq.
Qed.

Lemma existsb_seq p n : existsb (Nat.eqb p) (seq 0 n) = (p <? n)%nat.
Proof.
  destruct (Nat.ltb_spec p n) as [H|H].
  - apply existsb_exists. exists p. split; [apply in_seq; lia | apply Nat.eqb_refl].
  - destruct (existsb (Nat.eqb p) (seq 0 n)) eqn:E; [|reflexivity].
    apply existsb_exists in E. destruct E as [y [Hy Ey]].
    apply Nat.eqb_eq in Ey. apply in_seq in Hy. lia.
Qed.

Lemma apply_row_ext n u u' x x' :
  (forall a, (a < n)%nat -> u a = u' a) ->
  (forall a, (a < n)%nat -> x a = x' a) ->
  apply_row n u x = apply_row n u' x'.
Proof.
  intros Hu Hx. unfold apply_row. apply Vsum_map_ext.
  intros a Ha. apply in_seq in Ha. rewrite Hu, Hx by lia. reflexivity.
Qed.

Lemma apply_row_add n u x d :
  apply_row n u (fun a => vadd (x a) (d a)) =
  vadd (apply_row n u x) (apply_row n u d).
Proof.
  unfold apply_row. rewrite <- Vsum_map_add. apply Vsum_map_ext.
  intros a _. vec_eq.
Qed.

Lemma apply_row_plus n u u' x :
  apply_row n (fun a => u a + u' a) x =
  vadd (apply_row n u x) (apply_row n u' x).
Proof.
  unfold apply_row. rewrite <- Vsum_map_add. apply Vsum_map_ext.
  intros a _. vec_eq.
Qed.

Lemma apply_row_pick n p c x :
  apply_row n (fun a => ind (a =? p)%nat * c) x =
  if (p <? n)%nat then vscale c (x p) else vzero.
Proof.
  unfold apply_row.
  rewrite (@Vsum_map_ext _ _ (fun a => vscale (ind (a =? p)%nat) (vscale c (x a))))
    by (intros; vec_eq).
  rewrite Vsum_pick by apply seq_NoDup. now rewrite existsb_seq.
Qed.

Lemma dot_apply_row n u d r :
  dot (apply_row n u d) r = Rsum (map (fun a => u a * dot (d a) r) (seq 0 n)).
Proof.
  unfold apply_row. induction (seq 0 n) as [|a l IH]; simpl.
  - mat_unfold. ring.
  - rewrite <- IH. mat_unfold. ring.
Qed.

Lemma ls_energy_ext n cs x x' :
  (forall a, (a < n)%nat -> x a = x' a) -> ls_energy n cs x = ls_energy n cs x'.
Proof.
  intros Hx. unfold ls_energy. apply Rsum_map_ext. intros k _.
  unfold c_residual. now rewrite (@apply_row_ext n _ (c_row k) x x').
Qed.

(** The gradient is M x - rhs for the matrix and the right-hand side of the
    normal equations. *)
Lemma ls_gradient_normal n cs x a :
  ls_gradient n cs x a =
  vsub (Vsum (map (fun b => vscale (ls_matrix cs a b) (x b)) (seq 0 n)))
       (ls_rhs cs a).
Proof.
  unfold ls_gradient, ls_matrix, ls_rhs.
  induction cs as [|k cs IH]; cbn [map].
  - rewrite (@Vsum_map_ext _ _ (fun _ => vzero)) by (intros; vec_eq).
    rewrite Vsum_map_zero. vec_eq.
  - rewrite (@Vsum_map_ext _ _
               (fun b => vadd (vscale (c_weight k * c_row k a) (vscale (c_row k b) (x b)))
                              (vscale (Rsum (map (fun k0 => c_weight k0 * c_row k0 a * c_row k0 b) cs))
                                      (x b))) (seq 0 n))
      by (intros; vec_eq).
    rewrite Vsum_map_add, Vsum_map_vscale, !Vsum_cons, IH.
    unfold c_residual at 1. unfold apply_row. vec_eq.
Qed.

(** The energy along a displacement [d]: value, first-order term, and a sum
    of squares. *)
Lemma ls_energy_expand n cs x d :
  ls_energy n cs (fun a => vadd (x a) (d a)) =
  ls_energy n cs x
  + Rsum (map (fun a => dot (d a) (ls_gradient n cs x a)) (seq 0 n))
  + Rsum (map (fun k => c_weight k / 2 * squaredNorm (apply_row n (c_row k) d)) cs).
Proof.
  unfold ls_energy, ls_gradient.
  induction cs as [|k cs IH]; cbn [map].
  - rewrite (@Rsum_map_ext _ _ (fun _ => 0)) by (intros; mat_unfold; ring).
    rewrite Rsum_map_zero. simpl. ring.
  - rewrite (@Rsum_map_ext _ _
               (fun a => c_weight k * (c_row k a * dot (d a) (c_residual n x k))
                         + dot (d a) (Vsum (map (fun k0 => vscale (c_weight k0 * c_row k0 a)
                                                          (c_residual n x k0)) cs)))
               (seq 0 n))
      by (intros; mat_unfold; ring).
    rewrite Rsum_map_plus, Rsum_map_scale, <- dot_apply_row.
    rewrite !Rsum_cons, IH.
    change (c_residual n (fun a => vadd (x a) (d a)) k)
      with (vsub (apply_row n (c_row k) (fun a => vadd (x a) (d a))) (c_target k)).
    rewrite apply_row_add.
    change (c_residual n x k) with (vsub (apply_row n (c_row k) x) (c_target k)).
    set (Ux := apply_row n (c_row k) x). set (Ud := apply_row n (c_row k) d).
    set (b := c_target k).
    replace (squaredNorm (vsub (vadd Ux Ud) b))
      with (squaredNorm (vsub Ux b) + 2 * dot Ud (vsub Ux b) + squaredNorm Ud)
      by (mat_unfold; ring).
    field.
Qed.

Lemma ls_optimal n cs x y :
  Forall (fun k => 0 <= c_weight k) cs ->
  (forall a, (a < n)%nat -> ls_gradient n cs x a = vzero) ->
  ls_energy n cs x <= ls_energy n cs y.
Proof.
  intros Hw Hg.
  rewrite (@ls_energy_ext n cs y (fun a => vadd (x a) (vsub (y a) (x a))))
    by (intros; vec_eq).
  rewrite ls_energy_expand.
  rewrite (@Rsum_map_ext _ _ (fun _ => 0) (seq 0 n)).
  - rewrite Rsum_map_zero.
    assert (0 <= Rsum (map (fun k => c_weight k / 2 *
                squaredNorm (apply_row n (c_row k) (fun a => vsub (y a) (x a)))) cs)).
    { apply Rsum_map_nonneg. intros k Hk.
      rewrite Forall_forall in Hw. specialize (Hw k Hk).
      pose proof (squaredNorm_nonneg (apply_row n (c_row k) (fun a => vsub (y a) (x a)))).
      apply Rmult_le_pos; lra. }
    lra.
  - intros a Ha. apply in_seq in Ha. rewrite Hg by lia. mat_unfold. ring.
Qed.

End LeastSquares.

(* ================================================================= *)
(** ** The linear solve minimises ComputeLinearSolveEnergy *)

Section LinearSolveOptimal.

Variable st : Solver.

Let N : nat := (length (free_ st) + 3 * rows (vertices_ st))%nat.

Lemma Rsum_flat_map_gen {X Y} (h : Y -> R) (k : X -> list Y) l :
  Rsum (map h (flat_map k l)) = Rsum (map (fun t => Rsum (map h (k t))) l).
Proof.
  induction l as [|t l IH]; simpl; [reflexivity|].
  rewrite map_app, Rsum_app, IH. reflexivity.
Qed.

Lemma Vsum_flat_map_gen {X Y} (h : Y -> Vector3d) (k : X -> list Y) l :
  Vsum (map h (flat_map k l)) = Vsum (map (fun t => Vsum (map h (k t))) l).
Proof.
  induction l as [|t l IH]; simpl; [reflexivity|].
  rewrite map_app, Vsum_app, IH. reflexivity.
Qed.

(** The System Matrix is the matrix of the normal equations. *)
Lemma Precompute_M1_ls a b :
  coeff (Precompute_M1 st) a b = ls_matrix (solver_constraints st) a b.
Proof.
  rewrite Precompute_M1_coeff. unfold ls_matrix, solver_constraints.
  rewrite map_app, Rsum_app, !Rsum_flat_map_gen. rewrite Rplus_comm.
  apply f_equal2.
  - unfold edges_sum. apply Rsum_map_ext; intros f _.
    rewrite map_map. apply Rsum_map_ext; intros e _.
    unfold edge_delta, edge_constraint. cbn [c_weight c_row]. reflexivity.
  - apply Rsum_map_ext; intros v _. rewrite map_map.
    cbn [seq map Rsum fold_right]. unfold rotation_delta, rotation_constraint.
    cbn [c_weight c_row]. ring.
Qed.

Lemma rhs_edge_term_ls i j a :
  (if has_fixed_endpoint st (i, j) then rhs_edge_term st (i, j) a else vzero) =
  vscale (2 * coeff (weight_ st) i j * edge_row_form st i j a)
         (edge_target st i j).
Proof.
  unfold has_fixed_endpoint, rhs_edge_term, edge_row_form, edge_target,
    GetMatrixVariablePos.
  cbn [fst snd].
  destruct (type (info_at st i)), (type (info_at st j));
    cbn [is_free is_fixed andb orb];
    repeat match goal with
    | |- context [(?p =? ?q)%nat] => destruct (Nat.eqb_spec p q); try lia
    end; unfold ind; vec_eq.
Qed.

Lemma rhs_rotation_term_ls v a :
  rhs_rotation_term st v a =
  Vsum (map (fun k => vscale (c_weight k * c_row k a) (c_target k))
            (map (rotation_constraint st v) (seq 0 3))).
Proof.
  cbn [seq map Vsum fold_right]. unfold rhs_rotation_term, rotation_constraint.
  cbn [c_weight c_row c_target]. unfold GetMatrixVariablePos.
  set (D := msub _ _).
  repeat match goal with
  | |- context [(?p =? ?q)%nat] => destruct (Nat.eqb_spec p q); try lia
  end; unfold ind; destruct D as [[? ? ?] [? ? ?] [? ? ?]]; vec_eq.
Qed.

(** The right-hand side is the right-hand side of the normal equations. *)
Lemma build_rhs_ls a :
  partition_wf st -> faces_in_range st ->
  row (build_rhs st) a = ls_rhs (solver_constraints st) a.
Proof.
  intros Hp Hr. destruct (build_rhs_rows a Hp Hr) as [_ ->].
  unfold ls_rhs, solver_constraints.
  rewrite map_app, Vsum_app, !Vsum_flat_map_gen.
  rewrite <- Vsum_filter. unfold directed_edges. rewrite Vsum_flat_map.
  rewrite <- (map_face_at
    (fun t => Vsum (map (fun x => if has_fixed_endpoint st x
                                  then rhs_edge_term st x a else vzero)
                        [(fb t, fc t); (fc t, fa t); (fa t, fb t)]))).
  unfold rhs_rotation. fold N. rewrite rhs_rotation_sum by lia.
  rewrite (@Vsum_map_ext _ _ _ (seq 0 (rows (vertices_ st)))
             (fun v _ => rhs_rotation_term_ls v a)).
  rewrite (@Vsum_map_ext _
             (fun f => Vsum (map (fun x => if has_fixed_endpoint st x
                                  then rhs_edge_term st x a else vzero)
                        [(fb (face_at (faces_ st) f), fc (face_at (faces_ st) f));
                         (fc (face_at (faces_ st) f), fa (face_at (faces_ st) f));
                         (fa (face_at (faces_ st) f), fb (face_at (faces_ st) f))]))
             (fun f => Vsum (map (fun k => vscale (c_weight k * c_row k a) (c_target k))
                                 (map (edge_constraint st f) (seq 0 3))))
             (seq 0 (length (faces_ st)))).
  - vec_eq.
  - intros f _. cbn [seq map Vsum fold_right]. rewrite !rhs_edge_term_ls.
    unfold edge_constraint. cbn [c_weight c_row c_target edge_map fst snd fidx].
    reflexivity.
Qed.

Lemma unknowns_position V Rs i :
  partition_wf st -> (i < rows (vertices_ st))%nat ->
  type (info_at st i) = Free ->
  (pos (info_at st i) < N)%nat /\
  unknowns st V Rs (pos (info_at st i)) = row V i.
Proof.
  intros [_ [_ Hpos]] Hi Ht. destruct (Hpos i Hi Ht) as [Hlt Hnth].
  split; [subst N; lia|]. unfold unknowns.
  destruct (Nat.ltb_spec (pos (info_at st i)) (length (free_ st))); [|lia].
  now rewrite Hnth.
Qed.

Lemma unknowns_rotation V Rs v c :
  (c < 3)%nat ->
  unknowns st V Rs (GetMatrixVariablePos st v c) = mcol (mat_at Rs v) c.
Proof.
  intros Hc. unfold unknowns, GetMatrixVariablePos.
  destruct (Nat.ltb_spec (length (free_ st) + 3 * v + c) (length (free_ st))); [lia|].
  replace (length (free_ st) + 3 * v + c - length (free_ st))%nat
    with (c + v * 3)%nat by lia.
  rewrite Nat.div_add, Nat.Div0.mod_add by lia.
  rewrite Nat.div_small, Nat.mod_small by lia. reflexivity.
Qed.

Lemma apply_row_unit n p x :
  (p < n)%nat -> apply_row n (fun a => ind (a =? p)%nat) x = x p.
Proof.
  intros Hp.
  rewrite (@apply_row_ext n _ (fun a => ind (a =? p)%nat * 1) x x)
    by (intros; try ring; reflexivity).
  rewrite apply_row_pick. destruct (Nat.ltb_spec p n); [vec_eq | lia].
Qed.

(** The row vector of an edge applied to the unknowns: the difference of the
    free endpoints minus the rotated rest edge. *)
Lemma apply_edge_row V Rs i j :
  partition_wf st ->
  (i < rows (vertices_ st))%nat -> (j < rows (vertices_ st))%nat ->
  apply_row N (edge_row_form st i j) (unknowns st V Rs) =
  vsub (vsub (if is_free (type (info_at st i)) then row V i else vzero)
             (if is_free (type (info_at st j)) then row V j else vzero))
       (mvmul (mat_at Rs i)
              (vsub (row (vertices_ st) i) (row (vertices_ st) j))).
Proof.
  intros Hp Hi Hj.
  set (v := vsub (row (vertices_ st) i) (row (vertices_ st) j)).
  rewrite (@apply_row_ext N _
             (fun a => ind (a =? pos (info_at st i))%nat
                         * ind (is_free (type (info_at st i)))
                       + (ind (a =? pos (info_at st j))%nat
                            * (- ind (is_free (type (info_at st j))))
                          + (ind (a =? GetMatrixVariablePos st i 0)%nat * (- vget v 0)
                             + (ind (a =? GetMatrixVariablePos st i 1)%nat * (- vget v 1)
                                + ind (a =? GetMatrixVariablePos st i 2)%nat * (- vget v 2)))))
             (unknowns st V Rs) (unknowns st V Rs)); [| |reflexivity].
  2:{ intros a _. unfold edge_row_form. fold v.
      destruct (is_free (type (info_at st i))), (is_free (type (info_at st j)));
        cbn [andb];
        destruct (a =? pos (info_at st i))%nat, (a =? pos (info_at st j))%nat;
        unfold ind; ring. }
  rewrite !apply_row_plus, !apply_row_pick.
  assert (H0 : (GetMatrixVariablePos st i 0 < N)%nat)
    by (unfold GetMatrixVariablePos; subst N; lia).
  assert (H1 : (GetMatrixVariablePos st i 1 < N)%nat)
    by (unfold GetMatrixVariablePos; subst N; lia).
  assert (H2 : (GetMatrixVariablePos st i 2 < N)%nat)
    by (unfold GetMatrixVariablePos; subst N; lia).
  apply Nat.ltb_lt in H0, H1, H2. rewrite H0, H1, H2.
  rewrite !unknowns_rotation by lia.
  assert (Ei : (if (pos (info_at st i) <? N)%nat
                then vscale (ind (is_free (type (info_at st i))))
                            (unknowns st V Rs (pos (info_at st i)))
                else vzero) =
               if is_free (type (info_at st i)) then row V i else vzero).
  { destruct (type (info_at st i)) eqn:T; cbn [is_free ind].
    - destruct (@unknowns_position V Rs i Hp Hi T) as [Hlt ->].
      apply Nat.ltb_lt in Hlt. rewrite Hlt. vec_eq.
    - destruct (pos (info_at st i) <? N)%nat; vec_eq. }
  assert (Ej : (if (pos (info_at st j) <? N)%nat
                then vscale (- ind (is_free (type (info_at st j))))
                            (unknowns st V Rs (pos (info_at st j)))
                else vzero) =
               vsub vzero (if is_free (type (info_at st j)) then row V j else vzero)).
  { destruct (type (info_at st j)) eqn:T; cbn [is_free ind].
    - destruct (@unknowns_position V Rs j Hp Hj T) as [Hlt ->].
      apply Nat.ltb_lt in Hlt. rewrite Hlt. vec_eq.
    - destruct (pos (info_at st j) <? N)%nat; vec_eq. }
  rewrite Ei, Ej.
  destruct (mat_at Rs i) as [[? ? ?] [? ? ?] [? ? ?]].
  destruct v as [? ? ?].
  destruct (if is_free (type (info_at st i)) then row V i else vzero).
  destruct (if is_free (type (info_at st j)) then row V j else vzero).
  vec_eq.
Qed.

(** The energy of an edge is the energy of its constraint. *)
Lemma edge_energy_ls V Rs f e :
  partition_wf st -> faces_in_range st -> (f < length (faces_ st))%nat ->
  (forall v, (v < rows (vertices_ st))%nat -> type (info_at st v) = Fixed ->
             row V v = row (vertices_updated_ st) v) ->
  edge_energy st V Rs f e =
  c_weight (edge_constraint st f e) / 2
  * squaredNorm (c_residual N (unknowns st V Rs) (edge_constraint st f e)).
Proof.
  intros Hp Hr Hf HV.
  pose proof (face_at_in_range (fst (edge_map e)) Hr Hf) as H1.
  pose proof (face_at_in_range (snd (edge_map e)) Hr Hf) as H2.
  unfold edge_energy, edge_constraint, c_residual.
  cbn [c_weight c_row c_target].
  set (first := fidx _ (fst (edge_map e))) in *.
  set (second := fidx _ (snd (edge_map e))) in *.
  rewrite apply_edge_row by assumption.
  unfold edge_target.
  assert (E : vsub
    (vsub
       (vsub (if is_free (type (info_at st first)) then row V first else vzero)
          (if is_free (type (info_at st second)) then row V second else vzero))
       (mvmul (mat_at Rs first)
          (vsub (row (vertices_ st) first) (row (vertices_ st) second))))
    (if is_fixed (type (info_at st second))
     then
      vadd
        (if is_fixed (type (info_at st first))
         then vsub vzero (row (vertices_updated_ st) first)
         else vzero) (row (vertices_updated_ st) second)
     else
      if is_fixed (type (info_at st first))
      then vsub vzero (row (vertices_updated_ st) first)
      else vzero) =
    vsub (vsub (row V first) (row V second))
         (mvmul (mat_at Rs first)
            (vsub (row (vertices_ st) first) (row (vertices_ st) second)))).
  { destruct (type (info_at st first)) eqn:T1, (type (info_at st second)) eqn:T2;
      cbn [is_free is_fixed];
      rewrite <- ?(HV first H1 T1), <- ?(HV second H2 T2);
      set (m := mvmul _ _); destruct m, (row V first), (row V second); vec_eq. }
  cbv zeta. rewrite E. field.
Qed.

(** The augmented term of a vertex is the energy of its three constraints. *)
Lemma rotation_energy_ls V Rs v :
  (v < rows (vertices_ st))%nat ->
  rho_ st / 2 * msquaredNorm (madd (msub (mat_at Rs v) (mat_at (S_ st) v))
                                   (mat_at (T_ st) v)) =
  Rsum (map (fun k => c_weight k / 2
                      * squaredNorm (c_residual N (unknowns st V Rs) k))
            (map (rotation_constraint st v) (seq 0 3))).
Proof.
  intros Hv. cbn [seq map Rsum fold_right].
  unfold c_residual, rotation_constraint. cbn [c_weight c_row c_target].
  rewrite !apply_row_unit by (unfold GetMatrixVariablePos; subst N; lia).
  rewrite !unknowns_rotation by lia.
  destruct (mat_at Rs v) as [[? ? ?] [? ? ?] [? ? ?]],
    (mat_at (S_ st) v) as [[? ? ?] [? ? ?] [? ? ?]],
    (mat_at (T_ st) v) as [[? ? ?] [? ? ?] [? ? ?]].
  mat_unfold. field.
Qed.

(** ComputeLinearSolveEnergy is the least-squares energy of the constraints,
    whenever the positions given keep the Fixed vertices. *)
Lemma ComputeLinearSolveEnergy_ls V Rs :
  partition_wf st -> faces_in_range st ->
  (forall v, (v < rows (vertices_ st))%nat -> type (info_at st v) = Fixed ->
             row V v = row (vertices_updated_ st) v) ->
  ComputeLinearSolveEnergy st V Rs =
  ls_energy N (solver_constraints st) (unknowns st V Rs).
Proof.
  intros Hp Hr HV. unfold ComputeLinearSolveEnergy. cbv zeta.
  rewrite (@fold_left_Rplus _
             (fun v => rho_ st / 2 * msquaredNorm
                         (madd (msub (mat_at Rs v) (mat_at (S_ st) v))
                               (mat_at (T_ st) v)))).
  rewrite (@fold_left_measure R nat (fun x => x) _
             (fun f => Rsum (map (fun e => edge_energy st V Rs f e) (seq 0 3))))
    by (intros a f _; apply fold_left_Rplus).
  unfold ls_energy, solver_constraints.
  rewrite map_app, Rsum_app, !Rsum_flat_map_gen. rewrite Rplus_0_l. f_equal.
  - apply Rsum_map_ext. intros f Hf. apply in_seq in Hf.
    rewrite map_map. apply Rsum_map_ext. intros e _.
    apply edge_energy_ls; auto; lia.
  - apply Rsum_map_ext. intros v Hv. apply in_seq in Hv.
    apply rotation_energy_ls. lia.
Qed.

(** What write_back stores are the rows of the solution. *)
Lemma unknowns_write_back x a :
  partition_wf st -> state_wf st -> (a < N)%nat ->
  unknowns st (vertices_updated_ (write_back st x)) (rotations_ (write_back st x)) a
  = row x a.
Proof.
  intros [Hnd [Hfr Hpos]] [Hu [HR _]] Ha. rewrite write_back_eq.
  cbn [vertices_updated_ rotations_ with_rotations with_vertices_updated].
  unfold unknowns.
  destruct (Nat.ltb_spec a (length (free_ st))) as [Hlt|Hge].
  - apply enforce_fixed_target; auto.
    unfold rows in Hu. now rewrite Hu.
  - destruct (@vec_loop (fun v _ => transpose (block x (length (free_ st) + 3 * v)))
                (rotations_ st) (rows (vertices_ st)) ltac:(lia)) as [_ Hv].
    rewrite Hv.
    pose proof (Nat.div_mod_eq (a - length (free_ st)) 3) as Hdm.
    pose proof (Nat.mod_upper_bound (a - length (free_ st)) 3 ltac:(lia)) as Hm.
    set (q := ((a - length (free_ st)) / 3)%nat) in *.
    set (c := ((a - length (free_ st)) mod 3)%nat) in *.
    destruct (Nat.ltb_spec q (rows (vertices_ st))); [|subst N; lia].
    replace a with (length (free_ st) + 3 * q + c)%nat by lia.
    unfold block.
    destruct c as [|[|[|c]]]; [| | |lia];
      rewrite ?Nat.add_0_r;
      [destruct (row x (length (free_ st) + 3 * q))
      |destruct (row x (length (free_ st) + 3 * q + 1))
      |destruct (row x (length (free_ st) + 3 * q + 2))]; reflexivity.
Qed.

Lemma write_back_keeps_fixed x v :
  free_typed st -> type (info_at st v) = Fixed ->
  row (vertices_updated_ (write_back st x)) v = row (vertices_updated_ st) v.
Proof.
  intros Hft Hv. rewrite write_back_eq.
  cbn [vertices_updated_ with_rotations with_vertices_updated].
  apply enforce_fixed_other; [|lia].
  intros Hin. unfold free_typed in Hft. rewrite Forall_forall in Hft.
  specialize (Hft v Hin). congruence.
Qed.

Lemma edge_weights_constraints :
  0 <= rho_ st -> edge_weights_nonneg st ->
  Forall (fun k => 0 <= c_weight k) (solver_constraints st).
Proof.
  intros Hrho Hw. apply Forall_forall. intros k Hk.
  unfold solver_constraints in Hk. apply in_app_or in Hk.
  destruct Hk as [Hk|Hk]; apply in_flat_map in Hk; destruct Hk as [i [Hi Hk]];
    apply in_map_iff in Hk; destruct Hk as [e [<- He]];
    apply in_seq in Hi; apply in_seq in He.
  - unfold edge_constraint. cbn [c_weight].
    specialize (Hw i e ltac:(lia) ltac:(lia)). lra.
  - exact Hrho.
Qed.

(** An exact solution of the linear system zeroes the gradient. *)
Lemma exact_solution_stationary x a :
  partition_wf st -> faces_in_range st ->
  sp_mul_dense (Precompute_M1 st) x = build_rhs st -> (a < N)%nat ->
  ls_gradient N (solver_constraints st) (row x) a = vzero.
Proof.
  intros Hp Hr Hx Ha. rewrite ls_gradient_normal.
  rewrite <- build_rhs_ls by assumption. rewrite <- Hx.
  destruct (Precompute_M1_dims st) as [HR HC]. fold N in HR, HC.
  rewrite row_sp_mul_dense by (rewrite HR; exact Ha).
  rewrite HC, Vsum_fold_right.
  rewrite (@Vsum_map_ext _ (fun b => vscale (coeff (Precompute_M1 st) a b) (row x b))
             (fun b => vscale (ls_matrix (solver_constraints st) a b) (row x b)))
    by (intros; now rewrite Precompute_M1_ls).
  vec_eq.
Qed.

(** The write-back of an exact solution minimises the energy. *)
Lemma write_back_optimal (x V : MatrixXd) (Rs : list Matrix3d) :
  partition_wf st -> free_typed st -> faces_in_range st -> state_wf st ->
  0 <= rho_ st -> edge_weights_nonneg st ->
  M_ st = Precompute_M1 st ->
  sp_mul_dense (M_ st) x = build_rhs st ->
  (forall v, (v < rows (vertices_ st))%nat -> type (info_at st v) = Fixed ->
             row V v = row (vertices_updated_ st) v) ->
  ComputeLinearSolveEnergy st (vertices_updated_ (write_back st x))
                              (rotations_ (write_back st x))
  <= ComputeLinearSolveEnergy st V Rs.
Proof.
  intros Hp Hft Hr Hwf Hrho Hw HM Hx HV. rewrite HM in Hx.
  rewrite (@ComputeLinearSolveEnergy_ls V Rs Hp Hr HV).
  rewrite ComputeLinearSolveEnergy_ls; try assumption.
  - rewrite (@ls_energy_ext N _ _ (row x))
      by (intros a Ha; now apply unknowns_write_back).
    apply ls_optimal; [now apply edge_weights_constraints|].
    intros a Ha. now apply exact_solution_stationary.
  - intros v _ Hv. now apply write_back_keeps_fixed.
Qed.

(** X14: the linear solve is a minimisation.  When the System Matrix is the
    one Precompute assembles from the weights, rho and the edge weights are
    non-negative, and [x] solves M x = rhs exactly, the positions and
    rotations that the write-back takes from [x] give
    ComputeLinearSolveEnergy its least value: no other positions that keep
    the Fixed vertices, and no other 3x3 matrices, have a smaller one.  In
    particular the step does not raise the energy of the positions and
    rotations it starts from. *)
Theorem LinearSolve_minimises (x : MatrixXd) :
  partition_wf st -> free_typed st -> faces_in_range st -> state_wf st ->
  0 <= rho_ st -> edge_weights_nonneg st ->
  M_ st = Precompute_M1 st ->
  sp_mul_dense (M_ st) x = build_rhs st ->
  (forall V Rs,
     (forall v, (v < rows (vertices_ st))%nat -> type (info_at st v) = Fixed ->
                row V v = row (vertices_updated_ st) v) ->
     ComputeLinearSolveEnergy st (vertices_updated_ (write_back st x))
                                 (rotations_ (write_back st x))
     <= ComputeLinearSolveEnergy st V Rs) /\
  ComputeLinearSolveEnergy st (vertices_updated_ (write_back st x))
                              (rotations_ (write_back st x))
  <= ComputeLinearSolveEnergy st (vertices_updated_ st) (rotations_ st).
Proof.
  intros Hp Hft Hr Hwf Hrho Hw HM Hx. split.
  - intros V Rs HV. now apply write_back_optimal.
  - apply write_back_optimal; try assumption. intros v _ _. reflexivity.
Qed.

End LinearSolveOptimal.

Section LinearSolveOptimalDemo.

Lemma demo_assembled_exact :
  sp_mul_dense (M_ demo_assembled) demo_translated = build_rhs demo_assembled.
Proof. demo_compute. repeat (f_equal; try lra). Qed.

Lemma demo_assembled_wf :
  partition_wf demo_assembled /\ free_typed demo_assembled /\
  faces_in_range demo_assembled /\ state_wf demo_assembled /\
  0 <= rho_ demo_assembled /\ edge_weights_nonneg demo_assembled /\
  M_ demo_assembled = Precompute_M1 demo_assembled.
Proof.
  split; [apply demo_partition_wf; reflexivity|].
  split; [repeat constructor|].
  split; [apply demo_faces_in_range; reflexivity|].
  split; [repeat split|].
  split; [simpl; lra|].
  split; [apply demo_edge_weights_nonneg; reflexivity|].
  unfold demo_assembled. cbn [M_ with_M]. apply Precompute_M1_setup; reflexivity.
Qed.

Lemma LinearSolve_minimises_demo :
  (forall V Rs,
     (forall v, (v < rows (vertices_ demo_assembled))%nat ->
                type (info_at demo_assembled v) = Fixed ->
                row V v = row (vertices_updated_ demo_assembled) v) ->
     ComputeLinearSolveEnergy demo_assembled
       (vertices_updated_ (write_back demo_assembled demo_translated))
       (rotations_ (write_back demo_assembled demo_translated))
     <= ComputeLinearSolveEnergy demo_assembled V Rs) /\
  ComputeLinearSolveEnergy demo_assembled
    (vertices_updated_ (write_back demo_assembled demo_translated))
    (rotations_ (write_back demo_assembled demo_translated))
  <= ComputeLinearSolveEnergy demo_assembled
       (vertices_updated_ demo_assembled) (rotations_ demo_assembled).
Proof.
  destruct demo_assembled_wf as [Hp [Hft [Hr [Hwf [Hrho [Hw HM]]]]]].
  exact (@LinearSolve_minimises demo_assembled demo_translated
           Hp Hft Hr Hwf Hrho Hw HM demo_assembled_exact).
Defined.

End LinearSolveOptimalDemo.

(* ================================================================= *)
(** ** CheckLinearSolve accepts the write-back of an exact solution *)

Section CheckLinearSolveProofs.

Variable st : Solver.

Lemma row_entry_set_other m i j x v :
  v <> i -> row (entry_set m i j x) v = row m v.
Proof. intros H. unfold entry_set. apply row_set_row_other. congruence. Qed.

Lemma ComputeLinearSolveEnergy_write_back x V Rs :
  ComputeLinearSolveEnergy (write_back st x) V Rs =
  ComputeLinearSolveEnergy st V Rs.
Proof. rewrite write_back_eq. reflexivity. Qed.

Lemma write_back_setup x :
  free_ (write_back st x) = free_ st /\
  vertices_ (write_back st x) = vertices_ st.
Proof. rewrite write_back_eq. split; reflexivity. Qed.

(** A loop whose body never returns early keeps its invariant. *)
Lemma unless_returned_invariant {A X} (P : A -> Prop)
    (body : A -> X -> option A) l :
  (forall a x, In x l -> P a -> exists a', body a x = Some a' /\ P a') ->
  forall a, P a ->
    exists a', fold_left (unless_returned body) l (Some a) = Some a' /\ P a'.
Proof.
  induction l as [|h t IH]; simpl; intros Hb a Ha.
  - now exists a.
  - destruct (Hb a h (or_introl eq_refl) Ha) as [a' [E Ha']]. rewrite E.
    apply IH; [|exact Ha']. intros; apply Hb; auto.
Qed.

Lemma option_loop_invariant {A X} (P : A -> Prop)
    (step : option A -> X -> option A) l :
  (forall a x, In x l -> P a -> exists a', step (Some a) x = Some a' /\ P a') ->
  forall a, P a -> exists a', fold_left step l (Some a) = Some a' /\ P a'.
Proof.
  induction l as [|h t IH]; simpl; intros Hb a Ha.
  - now exists a.
  - destruct (Hb a h (or_introl eq_refl) Ha) as [a' [E Ha']]. rewrite E.
    apply IH; [|exact Ha']. intros; apply Hb; auto.
Qed.

Lemma product_of_increases a b : 0 <= a -> 0 <= b -> ~ a * b < 0.
Proof. intros Ha Hb. pose proof (Rmult_le_pos a b Ha Hb). lra. Qed.

(** No perturbation lowers the energy of an exact solution. *)
Lemma CheckLinearSolve_write_back (x : MatrixXd) :
  partition_wf st -> free_typed st -> faces_in_range st -> state_wf st ->
  0 <= rho_ st -> edge_weights_nonneg st ->
  M_ st = Precompute_M1 st ->
  sp_mul_dense (M_ st) x = build_rhs st ->
  CheckLinearSolve (write_back st x) = true.
Proof.
  intros Hp Hft Hr Hwf Hrho Hw HM Hx.
  destruct (write_back_setup x) as [Efree Everts].
  unfold CheckLinearSolve. cbv zeta. rewrite Efree, Everts.
  set (st1 := write_back st x). fold st1 in Efree, Everts.
  set (opt := ComputeLinearSolveEnergy st1 (vertices_updated_ st1) (rotations_ st1)).
  pose (P := fun V : MatrixXd =>
               forall v, (v < rows (vertices_ st))%nat ->
                         type (info_at st v) = Fixed ->
                         row V v = row (vertices_updated_ st) v).
  assert (Hopt : forall V Rs, P V -> 0 <= ComputeLinearSolveEnergy st1 V Rs - opt).
  { intros V Rs HV. unfold opt, st1.
    rewrite !ComputeLinearSolveEnergy_write_back.
    pose proof (@write_back_optimal st x V Rs Hp Hft Hr Hwf Hrho Hw HM Hx HV).
    lra. }
  assert (Hset : forall V i j y, (i < length (free_ st))%nat -> P V ->
                   P (entry_set V (nth i (free_ st) 0%nat) j y)).
  { intros V i j y Hi HV v Hv Ht. rewrite row_entry_set_other; [now apply HV|].
    intros ->. unfold free_typed in Hft. rewrite Forall_forall in Hft.
    rewrite (Hft (nth i (free_ st) 0%nat)) in Ht by (apply nth_In; exact Hi).
    discriminate. }
  assert (HP1 : P (vertices_updated_ st1)).
  { intros v _ Ht. unfold st1. now apply write_back_keeps_fixed. }
  destruct (@option_loop_invariant _ _ P
              (fun acc i =>
                 fold_left (unless_returned
                              (fun vertices j =>
                                 check_vertex_entry st1 opt 0.001 (rotations_ st1)
                                                    vertices i j))
                           (seq 0 3) acc)
              (seq 0 (length (free_ st)))) with (a := vertices_updated_ st1)
    as [V1 [EV1 HV1]]; [|exact HP1|].
  { intros V i Hi HV. apply in_seq in Hi.
    apply unless_returned_invariant; [|exact HV].
    intros V' j _ HV'. unfold check_vertex_entry. cbv zeta.
    rewrite Efree. unfold entry_add, entry_sub.
    match goal with
    | |- context [Rlt_dec ?p 0] => destruct (Rlt_dec p 0) as [Hlt|_]
    end.
    - exfalso. revert Hlt. apply product_of_increases; apply Hopt;
        repeat apply Hset; auto; lia.
    - eexists; split; [reflexivity|]. repeat apply Hset; auto; lia. }
  rewrite EV1.
  destruct (@option_loop_invariant _ _ (fun _ : list Matrix3d => True)
              (fun acc v =>
                 fold_left (fun acc i =>
                              fold_left (unless_returned
                                           (fun Rs j =>
                                              check_rotation_entry st1 opt 0.001
                                                V1 Rs v i j))
                                        (seq 0 3) acc)
                           (seq 0 3) acc)
              (seq 0 (rows (vertices_ st)))) with (a := rotations_ st1)
    as [R1 [ER1 _]]; [|exact I|].
  { intros Rs v _ _.
    apply option_loop_invariant; [|exact I]. intros Rs' i _ _.
    apply unless_returned_invariant; [|exact I]. intros Rs'' j _ _.
    unfold check_rotation_entry. cbv zeta.
    match goal with
    | |- context [Rlt_dec ?p 0] => destruct (Rlt_dec p 0) as [Hlt|_]
    end.
    - exfalso. revert Hlt. apply product_of_increases; apply Hopt; exact HV1.
    - eexists; split; [reflexivity | exact I]. }
  rewrite ER1. reflexivity.
Qed.

(** X15: CheckLinearSolve accepts the write-back of an exact solution: under
    the conditions that make the linear solve a minimisation, no
    perturbation of a free coordinate or of a rotation entry, in either
    direction, lowers ComputeLinearSolveEnergy, so the function returns
    true. *)
Theorem CheckLinearSolve_accepts (x : MatrixXd) :
  partition_wf st -> free_typed st -> faces_in_range st -> state_wf st ->
  0 <= rho_ st -> edge_weights_nonneg st ->
  M_ st = Precompute_M1 st ->
  sp_mul_dense (M_ st) x = build_rhs st ->
  CheckLinearSolve (write_back st x) = true.
Proof. apply CheckLinearSolve_write_back. Qed.

End CheckLinearSolveProofs.

Section CheckLinearSolveDemo.

Lemma CheckLinearSolve_accepts_demo :
  CheckLinearSolve (write_back demo_assembled demo_translated) = true.
Proof.
  destruct demo_assembled_wf as [Hp [Hft [Hr [Hwf [Hrho [Hw HM]]]]]].
  apply (@CheckLinearSolve_accepts demo_assembled demo_translated
           Hp Hft Hr Hwf Hrho Hw HM demo_assembled_exact).
Defined.

End CheckLinearSolveDemo.

(* ================================================================= *)
(** ** The energies of the two steps split the augmented energy *)

Section EnergySplit.

Variable st : Solver.

(** X16: the objectives of the two steps add up.  When every S_v passes
    IsSO3, ComputeLinearSolveEnergy at the current positions and rotations
    is the "ARAP" entry of ComputeEnergy plus the value of
    ComputeSVDSolveEnergy; when moreover every T_v is zero it is the
    "Total" entry of ComputeEnergy. *)
Theorem step_energies_split :
  (forall v, (v < rows (vertices_ st))%nat -> IsSO3 (mat_at (S_ st) v) = true) ->
  (exists arap aug,
     energy_of (ComputeEnergy st) "ARAP" = Some (Finite arap) /\
     ComputeSVDSolveEnergy st = Finite aug /\
     ComputeLinearSolveEnergy st (vertices_updated_ st) (rotations_ st)
     = arap + aug) /\
  ((forall v, (v < rows (vertices_ st))%nat -> mat_at (T_ st) v = Zero) ->
   energy_of (ComputeEnergy st) "Total" =
   Some (Finite (ComputeLinearSolveEnergy st (vertices_updated_ st)
                                             (rotations_ st)))).
Proof.
  intros HS.
  assert (HS' : forall v, (v < rows (vertices_ st))%nat ->
                          SO3_invariant (mat_at (S_ st) v))
    by (intros v Hv; apply IsSO3_true; auto).
  assert (HL : ComputeLinearSolveEnergy st (vertices_updated_ st) (rotations_ st) =
               arap_term st
               + Rsum (map (fun v => msquaredNorm
                                (madd (msub (mat_at (rotations_ st) v)
                                            (mat_at (S_ st) v))
                                      (mat_at (T_ st) v)))
                    (seq 0 (rows (vertices_ st)))) * (rho_ st / 2)).
  { unfold ComputeLinearSolveEnergy. cbv zeta.
    rewrite (@fold_left_Rplus _
               (fun v => rho_ st / 2 * msquaredNorm
                           (madd (msub (mat_at (rotations_ st) v) (mat_at (S_ st) v))
                                 (mat_at (T_ st) v)))).
    rewrite (@edge_loop_sum st _ (arap_edge_term st)) by reflexivity.
    fold (arap_term st). rewrite Rsum_map_scale. ring. }
  rewrite (ComputeEnergy_finite st HS'), (ComputeSVDSolveEnergy_finite st HS').
  split.
  - eexists; eexists. split; [reflexivity|]. split; [reflexivity|]. exact HL.
  - intros HT. rewrite HL. cbn. do 3 f_equal. unfold rotation_term.
    rewrite (@Rsum_map_ext _
               (fun v => msquaredNorm (madd (msub (mat_at (rotations_ st) v)
                                                  (mat_at (S_ st) v))
                                            (mat_at (T_ st) v)))
               (fun v => msquaredNorm (msub (mat_at (rotations_ st) v)
                                            (mat_at (S_ st) v)))).
    + ring.
    + intros v Hv. apply in_seq in Hv. rewrite HT by lia.
      destruct (msub _ _) as [[? ? ?] [? ? ?] [? ? ?]]. mat_unfold. ring.
Qed.

End EnergySplit.

Section EnergySplitDemo.

Lemma step_energies_split_demo :
  (exists arap aug,
     energy_of (ComputeEnergy demo_moved) "ARAP" = Some (Finite arap) /\
     ComputeSVDSolveEnergy demo_moved = Finite aug /\
     ComputeLinearSolveEnergy demo_moved (vertices_updated_ demo_moved)
                              (rotations_ demo_moved) = arap + aug) /\
  ((forall v, (v < rows (vertices_ demo_moved))%nat ->
              mat_at (T_ demo_moved) v = Zero) ->
   energy_of (ComputeEnergy demo_moved) "Total" =
   Some (Finite (ComputeLinearSolveEnergy demo_moved
                   (vertices_updated_ demo_moved) (rotations_ demo_moved)))).
Proof.
  apply (@step_energies_split demo_moved).
  intros v Hv. apply IsSO3_true.
  change (v < 3)%nat in Hv.
  destruct v as [|[|[|v]]]; try lia;
    apply exact_rotation_invariant, Identity_exact.
Defined.

End EnergySplitDemo.

(* ================================================================= *)
(** ** Meshes without obtuse angles have non-negative edge weights *)

Section NonObtuse.

Variable st : Solver.

Lemma triangle_area_nonneg A B C : 0 <= triangle_area A B C.
Proof.
  unfold triangle_area, norm.
  pose proof (sqrt_pos (squaredNorm (cross (vsub B A) (vsub C A)))). lra.
Qed.

Lemma cotangent_formula_nonneg P Q1 Q2 area :
  0 < area -> 0 <= dot (vsub Q1 P) (vsub Q2 P) ->
  0 <= cotangent_formula P Q1 Q2 area.
Proof.
  intros Ha Hd. unfold cotangent_formula. rewrite <- polarization.
  apply Rmult_le_pos; [lra|]. apply Rlt_le, Rinv_0_lt_compat. lra.
Qed.

Lemma ComputeCotangent_nonneg f k :
  face_non_obtuse st f -> 0 <= vget (ComputeCotangent st f) k.
Proof.
  intros [Ha [H0 [H1 H2]]].
  rewrite ComputeCotangent_entries.
  pose proof (triangle_area_nonneg (corner st f 0) (corner st f 1) (corner st f 2)).
  assert (Hpos : 0 < triangle_area (corner st f 0) (corner st f 1) (corner st f 2))
    by lra.
  destruct k as [|[|k]]; cbn [vget vx vy vz];
    apply cotangent_formula_nonneg; assumption.
Qed.

Lemma Precompute_weight_offdiag_nonneg i j :
  mesh_non_obtuse st -> i <> j -> 0 <= coeff (Precompute_weight st) i j.
Proof.
  intros Hm Hij. rewrite Precompute_weight_offdiag by exact Hij.
  apply Rsum_map_nonneg. intros f Hf. apply in_seq in Hf.
  apply Rsum_map_nonneg. intros k _.
  destruct (index_map_routes st f k i j); [|lra].
  pose proof (@ComputeCotangent_nonneg f k (Hm f ltac:(lia))). lra.
Qed.

(** X17: on a mesh whose faces have no obtuse angle (and non-zero area)
    every off-diagonal entry of the Weight Matrix is non-negative; when no
    face names a vertex twice, so is every weight the loops over the edges
    read after Precompute. *)
Theorem non_obtuse_weights_nonneg :
  mesh_non_obtuse st ->
  (forall i j, i <> j -> 0 <= coeff (Precompute_weight st) i j) /\
  (faces_nondegenerate st ->
   edge_weights_nonneg (with_weight st (Precompute_weight st))).
Proof.
  intros Hm. split.
  - intros i j Hij. now apply Precompute_weight_offdiag_nonneg.
  - intros Hdeg f e Hf He. cbn [weight_ faces_ with_weight] in *.
    apply Precompute_weight_offdiag_nonneg; [exact Hm|].
    unfold faces_nondegenerate in Hdeg. rewrite Forall_forall in Hdeg.
    specialize (Hdeg (face_at (faces_ st) f) (nth_In _ _ Hf)).
    destruct e as [|[|[|e]]]; simpl; try lia; intuition congruence.
Qed.

End NonObtuse.

Section NonObtuseDemo.

Lemma demo_mesh_non_obtuse : mesh_non_obtuse demo_solver.
Proof.
  intros f Hf. change (f < 1)%nat in Hf. destruct f as [|f]; [|lia].
  unfold face_non_obtuse. cbv zeta. split.
  - unfold triangle_area, norm.
    assert (0 < sqrt (squaredNorm (cross (vsub (corner demo_solver 0 1)
                                               (corner demo_solver 0 0))
                                         (vsub (corner demo_solver 0 2)
                                               (corner demo_solver 0 0))))).
    { apply sqrt_lt_R0. demo_compute. lra. }
    lra.
  - repeat split; demo_compute; lra.
Qed.

Lemma non_obtuse_weights_nonneg_demo :
  (forall i j, i <> j -> 0 <= coeff (Precompute_weight demo_solver) i j) /\
  (faces_nondegenerate demo_solver ->
   edge_weights_nonneg (with_weight demo_solver (Precompute_weight demo_solver))).
Proof. exact (@non_obtuse_weights_nonneg demo_solver demo_mesh_non_obtuse). Defined.

End NonObtuseDemo.

(* ================================================================= *)
(** ** With exact kernels the test functions never fire *)

Section TestedIteration.

Variable cholesky_solve : SparseMatrix -> MatrixXd -> MatrixXd * ComputationInfo.
Variable polar_svd3x3 : Matrix3d -> Matrix3d.

Lemma dense_sub_self a : dense_squaredNorm (dense_sub a a) = 0.
Proof.
  induction a as [|v a IH]; simpl; [reflexivity|].
  rewrite IH. destruct v. mat_unfold. ring.
Qed.

(** An exact answer of the solver passes the sanity checks. *)
Lemma LinearSolve_exact st x :
  cholesky_solve (solver_ st) (build_rhs st) = (x, Success) ->
  rows x = (length (free_ st) + 3 * rows (vertices_ st))%nat ->
  sp_mul_dense (M_ st) x = build_rhs st ->
  LinearSolve cholesky_solve st = Returns (write_back st x).
Proof.
  intros Hs Hrows Hx. unfold LinearSolve. rewrite Hs. cbn [fst snd is_success negb].
  rewrite Hrows, Nat.eqb_refl. cbn [negb].
  unfold residual. rewrite Hx, dense_sub_self.
  destruct (Rgt_dec 0 kMatrixDiffThreshold) as [H|_]; [|reflexivity].
  unfold kMatrixDiffThreshold in H. lra.
Qed.

(** The projection step passes the test on the energies around it. *)
Lemma svd_test_passes st :
  length (S_ st) = rows (vertices_ st) -> 0 <= rho_ st ->
  (forall M, exact_rotation (polar_svd3x3 M)) ->
  (forall v, (v < rows (vertices_ st))%nat -> exact_rotation (mat_at (S_ st) v)) ->
  (forall v, (v < rows (vertices_ st))%nat ->
     closest_to (polar_svd3x3 (madd (mat_at (rotations_ st) v) (mat_at (T_ st) v)))
                (madd (mat_at (rotations_ st) v) (mat_at (T_ st) v))) ->
  svd_solve_error (ComputeSVDSolveEnergy st)
                  (ComputeSVDSolveEnergy (SVDSolve polar_svd3x3 st)) = false.
Proof.
  intros HS Hrho Hpolar Hrot Hclose.
  assert (Hnew : forall v, (v < rows (vertices_ st))%nat ->
            mat_at (S_ (SVDSolve polar_svd3x3 st)) v =
            polar_svd3x3 (madd (mat_at (rotations_ st) v) (mat_at (T_ st) v))).
  { intros v Hv. rewrite SVDSolve_eq. cbn [S_ with_S].
    destruct (@vec_loop
                (fun i _ => polar_svd3x3 (madd (mat_at (rotations_ st) i)
                                               (mat_at (T_ st) i)))
                (S_ st) (rows (vertices_ st)) ltac:(lia)) as [_ Hv'].
    rewrite Hv'. destruct (Nat.ltb_spec v (rows (vertices_ st))); [reflexivity | lia]. }
  assert (Esetup : vertices_ (SVDSolve polar_svd3x3 st) = vertices_ st /\
                   rotations_ (SVDSolve polar_svd3x3 st) = rotations_ st /\
                   T_ (SVDSolve polar_svd3x3 st) = T_ st /\
                   rho_ (SVDSolve polar_svd3x3 st) = rho_ st)
    by (rewrite SVDSolve_eq; repeat split).
  destruct Esetup as [Ev [ER [ET Erho]]].
  rewrite (@ComputeSVDSolveEnergy_finite st)
    by (intros v Hv; now apply exact_rotation_invariant, Hrot).
  rewrite (@ComputeSVDSolveEnergy_finite (SVDSolve polar_svd3x3 st))
    by (intros v Hv; rewrite Ev in Hv; rewrite Hnew by assumption;
        apply exact_rotation_invariant, Hpolar).
  rewrite Ev, ER, ET, Erho.
  assert (Hle :
    Rsum (map (fun v => msquaredNorm
                (madd (msub (mat_at (rotations_ st) v)
                            (mat_at (S_ (SVDSolve polar_svd3x3 st)) v))
                      (mat_at (T_ st) v)))
              (seq 0 (rows (vertices_ st))))
    <= Rsum (map (fun v => msquaredNorm
                (madd (msub (mat_at (rotations_ st) v) (mat_at (S_ st) v))
                      (mat_at (T_ st) v)))
              (seq 0 (rows (vertices_ st))))).
  { apply Rsum_map_le. intros v Hv. apply in_seq in Hv.
    rewrite Hnew by lia. rewrite !augmented_norm_as_distance.
    apply Hclose; [lia|]. apply Hrot. lia. }
  pose proof (Rmult_le_compat_r (rho_ st / 2) _ _ ltac:(lra) Hle) as H1.
  unfold svd_solve_error, kEnergyTolerance.
  destruct (Rlt_dec _ _); [lra | reflexivity].
Qed.

(** X18: with the test functions compiled in, an iteration whose linear
    solve is exact and whose kernel returns closest proper rotations passes
    both tests: it returns, and returns the state the iteration without
    tests returns. *)
Theorem tests_pass_on_exact_kernels (st : Solver) (x : MatrixXd) :
  state_wf st ->
  (forall v, (v < rows (vertices_ st))%nat -> exact_rotation (mat_at (S_ st) v)) ->
  partition_wf st -> free_typed st -> faces_in_range st ->
  0 <= rho_ st -> edge_weights_nonneg st -> M_ st = Precompute_M1 st ->
  cholesky_solve (solver_ st) (build_rhs st) = (x, Success) ->
  rows x = (length (free_ st) + 3 * rows (vertices_ st))%nat ->
  sp_mul_dense (M_ st) x = build_rhs st ->
  (forall M, exact_rotation (polar_svd3x3 M)) ->
  (forall v, (v < rows (vertices_ st))%nat ->
     closest_to
       (polar_svd3x3 (madd (mat_at (rotations_ (write_back st x)) v)
                           (mat_at (T_ st) v)))
       (madd (mat_at (rotations_ (write_back st x)) v) (mat_at (T_ st) v))) ->
  SolveOneIteration_tested cholesky_solve polar_svd3x3 st =
  SolveOneIteration cholesky_solve polar_svd3x3 st /\
  SolveOneIteration cholesky_solve polar_svd3x3 st =
  Returns (UpdateT (SVDSolve polar_svd3x3 (write_back st x))).
Proof.
  intros Hwf Hrot Hp Hft Hr Hrho Hw HM Hs Hrows Hx Hpolar Hclose.
  pose proof (LinearSolve_exact st Hs Hrows Hx) as HL.
  unfold SolveOneIteration_tested, SolveOneIteration. rewrite HL.
  rewrite (@CheckLinearSolve_write_back st x Hp Hft Hr Hwf Hrho Hw HM Hx).
  cbn [negb]. cbv zeta.
  assert (Esetup : vertices_ (write_back st x) = vertices_ st /\
                   S_ (write_back st x) = S_ st /\
                   T_ (write_back st x) = T_ st /\
                   rho_ (write_back st x) = rho_ st)
    by (rewrite write_back_eq; repeat split).
  destruct Esetup as [Ev [ES [ET Erho]]].
  rewrite svd_test_passes; [split; reflexivity| | | | |].
  - rewrite ES, Ev. apply Hwf.
  - now rewrite Erho.
  - exact Hpolar.
  - rewrite Ev, ES. exact Hrot.
  - rewrite Ev, ET. exact Hclose.
Qed.

End TestedIteration.

Section TestedIterationDemo.

Lemma tests_pass_on_exact_kernels_demo :
  SolveOneIteration_tested demo_exact_solve demo_polar demo_assembled =
  SolveOneIteration demo_exact_solve demo_polar demo_assembled /\
  SolveOneIteration demo_exact_solve demo_polar demo_assembled =
  Returns (UpdateT (SVDSolve demo_polar
                      (write_back demo_assembled demo_translated))).
Proof.
  destruct demo_assembled_wf as [Hp [Hft [Hr [Hwf [Hrho [Hw HM]]]]]].
  apply (@tests_pass_on_exact_kernels demo_exact_solve demo_polar
           demo_assembled demo_translated Hwf); try assumption.
  - intros v Hv. change (v < 3)%nat in Hv.
    destruct v as [|[|[|v]]]; try lia; apply Identity_exact.
  - reflexivity.
  - reflexivity.
  - exact demo_assembled_exact.
  - intros M. apply Identity_exact.
  - intros v Hv. change (v < 3)%nat in Hv. intros Q' _.
    assert (E : msquaredNorm (msub (demo_polar
                 (madd (mat_at (rotations_ (write_back demo_assembled demo_translated)) v)
                       (mat_at (T_ demo_assembled) v)))
                 (madd (mat_at (rotations_ (write_back demo_assembled demo_translated)) v)
                       (mat_at (T_ demo_assembled) v))) = 0).
    { destruct v as [|[|[|v]]]; try lia; demo_compute; lra. }
    rewrite E. apply msquaredNorm_nonneg.
Defined.

End TestedIterationDemo.

(* ================================================================= *)
(** ** Shape of the state and sign of the energies *)

Section ShapeInvariant.

Variable cholesky_solve : SparseMatrix -> MatrixXd -> MatrixXd * ComputationInfo.
Variable polar_svd3x3 : Matrix3d -> Matrix3d.

(** X19: the shape of the per-frame state never changes: at every state
    reached by SolvePreprocess and SolveOneIteration, whatever the external
    kernels answer, vertices_updated_ has one row per vertex and
    rotations_, S_ and T_ have one entry per vertex. *)
Theorem reachable_shape (st : Solver) :
  reachable cholesky_solve polar_svd3x3 st ->
  rows (vertices_updated_ st) = rows (vertices_ st) /\
  length (rotations_ st) = rows (vertices_ st) /\
  length (S_ st) = rows (vertices_ st) /\
  length (T_ st) = rows (vertices_ st).
Proof.
  induction 1 as [st fv st' Hret | st st' _ [Hu [HR [HS HT]]] Hret].
  - pose proof (SolvePreprocess_Returns_inv _ _ Hret) as Hrows.
    rewrite (SolvePreprocess_returns _ _ Hrows) in Hret. injection Hret as <-.
    cbn [vertices_updated_ rotations_ S_ T_ vertices_].
    split; [apply enforce_fixed_length|].
    repeat split; apply repeat_length.
  - apply SolveOneIteration_Returns_inv in Hret. destruct Hret as [st1 [H1 ->]].
    apply LinearSolve_Returns_inv in H1. cbv zeta in H1.
    destruct H1 as [_ [_ [_ ->]]].
    rewrite UpdateT_eq, SVDSolve_eq, write_back_eq.
    cbn [vertices_updated_ rotations_ S_ T_ vertices_ with_T with_S with_rotations
         with_vertices_updated free_].
    split; [unfold rows in *; now rewrite enforce_fixed_length|].
    split; [|split].
    + rewrite <- HR at 2.
      apply (@vec_loop (fun v _ => transpose (block _ (length (free_ st) + 3 * v)))
               (rotations_ st) (rows (vertices_ st))). lia.
    + rewrite <- HS at 2.
      apply (@vec_loop (fun i _ => polar_svd3x3 (madd (mat_at _ i) (mat_at (T_ st) i)))
               (S_ st) (rows (vertices_ st))). lia.
    + rewrite <- HT at 2.
      apply (@vec_loop (fun i t => madd t (msub (mat_at _ i) (mat_at _ i)))
               (T_ st) (rows (vertices_ st))). lia.
Qed.

End ShapeInvariant.

Section ShapeInvariantDemo.

Lemma reachable_shape_demo :
  let st := UpdateT (SVDSolve demo_polar (write_back demo_moved demo_moved_rhs)) in
  rows (vertices_updated_ st) = rows (vertices_ st) /\
  length (rotations_ st) = rows (vertices_ st) /\
  length (S_ st) = rows (vertices_ st) /\
  length (T_ st) = rows (vertices_ st).
Proof.
  exact (@reachable_shape demo_cholesky_solve demo_polar _
           demo_reachable_after_iteration).
Defined.

End ShapeInvariantDemo.

Section EnergySign.

Variable st : Solver.

Lemma edge_sum_nonneg V Rs :
  edge_weights_nonneg st ->
  0 <= Rsum (map (fun f => Rsum (map (fun e => edge_energy st V Rs f e) (seq 0 3)))
                 (seq 0 (length (faces_ st)))).
Proof.
  intros Hw. apply Rsum_map_nonneg. intros f Hf. apply in_seq in Hf.
  apply Rsum_map_nonneg. intros e He. apply in_seq in He.
  unfold edge_energy. apply Rmult_le_pos.
  - apply Hw; lia.
  - apply squaredNorm_nonneg.
Qed.

Lemma arap_term_loops :
  arap_term st =
  Rsum (map (fun f => Rsum (map (fun e => edge_energy st (vertices_updated_ st)
                                            (rotations_ st) f e) (seq 0 3)))
            (seq 0 (length (faces_ st)))).
Proof.
  unfold arap_term, directed_edges. rewrite Rsum_flat_map.
  rewrite <- (map_face_at
    (fun t => Rsum (map (arap_edge_term st) [(fb t, fc t); (fc t, fa t); (fa t, fb t)]))).
  apply Rsum_map_ext. intros f _. reflexivity.
Qed.

Lemma augmented_sum_nonneg (F : nat -> Matrix3d) l :
  0 <= Rsum (map (fun v => msquaredNorm (F v)) l).
Proof. apply Rsum_map_nonneg. intros v _. apply msquaredNorm_nonneg. Qed.

(** X20: with non-negative rho and non-negative edge weights no energy the
    solver computes is negative: not ComputeLinearSolveEnergy, at any
    positions and matrices, not a finite entry of ComputeEnergy, not a
    finite value of ComputeSVDSolveEnergy. *)
Theorem energies_nonneg (V : MatrixXd) (Rs : list Matrix3d) :
  0 <= rho_ st -> edge_weights_nonneg st ->
  0 <= ComputeLinearSolveEnergy st V Rs /\
  (forall name x, energy_of (ComputeEnergy st) name = Some (Finite x) -> 0 <= x) /\
  (forall x, ComputeSVDSolveEnergy st = Finite x -> 0 <= x).
Proof.
  intros Hrho Hw.
  assert (Harap : 0 <= arap_term st)
    by (rewrite arap_term_loops; now apply edge_sum_nonneg).
  assert (Hrot : 0 <= rotation_term st).
  { unfold rotation_term. apply Rmult_le_pos; [lra|].
    apply (augmented_sum_nonneg
             (fun v => msub (mat_at (rotations_ st) v) (mat_at (S_ st) v))). }
  split; [|split].
  - unfold ComputeLinearSolveEnergy. cbv zeta.
    rewrite (@fold_left_Rplus _
               (fun v => rho_ st / 2 * msquaredNorm
                           (madd (msub (mat_at Rs v) (mat_at (S_ st) v))
                                 (mat_at (T_ st) v)))).
    rewrite (@fold_left_measure R nat (fun x => x) _
               (fun f => Rsum (map (fun e => edge_energy st V Rs f e) (seq 0 3))))
      by (intros a f _; apply fold_left_Rplus).
    pose proof (edge_sum_nonneg V Rs Hw).
    rewrite Rsum_map_scale.
    pose proof (augmented_sum_nonneg
                  (fun v => madd (msub (mat_at Rs v) (mat_at (S_ st) v))
                                 (mat_at (T_ st) v))
                  (seq 0 (rows (vertices_ st)))).
    assert (0 <= rho_ st / 2 *
                 Rsum (map (fun v => msquaredNorm
                              (madd (msub (mat_at Rs v) (mat_at (S_ st) v))
                                    (mat_at (T_ st) v)))
                           (seq 0 (rows (vertices_ st)))))
      by (apply Rmult_le_pos; lra).
    lra.
  - intros name x. rewrite ComputeEnergy_cases.
    destruct (existsb _ _); cbn [energy_of].
    + destruct (String.eqb "Total" name); [discriminate | discriminate].
    + destruct (String.eqb "Total" name); [intros E; injection E as <-; lra|].
      destruct (String.eqb "Rotation" name); [intros E; injection E as <-; lra|].
      destruct (String.eqb "ARAP" name); [intros E; injection E as <-; lra|].
      discriminate.
  - intros x. unfold ComputeSVDSolveEnergy.
    destruct (existsb _ _); [discriminate|].
    rewrite fold_left_Rplus. intros E. injection E as <-.
    pose proof (augmented_sum_nonneg
                  (fun v => madd (msub (mat_at (rotations_ st) v) (mat_at (S_ st) v))
                                 (mat_at (T_ st) v))
                  (seq 0 (rows (vertices_ st)))).
    apply Rmult_le_pos; lra.
Qed.

End EnergySign.

Section EnergySignDemo.

Lemma energies_nonneg_demo :
  0 <= ComputeLinearSolveEnergy demo_moved (vertices_updated_ demo_moved)
                                (rotations_ demo_moved) /\
  (forall name x, energy_of (ComputeEnergy demo_moved) name = Some (Finite x) ->
                  0 <= x) /\
  (forall x, ComputeSVDSolveEnergy demo_moved = Finite x -> 0 <= x).
Proof.
  apply (@energies_nonneg demo_moved).
  - simpl. lra.
  - apply demo_edge_weights_nonneg; reflexivity.
Defined.

End EnergySignDemo.

(* ================================================================= *)
(** ** The sanity checks after the linear solve *)

Section SanityChecks.

Variable cholesky_solve : SparseMatrix -> MatrixXd -> MatrixXd * ComputationInfo.
Variable polar_svd3x3 : Matrix3d -> Matrix3d.

Lemma dense_sub_rows a b :
  length a = length b ->
  dense_sub a b = map (fun r => vsub (row a r) (row b r)) (seq 0 (length a)).
Proof.
  revert b. induction a as [|x a IH]; intros [|y b] H; simpl in *;
    try discriminate; [reflexivity|].
  f_equal. rewrite <- seq_shift, map_map. apply IH. lia.
Qed.

Lemma dense_squaredNorm_sum l :
  dense_squaredNorm l = Rsum (map squaredNorm l).
Proof. induction l; simpl; [reflexivity | now rewrite IHl]. Qed.

Lemma vget_Vsum_scaled (m : nat -> R) (x : nat -> Vector3d) c l :
  vget (Vsum (map (fun k => vscale (m k) (x k)) l)) c =
  Rsum (map (fun k => m k * vget (x k) c) l).
Proof.
  induction l as [|k l IH]; [destruct c as [|[|c]]; reflexivity|].
  cbn [map]. rewrite Vsum_cons, Rsum_cons, <- IH.
  destruct c as [|[|c]]; reflexivity.
Qed.

Lemma squaredNorm_coordinates v :
  squaredNorm v = sum_n 3 (fun c => vget v c ^ 2).
Proof. destruct v. unfold sum_n. simpl. unfold squaredNorm, dot. simpl. ring. Qed.

(** The value the source computes as [(M_ * solution - rhs).squaredNorm()]
    is the squared residual. *)
Lemma residual_squared_residual st x rhs :
  sp_rows (M_ st) = rows rhs ->
  residual st x rhs = squared_residual (M_ st) x rhs.
Proof.
  intros Hrows. unfold residual, squared_residual.
  rewrite dense_sub_rows by (rewrite sp_mul_dense_length; exact Hrows).
  rewrite dense_squaredNorm_sum, map_map, sp_mul_dense_length, Hrows.
  apply Rsum_map_ext. intros r Hr. apply in_seq in Hr.
  rewrite squaredNorm_coordinates. apply sum_n_ext. intros c _.
  rewrite row_sp_mul_dense by (rewrite Hrows; unfold rows in *; lia).
  rewrite Vsum_fold_right. unfold sum_n.
  destruct c as [|[|c]]; cbn [vget vsub vx vy vz];
    [rewrite <- (vget_Vsum_scaled (coeff (M_ st) r) (row x) 0)
    |rewrite <- (vget_Vsum_scaled (coeff (M_ st) r) (row x) 1)
    |rewrite <- (vget_Vsum_scaled (coeff (M_ st) r) (row x) 2)]; reflexivity.
Qed.

(** C8: after the linear solve the row count of the solution is compared
    with the number of unknowns and the squared residual ||M x - rhs||^2
    with 1e-6.  A SolveOneIteration that returns has passed both checks; a
    solution with another row count, or with a residual above 1e-6,
    terminates the process, in the state of entry and with the message of
    the failed check. *)
Theorem SolveOneIteration_sanity_checks (st : Solver) :
  let rhs := build_rhs st in
  let solution := fst (cholesky_solve (solver_ st) rhs) in
  let unknowns := (length (free_ st) + 3 * rows (vertices_ st))%nat in
  sp_rows (M_ st) = rows rhs ->
  (forall st', SolveOneIteration cholesky_solve polar_svd3x3 st = Returns st' ->
     rows solution = unknowns /\
     squared_residual (M_ st) solution rhs <= 1e-6) /\
  (rows solution <> unknowns \/ squared_residual (M_ st) solution rhs > 1e-6 ->
   exists msg, SolveOneIteration cholesky_solve polar_svd3x3 st = Exits msg st) /\
  (snd (cholesky_solve (solver_ st) rhs) = Success ->
   rows solution <> unknowns ->
   SolveOneIteration cholesky_solve polar_svd3x3 st =
   Exits "Fail to write back solution: dimension mismatch." st) /\
  (snd (cholesky_solve (solver_ st) rhs) = Success ->
   rows solution = unknowns ->
   squared_residual (M_ st) solution rhs > 1e-6 ->
   SolveOneIteration cholesky_solve polar_svd3x3 st =
   Exits "Sparse linear solver is wrong!" st).
Proof.
  intros rhs solution unknowns Hrows.
  pose proof (@residual_squared_residual st solution rhs Hrows) as Hres.
  split; [|split; [|split]].
  - intros st' H. apply SolveOneIteration_Returns_inv in H.
    destruct H as [st1 [H _]]. apply LinearSolve_Returns_inv in H.
    cbv zeta in H. fold rhs in H. fold solution in H. fold unknowns in H.
    unfold kMatrixDiffThreshold in H. rewrite Hres in H. tauto.
  - intros H. unfold SolveOneIteration.
    destruct (@LinearSolve_Exits cholesky_solve st) as [msg Hm].
    + cbv zeta. fold rhs. fold solution. fold unknowns.
      unfold kMatrixDiffThreshold. rewrite Hres. tauto.
    + rewrite Hm. now exists msg.
  - intros Hs Hn. unfold SolveOneIteration, LinearSolve.
    fold rhs. fold solution. fold unknowns. rewrite Hs. cbn [is_success negb].
    destruct (Nat.eqb_spec (rows solution) unknowns); [contradiction | reflexivity].
  - intros Hs Hn Hgt. unfold SolveOneIteration, LinearSolve.
    fold rhs. fold solution. fold unknowns. rewrite Hs. cbn [is_success negb].
    rewrite Hn, Nat.eqb_refl. cbn [negb]. rewrite Hres.
    destruct (Rgt_dec _ _) as [_|G]; [reflexivity|].
    unfold kMatrixDiffThreshold in G. contradiction.
Qed.

End SanityChecks.

Section SanityChecksDemo.

Lemma demo_assembled_conformable :
  sp_rows (M_ demo_assembled) = rows (build_rhs demo_assembled).
Proof.
  unfold demo_assembled. cbn [M_ with_M].
  rewrite (proj1 (Precompute_M1_dims demo_moved)). reflexivity.
Qed.

Lemma demo_nudged_residual err :
  squared_residual (M_ demo_assembled)
    (fst (demo_nudged_solve err (solver_ demo_assembled) (build_rhs demo_assembled)))
    (build_rhs demo_assembled) = 8 * err ^ 2.
Proof.
  unfold squared_residual, sum_n. rewrite <- demo_assembled_conformable.
  unfold demo_assembled. cbn [M_ with_M].
  rewrite (proj1 (Precompute_M1_dims demo_moved)),
          (proj2 (Precompute_M1_dims demo_moved)).
  demo_compute. field.
Qed.

Lemma SolveOneIteration_sanity_checks_demo :
  sp_rows (M_ demo_assembled) = rows (build_rhs demo_assembled) /\
  (* a solution off by 1e-4 in one coordinate: residual 8e-8, accepted *)
  (exists st',
     SolveOneIteration (demo_nudged_solve (1 / 10000)) demo_polar demo_assembled
     = Returns st') /\
  squared_residual (M_ demo_assembled)
    (fst (demo_nudged_solve (1 / 10000) (solver_ demo_assembled)
                            (build_rhs demo_assembled)))
    (build_rhs demo_assembled) <= 1e-6 /\
  (* a solution off by 1e-2 in one coordinate: residual 8e-4, fatal *)
  SolveOneIteration (demo_nudged_solve (1 / 100)) demo_polar demo_assembled
  = Exits "Sparse linear solver is wrong!" demo_assembled /\
  (* a solution without rows: fatal *)
  SolveOneIteration demo_bad_solve demo_polar demo_assembled
  = Exits "Fail to write back solution: dimension mismatch." demo_assembled.
Proof.
  pose proof demo_assembled_conformable as Hc.
  assert (Hret : exists st',
            SolveOneIteration (demo_nudged_solve (1 / 10000)) demo_polar
                              demo_assembled = Returns st').
  { unfold SolveOneIteration, LinearSolve.
    cbn [demo_nudged_solve fst snd is_success negb].
    change (rows (add_row demo_translated 0 (mkV3 (1 / 10000) 0 0)) =?
            length (free_ demo_assembled) + 3 * rows (vertices_ demo_assembled))%nat
      with true.
    cbn [negb].
    destruct (Rgt_dec _ _) as [G|_]; [exfalso | eexists; reflexivity].
    rewrite (@residual_squared_residual demo_assembled _ _ Hc) in G.
    change (add_row demo_translated 0 (mkV3 (1 / 10000) 0 0))
      with (fst (demo_nudged_solve (1 / 10000) (solver_ demo_assembled)
                                   (build_rhs demo_assembled))) in G.
    rewrite demo_nudged_residual in G. unfold kMatrixDiffThreshold in G. lra. }
  split; [exact Hc|]. split; [exact Hret|].
  destruct Hret as [st' Hret].
  split.
  - exact (proj2 (proj1 (SolveOneIteration_sanity_checks
                           (demo_nudged_solve (1 / 10000)) demo_polar
                           demo_assembled Hc) st' Hret)).
  - split.
    + apply (proj2 (proj2 (proj2 (SolveOneIteration_sanity_checks
                           (demo_nudged_solve (1 / 100)) demo_polar
                           demo_assembled Hc)))).
      * reflexivity.
      * reflexivity.
      * rewrite demo_nudged_residual. lra.
    + apply (proj1 (proj2 (proj2 (SolveOneIteration_sanity_checks
                           demo_bad_solve demo_polar demo_assembled Hc)))).
      * reflexivity.
      * simpl. lia.
Defined.

End SanityChecksDemo.

(* ================================================================= *)
(** ** The projection step and the augmented energy *)

Section ProjectionMonotone.

Variable cholesky_solve : SparseMatrix -> MatrixXd -> MatrixXd * ComputationInfo.
Variable polar_svd3x3 : Matrix3d -> Matrix3d.

(** What is assumed of the external kernel everywhere: it returns proper
    rotations. *)
Hypothesis polar_rotation : forall M, exact_rotation (polar_svd3x3 M).



End ProjectionMonotone.

(** *** A kernel and a state on which the projection moves S *)

Section ProjectionDemo.
















End ProjectionDemo.
